(** * PadawanZero: address issuance, nonce registry and address codec

    A shallow embedding of the Go packages [state] (nonce.go) and
    [account] (address generation, batch issuance, binary codec) together
    with the properties stated about them.

    Conventions.
    - A Go [string] is a [string]; a Go [[]byte] is a [list byte];
      [[]byte(s)] is [list_byte_of_string s] and [string(b)] is
      [string_of_list_byte b].
    - A Go [int64] is a [Z]; the one subtraction the code performs on
      timestamps is written with its two's-complement wrap-around.
    - A Go [float64] is a primitive binary64 [float].
    - Everything the packages obtain from outside (wall clock, randomness
      source, hash functions, the KEM, the curve, the prover) is reached
      through an interface (a type class); calls that consult the outside
      world thread a value [e : Ext] standing for the state of that world.
    - A pointer that may be [nil] is an [option].
    - Goroutines that meet at a [WaitGroup] are run one after the other.
      The four goroutines of [GenerateAddress] touch disjoint variables
      and are run in the order in which they are started; the goroutines
      of [GenerateAddressesBatch] are run in an order given as an
      argument, which the properties quantify over.
    - A call returns, or panics; a panic is an outcome of its own, not an
      error value. *)

From Stdlib Require Import ZArith List Strings.String Strings.Ascii Strings.Byte.
From Stdlib Require Import Bool Lia Floats Permutation.
From Stdlib Require DecimalString HexadecimalString.
From stdpp Require Import base gmap strings list fin_maps.

Set Warnings "-inexact-float".
Set Default Proof Using "Type".

#[global] Instance byte_eq_dec : EqDecision byte := Byte.byte_eq_dec.

(** ** Pieces of the Go language and standard library *)

(** Two's-complement reduction to 64 bits, and [int64] subtraction. *)
Definition int64_wrap (z : Z) : Z := ((z + 2 ^ 63) mod 2 ^ 64 - 2 ^ 63)%Z.
Definition int64_sub (a b : Z) : Z := int64_wrap (a - b).

(** [make([]byte, n)] handed to a routine that writes [written] into it:
    the buffer keeps its length whatever is written. *)
Definition fill (n : nat) (written : list byte) : list byte :=
  take n (written ++ replicate n x00).

(** [bytes.Equal] *)
Definition bytes_Equal (a b : list byte) : bool := bool_decide (a = b).

(** [strconv.Itoa] / the [%d] verb. *)
Definition itoa (z : Z) : string :=
  DecimalString.NilZero.string_of_int (Z.to_int z).

(** [big.Int.SetBytes]: big-endian, unsigned. *)
Definition big_SetBytes (b : list byte) : Z :=
  foldl (λ acc x, acc * 256 + Z.of_N (Byte.to_N x))%Z 0%Z b.

(** [big.Int.Text(16)]: lower-case hexadecimal, [-] for negatives. *)
Definition big_Text16 (z : Z) : string :=
  HexadecimalString.NilZero.string_of_int (Z.to_hex_int z).

(** Nearest integer to [num / den] ([den > 0]), ties to even. *)
Definition roundHalfEven (num den : Z) : Z :=
  let q := (num / den)%Z in
  let r := (num mod den)%Z in
  if (2 * r >? den)%Z then (q + 1)%Z
  else if (2 * r =? den)%Z && Z.odd q then (q + 1)%Z
  else q.

Fixpoint zeros (n : nat) : string :=
  match n with O => "" | S n => String "0" (zeros n) end.

(** The value [m * 2^e] printed with six decimals, as [%f] does: the
    decimal expansion is exact and is rounded to nearest, ties to even. *)
Definition fixed6 (neg : bool) (m e : Z) : string :=
  let n := if (0 <=? e)%Z then (m * 2 ^ e * 10 ^ 6)%Z
           else roundHalfEven (m * 10 ^ 6) (2 ^ (- e)) in
  let frac := itoa (n mod 10 ^ 6) in
  (if neg then "-" else "") +:+ itoa (n / 10 ^ 6) +:+ "."
    +:+ zeros (6 - String.length frac) +:+ frac.

(** [fmt.Sprintf("%f", x)] *)
Definition fmt_f (x : float) : string :=
  match Prim2SF x with
  | S754_nan => "NaN"
  | S754_infinity s => if s then "-Inf" else "+Inf"
  | S754_zero s => fixed6 s 0 0
  | S754_finite s m e => fixed6 s (Z.pos m) e
  end.

(** [strings.Join] *)
Fixpoint join (sep : string) (l : list string) : string :=
  match l with
  | [] => ""
  | [x] => x
  | x :: l => x +:+ sep +:+ join sep l
  end.

(** [fmt.Sprintf("%v", s)] for [s []int] *)
Definition fmt_v (s : list Z) : string := "[" +:+ join " " (itoa <$> s) +:+ "]".

(** [json.Marshal(s)] for [s []int]. The only slices of this type the
    program builds are [nil] and two-element ones, so the empty list
    stands for [nil]. *)
Definition json_Marshal (s : list Z) : list byte :=
  list_byte_of_string
    match s with
    | [] => "null"
    | _ => "[" +:+ join "," (itoa <$> s) +:+ "]"
    end.

(** [bytes.Split(data, []byte{sep})] *)
Fixpoint bytes_Split (data : list byte) (sep : byte) : list (list byte) :=
  match data with
  | [] => [[]]
  | b :: data =>
      if decide (b = sep) then [] :: bytes_Split data sep
      else match bytes_Split data sep with
           | [] => [[b]]
           | part :: parts => (b :: part) :: parts
           end
  end.

(** Values of type [error]; [Error_string] is the [Error()] method. *)
Inductive error :=
  | BitsNotPositive
  | InvalidLatitude (lat : float)
  | InvalidLongitude (lon : float)
  | PrecisionNotPositive
  | EmptyAnonGeoLocation
  | InvalidBinaryFormat
  | KeyPairFailed
  | InvalidPublicKeySize
  | EncapsulationFailed
  | InvalidInputLengths
  | Wrapped (context : string) (cause : error).

Fixpoint Error_string (err : error) : string :=
  match err with
  | BitsNotPositive => "bits must be positive"
  | InvalidLatitude lat =>
      "invalid latitude: " +:+ fmt_f lat +:+ ", must be between -90 and 90"
  | InvalidLongitude lon =>
      "invalid longitude: " +:+ fmt_f lon +:+ ", must be between -180 and 180"
  | PrecisionNotPositive => "precision must be greater than zero"
  | EmptyAnonGeoLocation => "AnonGeoLocation is empty. Cannot generate ZKP"
  | InvalidBinaryFormat => "invalid binary format"
  | KeyPairFailed => "failed to generate key pair"
  | InvalidPublicKeySize => "invalid public key size"
  | EncapsulationFailed => "encapsulation failed"
  | InvalidInputLengths => "invalid input lengths"
  | Wrapped context cause => context +:+ ": " +:+ Error_string cause
  end.

(** A Go [(T, error)] pair of which exactly one half is meaningful. *)
Inductive result (A : Type) :=
  | Ok (a : A)
  | Err (err : error).
Arguments Ok {A} a.
Arguments Err {A} err.

(** What a call does: it returns, or the goroutine panics. *)
Inductive outcome (A : Type) :=
  | Return (r : A)
  | Panic.
Arguments Return {A} r.
Arguments Panic {A}.

(** ** Collaborators outside the repository *)

(** The operating system: wall clock and randomness source; and the
    [blake3] hasher. *)
Class Runtime (Ext : Type) := {
  (** [time.Now().Unix()] *)
  time_Now_Unix : Ext → Z * Ext;
  (** [crypto/rand.Read(b)] with [len(b) = n]: [None] is a non-nil error,
      [Some bs] the bytes written into [b] *)
  rand_Read : nat → Ext → option (list byte) * Ext;
  (** the digest of everything written to a [blake3] hasher since [Reset] *)
  blake3_Sum : list byte → list byte;
}.

(** Pure routines of the Go standard library that are used as given. *)
Class GoLib := {
  sha256_Sum : list byte → list byte;
  math_Cos : float → float;
  math_Round : float → float;
  (** the conversion [int(x)] *)
  int_of_float : float → Z;
  base64_StdEncoding : list byte → string;
  base64_RawStdEncoding : list byte → string;
}.

(** liboqs, as wrapped by quantum_crypto.c: the status ([1] on success,
    [0] on failure) and what was written to each output buffer. *)
Class Oqs (Ext : Type) := {
  C_generate_keypair : Ext → (Z * list byte * list byte) * Ext;
  C_encapsulate : list byte → Ext → (Z * list byte * list byte) * Ext;
}.

(** [kyber.Group] at [edwards25519.NewBlakeSHA256Ed25519()]. *)
Class Suite (Ext Point Scalar : Type) := {
  (** [suite.Scalar().Pick(stream)] for a random stream *)
  Scalar_Pick : Ext → Scalar * Ext;
  (** [suite.Point().Mul(s, p)]; [p = nil] is the base point *)
  Point_Mul : Scalar → option Point → Point;
  (** [suite.Point().Add(a, b)] *)
  Point_Add : Point → Point → Point;
  (** [suite.Point().Pick(suite.XOF(seed))] *)
  Point_Pick_XOF : list byte → Point;
  (** [p.MarshalBinary()], whose error the callers drop *)
  Point_MarshalBinary : Point → list byte;
}.

(** Modelled from the spec: the zero-knowledge package (imported as
    [libzk13]) is part of the repository but not of the sources at hand.
    The spec gives its interface only: [NewProver(secretHashHex, bits) ->
    Prover] and [Prover.Prove(secretInt) -> (responseInt, modulusInt)],
    opaque beyond the two-integer shape.  [zk13_Prover baggage bits x] is
    [NewZK13(baggage, bits).Prover(x)], returning the pair [(R, P)]. *)
Class Zk13 (Ext : Type) := {
  zk13_Prover : string → Z → Z → Ext → (Z * Z) * Ext;
}.

(** ** Package [common]: the KEM wrapper *)

Module common.

Definition PublicKeySize : nat := 800.
Definition SecretKeySize : nat := 1632.
Definition CiphertextSize : nat := 768.
Definition SharedSecretSize : nat := 32.

Section Kem.
Context {Ext Point Scalar : Type}.
Context `{!Oqs Ext, !GoLib, !Suite Ext Point Scalar}.

Definition GenerateQuantumKeyPair (e : Ext)
  : result (list byte * list byte) * Ext :=
  let '(result, pk, sk, e1) := C_generate_keypair e in
  let publicKey := fill PublicKeySize pk in
  let secretKey := fill SecretKeySize sk in
  if (result =? 0)%Z then (Err KeyPairFailed, e1)
  else (Ok (publicKey, secretKey), e1).

Definition Encapsulate (publicKey : list byte) (e : Ext)
  : result (list byte * list byte) * Ext :=
  if negb (length publicKey =? PublicKeySize)%nat
  then (Err InvalidPublicKeySize, e)
  else
    let '(result, ct, ss, e1) := C_encapsulate publicKey e in
    let ciphertext := fill CiphertextSize ct in
    let sharedSecret := fill SharedSecretSize ss in
    if (result =? 0)%Z then (Err EncapsulationFailed, e1)
    else (Ok (ciphertext, sharedSecret), e1).

Definition QuantumDeriveEdwardsPoint (quantumPublicKey quantumPrivateKey : list byte)
    (e : Ext) : result Point * Ext :=
  if negb (length quantumPublicKey =? PublicKeySize)%nat
     || negb (length quantumPrivateKey =? SecretKeySize)%nat
  then (Err InvalidInputLengths, e)
  else
    match Encapsulate quantumPublicKey e with
    | (Err err, e1) => (Err err, e1)
    | (Ok (_, sharedSecret), e1) =>
        let seed := sha256_Sum (sharedSecret ++ quantumPrivateKey) in
        (Ok (Point_Pick_XOF seed), e1)
    end.

(** [copy(result, derivedPoint)] into [make([]byte, PublicKeySize)] is a
    [fill]. *)
Definition QuantumPointMul (point scalar : list byte) (e : Ext)
  : result (list byte) * Ext :=
  if negb (length point =? PublicKeySize)%nat
     || negb (length scalar =? SecretKeySize)%nat
  then (Err InvalidInputLengths, e)
  else
    match Encapsulate point e with
    | (Err err, e1) => (Err err, e1)
    | (Ok (_, sharedSecret), e1) =>
        let derivedPoint := sha256_Sum (sharedSecret ++ scalar) in
        let result := fill PublicKeySize derivedPoint in
        (Ok result, e1)
    end.

End Kem.
End common.

(** ** Package [common], continued: [Decapsulate] *)

(** The third entry point of quantum_crypto.c: the status and what was
    written to the shared-secret buffer. *)
Class OqsDecaps (Ext : Type) := {
  C_decapsulate : list byte → list byte → Ext → (Z * list byte) * Ext;
}.

Module decaps.

(** The values made with [fmt.Errorf] in [Decapsulate]. *)
Inductive decapsulateError :=
  | InvalidSecretKeySize
  | InvalidCiphertextSize
  | DecapsulationFailed.

Definition decapsulateError_string (err : decapsulateError) : string :=
  match err with
  | InvalidSecretKeySize => "invalid secret key size"
  | InvalidCiphertextSize => "invalid ciphertext size"
  | DecapsulationFailed => "decapsulation failed"
  end.

(** [Decapsulate]: [inl] is the shared secret, [inr] the error. *)
Definition Decapsulate {Ext : Type} `{!OqsDecaps Ext}
    (secretKey ciphertext : list byte) (e : Ext)
  : (list byte + decapsulateError) * Ext :=
  if negb (length secretKey =? common.SecretKeySize)%nat
  then (inr InvalidSecretKeySize, e)
  else if negb (length ciphertext =? common.CiphertextSize)%nat
  then (inr InvalidCiphertextSize, e)
  else
    let '(result, ss, e1) := C_decapsulate secretKey ciphertext e in
    let sharedSecret := fill common.SharedSecretSize ss in
    if (result =? 0)%Z then (inr DecapsulationFailed, e1)
    else (inl sharedSecret, e1).

End decaps.

(** ** Package [state]: the nonce registry (nonce.go) *)

Module state.

Definition nonceLifetime : Z := 3600.
Definition nonceSize : nat := 32.

Record Nonce := {
  Address : string;
  Value : list byte;
  Hash : list byte;
  Timestamp : Z;
}.

Section Registry.
Context {Ext : Type} `{!Runtime Ext}.

(** [hashContext.Reset(); Write([]byte(address)); Write(value); Sum(nil)] *)
Definition generateNonceHash (address : string) (value : list byte) : list byte :=
  blake3_Sum (list_byte_of_string address ++ value).

(** The tail of [GenerateOrUpdateNonce], reached when there is no entry
    for [address] or the entry has expired. *)
Definition generateFresh (address : string) (e : Ext) (nonces : gmap string Nonce)
  : option Nonce * Ext * gmap string Nonce :=
  match rand_Read nonceSize e with
  | (None, e1) => (None, e1, nonces)
  | (Some written, e1) =>
      let value := fill nonceSize written in
      let hash := generateNonceHash address value in
      let '(timestamp, e2) := time_Now_Unix e1 in
      let nonce := {| Address := address; Value := value;
                      Hash := hash; Timestamp := timestamp |} in
      (Some nonce, e2, <[address := nonce]> nonces)
  end.

Definition GenerateOrUpdateNonce (address : string) (e : Ext) (nonces : gmap string Nonce)
  : option Nonce * Ext * gmap string Nonce :=
  match nonces !! address with
  | Some nonce =>
      let '(now, e1) := time_Now_Unix e in
      if (int64_sub now (Timestamp nonce) <=? nonceLifetime)%Z
      then (Some nonce, e1, nonces)
      else generateFresh address e1 nonces
  | None => generateFresh address e nonces
  end.

(** [&&] short-circuits: the clock is read only when both comparisons
    succeeded. *)
Definition ValidateNonce (address : string) (nonce : Nonce) (e : Ext)
    (nonces : gmap string Nonce) : bool * Ext :=
  match nonces !! address with
  | Some storedNonce =>
      if bytes_Equal (Value nonce) (Value storedNonce)
      then if bytes_Equal (Hash nonce) (Hash storedNonce)
           then let '(now, e1) := time_Now_Unix e in
                ((int64_sub now (Timestamp storedNonce) <=? nonceLifetime)%Z, e1)
           else (false, e)
      else (false, e)
  | None => (false, e)
  end.

(** The body of the loop of [PruneExpiredNonces]. *)
Definition pruneStep (currentTimestamp : Z) (nonces : gmap string Nonce)
    (entry : string * Nonce) : gmap string Nonce :=
  let '(address, nonce) := entry in
  if (int64_sub currentTimestamp (Timestamp nonce) >? nonceLifetime)%Z
  then delete address nonces
  else nonces.

(** [for address, nonce := range nonces { ... }]: the body deletes at most
    the entry it is visiting, so every entry present when the loop starts
    is visited exactly once, in an order [visit] the runtime picks. *)
Definition pruneLoop (currentTimestamp : Z) (visit : list (string * Nonce))
    (nonces : gmap string Nonce) : gmap string Nonce :=
  foldl (pruneStep currentTimestamp) nonces visit.

Definition PruneExpiredNonces (e : Ext) (nonces : gmap string Nonce)
  : Ext * gmap string Nonce :=
  let '(currentTimestamp, e1) := time_Now_Unix e in
  (e1, pruneLoop currentTimestamp (map_to_list nonces) nonces).

End Registry.
End state.

(** ** [github.com/hashicorp/golang-lru]: the bounded cache

    The cache is the list of its entries, most recently used first. *)

Module lru.
Section Cache.
Context {V : Type}.

Fixpoint find (key : string) (c : list (string * V)) : option V :=
  match c with
  | [] => None
  | (k, v) :: c => if decide (k = key) then Some v else find key c
  end.

Fixpoint remove (key : string) (c : list (string * V)) : list (string * V) :=
  match c with
  | [] => []
  | (k, v) :: c => if decide (k = key) then remove key c else (k, v) :: remove key c
  end.

(** [c.Get(key)]: a hit moves the entry to the front. *)
Definition Get (key : string) (c : list (string * V)) : option V * list (string * V) :=
  match find key c with
  | Some v => (Some v, (key, v) :: remove key c)
  | None => (None, c)
  end.

(** [c.Add(key, value)] for a cache made by [New(size)]: an existing entry
    is replaced and moved to the front; a new one is put in front and the
    oldest entry is evicted when the size is exceeded. *)
Definition Add (size : nat) (key : string) (value : V) (c : list (string * V))
  : list (string * V) :=
  match find key c with
  | Some _ => (key, value) :: remove key c
  | None =>
      let c' := (key, value) :: c in
      if (size <? length c')%nat then removelast c' else c'
  end.

End Cache.
End lru.

(** ** Package [account]: address generation *)

Module account.

(** [SafeLatitudeLongitude] is [[]int]. *)
Record AddressInfo := {
  PublicKey : string;
  LocationCommitment : string;
  ZKPProof : string;
  NonceValue : string;
  NonceHash : string;
}.

(** [lru.New(100)] *)
Definition addressCacheSize : nat := 100.

(** [math.Pi] *)
Definition math_Pi : float := 3.14159265358979323846%float.

Section Account.
Context {Ext Point Scalar : Type}.
Context `{!Runtime Ext, !GoLib, !Oqs Ext, !Suite Ext Point Scalar, !Zk13 Ext}.

(** The fields of [NetworkAddress] that carry data ([ZKP] and [Suite] are
    handles into the collaborators). *)
Record NetworkAddress := {
  AnonGeoLocation : list Z;
  naLocationCommitment : option Point;
  PrivateKey : option Scalar;
  naPublicKey : option Point;
  r : option Z;
  P : option Z;
  Nonce : option state.Nonce;
}.

(** The package-level variables of [state] and [account], and the world
    outside. *)
Record World := {
  outside : Ext;
  nonces : gmap string state.Nonce;
  addressCache : list (string * AddressInfo);
}.

Definition GenerateCryptoKeys (e : Ext) : result (Scalar * Point) * Ext :=
  let '(classicalPrivateKey, e1) := Scalar_Pick e in
  let classicalPublicKey := Point_Mul classicalPrivateKey None in
  match common.GenerateQuantumKeyPair e1 with
  | (Err err, e2) => (Err (Wrapped "failed to generate quantum key pair" err), e2)
  | (Ok (quantumPublicKey, quantumPrivateKey), e2) =>
      match common.QuantumDeriveEdwardsPoint quantumPublicKey quantumPrivateKey e2 with
      | (Err err, e3) => (Err (Wrapped "failed to derive Edwards point" err), e3)
      | (Ok quantumDerivedPoint, e3) =>
          let combinedPublicKey := Point_Add classicalPublicKey quantumDerivedPoint in
          (Ok (classicalPrivateKey, combinedPublicKey), e3)
      end
  end.

Definition ConvertToPrecisionGrid (lat lon precision : float) : result (list Z) :=
  if (precision <=? 0)%float then Err PrecisionNotPositive
  else
    let latDegreeToMeter := 111319.9%float in
    let longitudeDegreeToMeter :=
      (math_Cos (lat * math_Pi / 180) * latDegreeToMeter)%float in
    let latIndex := int_of_float (math_Round (lat * latDegreeToMeter / precision)%float) in
    let longIndex :=
      int_of_float (math_Round (lon * longitudeDegreeToMeter / precision)%float) in
    Ok [latIndex; longIndex].

(** The [location] argument is not used by the body. *)
Definition CommitLocation (classicalPrivateKey : Scalar) (location : list byte)
    (e : Ext) : result (Scalar * Point) * Ext :=
  match common.GenerateQuantumKeyPair e with
  | (Err err, e1) => (Err (Wrapped "failed to generate quantum key pair" err), e1)
  | (Ok (quantumPublicKey, quantumPrivateKey), e1) =>
      match common.QuantumDeriveEdwardsPoint quantumPublicKey quantumPrivateKey e1 with
      | (Err err, e2) => (Err (Wrapped "failed to derive Edwards point" err), e2)
      | (Ok commitment, e2) =>
          let combinedCommitment := Point_Mul classicalPrivateKey (Some commitment) in
          (Ok (classicalPrivateKey, combinedCommitment), e2)
      end
  end.

(** [SafeLatitudeLongitude.Bytes]; [json.Marshal] of a slice of integers
    does not fail. *)
Definition Bytes (s : list Z) : result (list byte) := Ok (json_Marshal s).

Definition GetDynamicPrecision : result float := Ok 100%float.

(** The cache and registry key, [fmt.Sprintf("%f,%f", lat, lon)]. *)
Definition coordKey (lat lon : float) : string := fmt_f lat +:+ "," +:+ fmt_f lon.

Definition NewNetworkAddress (lat lon : float) (w : World)
  : result NetworkAddress * World :=
  if (lat <? -90)%float || (90 <? lat)%float then (Err (InvalidLatitude lat), w)
  else if (lon <? -180)%float || (180 <? lon)%float then (Err (InvalidLongitude lon), w)
  else
    let fail err e := (Err err, {| outside := e; nonces := nonces w;
                                   addressCache := addressCache w |}) in
    match GenerateCryptoKeys (outside w) with
    | (Err err, e1) => fail (Wrapped "error generating crypto keys" err) e1
    | (Ok (privateKey, publicKey), e1) =>
        match GetDynamicPrecision with
        | Err err => fail (Wrapped "error getting dynamic precision" err) e1
        | Ok precision =>
            match ConvertToPrecisionGrid lat lon precision with
            | Err err => fail (Wrapped "error converting to precision grid" err) e1
            | Ok anonGeoLocation =>
                match Bytes anonGeoLocation with
                | Err err =>
                    fail (Wrapped "error converting anon geo location to bytes" err) e1
                | Ok anonGeoBytes =>
                    match CommitLocation privateKey anonGeoBytes e1 with
                    | (Err err, e2) =>
                        fail (Wrapped "error creating location commitment" err) e2
                    | (Ok (_, locationCommitment), e2) =>
                        let key := coordKey lat lon in
                        let '(n, e3, nonces') :=
                          state.GenerateOrUpdateNonce key e2 (nonces w) in
                        (Ok {| AnonGeoLocation := anonGeoLocation;
                               naLocationCommitment := Some locationCommitment;
                               PrivateKey := Some privateKey;
                               naPublicKey := Some publicKey;
                               r := None; P := None;
                               Nonce := n |},
                         {| outside := e3; nonces := nonces';
                            addressCache := addressCache w |})
                    end
                end
            end
        end
    end.

(** The method [GenerateZKP]: the receiver after the call and the error. *)
Definition GenerateZKP (na : NetworkAddress) (bits : Z) (e : Ext)
  : NetworkAddress * option error * Ext :=
  match AnonGeoLocation na with
  | [] => (na, Some EmptyAnonGeoLocation, e)
  | _ =>
      let secretBaggage := fmt_v (AnonGeoLocation na) in
      let hash := blake3_Sum (list_byte_of_string secretBaggage) in
      let '((R, P'), e1) :=
        zk13_Prover (string_of_list_byte hash) bits (big_SetBytes hash) e in
      ({| AnonGeoLocation := AnonGeoLocation na;
          naLocationCommitment := naLocationCommitment na;
          PrivateKey := PrivateKey na;
          naPublicKey := naPublicKey na;
          r := Some R; P := Some P';
          Nonce := Nonce na |}, None, e1)
  end.

(** The first non-nil entry of an array or slice of errors, as found by
    [for _, err := range errs { if err != nil { return nil, err } }]. *)
Fixpoint firstError (errs : list (option error)) : option error :=
  match errs with
  | [] => None
  | Some err :: _ => Some err
  | None :: errs => firstError errs
  end.

(** *** The four goroutines of [GenerateAddress]

    Each returns what it leaves in the variables it assigns. *)

(** [publicKey] and [errs[0]] *)
Definition keyTask (e : Ext) : option Point * option error * Ext :=
  match GenerateCryptoKeys e with
  | (Ok (_, pk), e1) => (Some pk, None, e1)
  | (Err err, e1) => (None, Some err, e1)
  end.

(** [locationCommitment] and [errs[1]] *)
Definition commitTask (lat lon : float) (e : Ext) : option Point * option error * Ext :=
  match GetDynamicPrecision with
  | Err err => (None, Some err, e)
  | Ok precision =>
      match ConvertToPrecisionGrid lat lon precision with
      | Err err => (None, Some err, e)
      | Ok anonGeoLocation =>
          match Bytes anonGeoLocation with
          | Err err => (None, Some err, e)
          | Ok anonGeoBytes =>
              let '(scalar, e1) := Scalar_Pick e in
              match CommitLocation scalar anonGeoBytes e1 with
              | (Ok (_, lc), e2) => (Some lc, None, e2)
              | (Err err, e2) => (None, Some err, e2)
              end
          end
      end
  end.

(** [zkpProofStr]; [errs[2]] is never assigned *)
Definition proofTask (lat lon : float) (bits : Z) (e : Ext) : string * Ext :=
  let hash := blake3_Sum (list_byte_of_string (coordKey lat lon)) in
  let '((R, P'), e1) :=
    zk13_Prover (string_of_list_byte hash) bits (big_SetBytes hash) e in
  (big_Text16 R +:+ "|" +:+ big_Text16 P', e1).

(** [nonce]; [errs[3]] is never assigned *)
Definition nonceTask (key : string) (e : Ext) (nonces : gmap string state.Nonce)
  : option state.Nonce * Ext * gmap string state.Nonce :=
  state.GenerateOrUpdateNonce key e nonces.

(** What follows [wg.Wait()]: the scan of [errs], the marshalling and the
    construction of the record.  Calling a method on the nil [publicKey]
    or [locationCommitment], or reading a field through the nil [nonce],
    panics. *)
Definition assemble (publicKey locationCommitment : option Point)
    (zkpProofStr : string) (nonce : option state.Nonce)
    (errs : list (option error)) : outcome (result AddressInfo) :=
  match firstError errs with
  | Some err => Return (Err err)
  | None =>
      match publicKey, locationCommitment, nonce with
      | Some publicKey, Some locationCommitment, Some nonce =>
          let publicKeyBytes := Point_MarshalBinary publicKey in
          let locationCommitmentBytes := Point_MarshalBinary locationCommitment in
          Return (Ok {|
            PublicKey := base64_RawStdEncoding publicKeyBytes;
            LocationCommitment := base64_RawStdEncoding locationCommitmentBytes;
            ZKPProof := zkpProofStr;
            NonceValue := base64_StdEncoding (state.Value nonce);
            NonceHash := base64_StdEncoding (state.Hash nonce) |})
      | _, _, _ => Panic
      end
  end.

(** [GenerateAddress].  The four goroutines work on disjoint variables and
    meet only at [wg.Wait()]; they are run here one after the other, in
    the order in which they are started. *)
Definition GenerateAddress (lat lon : float) (bits : Z) (w : World)
  : outcome (result AddressInfo) * World :=
  if (bits <=? 0)%Z then (Return (Err BitsNotPositive), w)
  else if (lat <? -90)%float || (90 <? lat)%float
  then (Return (Err (InvalidLatitude lat)), w)
  else if (lon <? -180)%float || (180 <? lon)%float
  then (Return (Err (InvalidLongitude lon)), w)
  else
    let key := coordKey lat lon in
    match lru.Get key (addressCache w) with
    | (Some cached, cache') =>
        (Return (Ok cached),
         {| outside := outside w; nonces := nonces w; addressCache := cache' |})
    | (None, _) =>
        let '(publicKey, err0, e1) := keyTask (outside w) in
        let '(locationCommitment, err1, e2) := commitTask lat lon e1 in
        let '(zkpProofStr, e3) := proofTask lat lon bits e2 in
        let '(nonce, e4, nonces') := nonceTask key e3 (nonces w) in
        let errs := [err0; err1; None; None] in
        match assemble publicKey locationCommitment zkpProofStr nonce errs with
        | Return (Ok ai) =>
            (Return (Ok ai),
             {| outside := e4; nonces := nonces';
                addressCache := lru.Add addressCacheSize key ai (addressCache w) |})
        | other =>
            (other, {| outside := e4; nonces := nonces';
                       addressCache := addressCache w |})
        end
    end.

(** *** [GenerateAddressesBatch]

    [addresses] and [errs] are the two slices the goroutines write to. The
    goroutine for index [i] runs [GenerateAddress] on [coords[i]] and
    stores the two results at index [i]; a panic in any goroutine ends
    the program. *)
Definition runMember (coords : list (float * float)) (bits : Z)
    (st : outcome (list (option AddressInfo) * list (option error)) * World)
    (i : nat)
  : outcome (list (option AddressInfo) * list (option error)) * World :=
  match st with
  | (Panic, w) => (Panic, w)
  | (Return (addresses, errs), w) =>
      match coords !! i with
      | None => (Return (addresses, errs), w)
      | Some (lat, lon) =>
          match GenerateAddress lat lon bits w with
          | (Panic, w') => (Panic, w')
          | (Return (Ok ai), w') =>
              (Return (<[i := Some ai]> addresses, <[i := None]> errs), w')
          | (Return (Err err), w') =>
              (Return (<[i := None]> addresses, <[i := Some err]> errs), w')
          end
      end
  end.

(** [sched] is the order in which the scheduler lets the goroutines run:
    each index below [len(coords)] once. *)
Definition GenerateAddressesBatch (sched : list nat) (coords : list (float * float))
    (bits : Z) (w : World) : outcome (result (list (option AddressInfo))) * World :=
  let n := length coords in
  let addresses := replicate n None in
  let errs := replicate n None in
  match foldl (runMember coords bits) (Return (addresses, errs), w) sched with
  | (Panic, w') => (Panic, w')
  | (Return (addresses, errs), w') =>
      match firstError errs with
      | Some err => (Return (Err err), w')
      | None => (Return (Ok addresses), w')
      end
  end.

(** [GetOrGenerateAddress] looks the key up before anything else, and
    adds the record to the cache once more after [GenerateAddress] has. *)
Definition GetOrGenerateAddress (lat lon : float) (bits : Z) (w : World)
  : outcome (result AddressInfo) * World :=
  let key := coordKey lat lon in
  match lru.Get key (addressCache w) with
  | (Some cached, cache') =>
      (Return (Ok cached),
       {| outside := outside w; nonces := nonces w; addressCache := cache' |})
  | (None, _) =>
      match GenerateAddress lat lon bits w with
      | (Return (Ok address), w') =>
          (Return (Ok address),
           {| outside := outside w'; nonces := nonces w';
              addressCache := lru.Add addressCacheSize key address (addressCache w') |})
      | other => other
      end
  end.

(** The method [Set] of [SafeLatitudeLongitude]: the receiver after the
    call, and the error. *)
Definition SafeLatitudeLongitude_Set (s : list Z) (lat lon precision : float)
  : list Z * option error :=
  match ConvertToPrecisionGrid lat lon precision with
  | Err err => (s, Some err)
  | Ok converted => (converted, None)
  end.

End Account.

(** *** The binary codec *)

Definition MarshalBinary (ai : AddressInfo) : result (list byte) :=
  let buf := [] in
  let buf := buf ++ list_byte_of_string (PublicKey ai) in
  let buf := buf ++ [x00] in
  let buf := buf ++ list_byte_of_string (LocationCommitment ai) in
  let buf := buf ++ [x00] in
  let buf := buf ++ list_byte_of_string (ZKPProof ai) in
  Ok buf.

(** [UnmarshalBinary]: the receiver after the call, and the error. *)
Definition UnmarshalBinary (ai : AddressInfo) (data : list byte)
  : AddressInfo * option error :=
  match bytes_Split data x00 with
  | [part0; part1; part2] =>
      ({| PublicKey := string_of_list_byte part0;
          LocationCommitment := string_of_list_byte part1;
          ZKPProof := string_of_list_byte part2;
          NonceValue := NonceValue ai;
          NonceHash := NonceHash ai |}, None)
  | _ => (ai, Some InvalidBinaryFormat)
  end.

End account.

(** ** Package [account]: the account manager (account_manager.go)

    The state matrix is a [mat.Dense] with one column, held as the list of
    its rows.  Each account is a heap object of its own, reached through
    the map only, so updating the object is updating the map entry. *)

Module ledger.

Record Account := {
  Address : string;
  Balance : float;
}.

Record AccountManager := {
  accounts : gmap string Account;
  state : list float;
}.

(** The values made with [errors.New] in this file. *)
Inductive ledgerError :=
  | AccountExists
  | AccountNotFound
  | SenderNotFound
  | RecipientNotFound
  | InsufficientFunds.

Definition ledgerError_string (err : ledgerError) : string :=
  match err with
  | AccountExists => "account already exists"
  | AccountNotFound => "account not found"
  | SenderNotFound => "sender account not found"
  | RecipientNotFound => "recipient account not found"
  | InsufficientFunds => "insufficient funds"
  end.

Definition NewAccountManager : AccountManager :=
  {| accounts := ∅; state := [0%float] |}.

(** [make([]float64, n)] with [data] copied into it. *)
Definition copyInto (n : nat) (data : list float) : list float :=
  take n (data ++ replicate n 0%float).

Definition CreateAccount (address : string) (initialBalance : float)
    (am : AccountManager) : option ledgerError * AccountManager :=
  match accounts am !! address with
  | Some _ => (Some AccountExists, am)
  | None =>
      let account := {| Address := address; Balance := initialBalance |} in
      let rows := length (state am) in
      let newData := copyInto (rows + 1) (state am) in
      let newData := <[rows := initialBalance]> newData in
      (None, {| accounts := <[address := account]> (accounts am);
                state := newData |})
  end.

Definition GetBalance (address : string) (am : AccountManager)
  : float * option ledgerError :=
  match accounts am !! address with
  | None => (0%float, Some AccountNotFound)
  | Some account => (Balance account, None)
  end.

(** [getAccountIndex]: the position of [address] in the order in which
    [range am.accounts] yields the keys, or [-1]. *)
Fixpoint indexFrom (i : Z) (order : list string) (address : string) : Z :=
  match order with
  | [] => (-1)%Z
  | addr :: order =>
      if decide (addr = address) then i else indexFrom (i + 1) order address
  end.

Definition getAccountIndex (order : list string) (address : string) : Z :=
  indexFrom 0 order address.

(** [m.Set(i, 0, v)], which panics when [i] is not a row of [m]. *)
Definition dense_Set (i : Z) (v : float) (m : list float) : outcome (list float) :=
  if (0 <=? i)%Z && (i <? Z.of_nat (length m))%Z
  then Return (<[Z.to_nat i := v]> m)
  else Panic.

Definition withdraw (amount : float) (a : Account) : Account :=
  {| Address := Address a; Balance := (Balance a - amount)%float |}.

Definition deposit (amount : float) (a : Account) : Account :=
  {| Address := Address a; Balance := (Balance a + amount)%float |}.

(** [Transfer].  [order1] and [order2] are the orders in which the two
    calls of [getAccountIndex] range over the map. *)
Definition Transfer (order1 order2 : list string) (from to : string)
    (amount : float) (am : AccountManager)
  : outcome (option ledgerError) * AccountManager :=
  match accounts am !! from with
  | None => (Return (Some SenderNotFound), am)
  | Some fromAccount =>
      match accounts am !! to with
      | None => (Return (Some RecipientNotFound), am)
      | Some _ =>
          if (Balance fromAccount <? amount)%float
          then (Return (Some InsufficientFunds), am)
          else
            let accounts1 := alter (withdraw amount) from (accounts am) in
            let accounts2 := alter (deposit amount) to accounts1 in
            let balanceOf address :=
              match accounts2 !! address with
              | Some a => Balance a
              | None => 0%float
              end in
            let fromIndex := getAccountIndex order1 from in
            let toIndex := getAccountIndex order2 to in
            let step1 :=
              if (fromIndex =? -1)%Z then Return (state am)
              else dense_Set fromIndex (balanceOf from) (state am) in
            match step1 with
            | Panic => (Panic, {| accounts := accounts2; state := state am |})
            | Return state1 =>
                let step2 :=
                  if (toIndex =? -1)%Z then Return state1
                  else dense_Set toIndex (balanceOf to) state1 in
                match step2 with
                | Panic => (Panic, {| accounts := accounts2; state := state1 |})
                | Return state2 =>
                    (Return None, {| accounts := accounts2; state := state2 |})
                end
            end
      end
  end.

End ledger.

(** ** Notions used to state the properties *)

Section RegistryNotions.
Context {Ext : Type} `{!Runtime Ext}.

(** The age of a nonce at time [now], as the code computes it: an [int64]
    difference. *)
Definition age (now : Z) (n : state.Nonce) : Z :=
  int64_sub now (state.Timestamp n).

(** The reading the next call of [time.Now().Unix()] gives. *)
Definition clock (e : Ext) : Z := (time_Now_Unix e).1.

(** The world after that call. *)
Definition ticked (e : Ext) : Ext := (time_Now_Unix e).2.

(** Well-formedness of the registry: each nonce sits under its own
    address and carries the hash of its address and value. *)
Definition registry_wf (nonces : gmap string state.Nonce) : Prop :=
  map_Forall (λ key n,
    state.Address n = key ∧
    state.Hash n = state.generateNonceHash (state.Address n) (state.Value n)) nonces.

(** The operations of the registry, and the registry after each. *)
Inductive registry_op :=
  | OpGenerateOrUpdateNonce (address : string)
  | OpValidateNonce (address : string) (nonce : state.Nonce)
  | OpPruneExpiredNonces.

Definition registry_step (st : Ext * gmap string state.Nonce) (op : registry_op)
  : Ext * gmap string state.Nonce :=
  let '(e, nonces) := st in
  match op with
  | OpGenerateOrUpdateNonce address =>
      let '(_, e', nonces') := state.GenerateOrUpdateNonce address e nonces in
      (e', nonces')
  | OpValidateNonce address nonce =>
      ((state.ValidateNonce address nonce e nonces).2, nonces)
  | OpPruneExpiredNonces => state.PruneExpiredNonces e nonces
  end.

End RegistryNotions.

(** Codec: a string free of zero bytes. *)
Definition zeroFree (s : string) : Prop := x00 ∉ list_byte_of_string s.

(** The two kinds of validation error. *)
Definition isCoordinateError (err : error) : bool :=
  match err with
  | InvalidLatitude _ | InvalidLongitude _ => true
  | _ => false
  end.

Definition isParameterError (err : error) : bool :=
  match err with
  | BitsNotPositive => true
  | _ => false
  end.

(** Outside the closed interval [[lo, hi]], by the order of [float64]. *)
Definition outside_interval (lo hi x : float) : Prop :=
  (x <? lo)%float = true ∨ (hi <? x)%float = true.

Section IssuanceNotions.
Context {Ext Point Scalar : Type}.
Context `{!Runtime Ext, !GoLib, !Oqs Ext, !Suite Ext Point Scalar, !Zk13 Ext}.
Implicit Types (w : account.World (Ext := Ext)).

(** The three guards at the head of [GenerateAddress]. *)
Definition passesValidation (lat lon : float) (bits : Z) : bool :=
  negb (bits <=? 0)%Z
  && negb ((lat <? -90)%float || (90 <? lat)%float)
  && negb ((lon <? -180)%float || (180 <? lon)%float).

(** [GenerateAddress] past its guards, on a cache miss. *)
Definition issueFresh (lat lon : float) (bits : Z) w
  : outcome (result account.AddressInfo) * account.World (Ext := Ext) :=
  let key := account.coordKey lat lon in
  let '(publicKey, err0, e1) := account.keyTask (account.outside w) in
  let '(locationCommitment, err1, e2) := account.commitTask lat lon e1 in
  let '(zkpProofStr, e3) := account.proofTask lat lon bits e2 in
  let '(nonce, e4, nonces') := account.nonceTask key e3 (account.nonces w) in
  let errs := [err0; err1; None; None] in
  match account.assemble publicKey locationCommitment zkpProofStr nonce errs with
  | Return (Ok ai) =>
      (Return (Ok ai),
       {| account.outside := e4; account.nonces := nonces';
          account.addressCache :=
            lru.Add account.addressCacheSize key ai (account.addressCache w) |})
  | other =>
      (other, {| account.outside := e4; account.nonces := nonces';
                 account.addressCache := account.addressCache w |})
  end.

(** The two slices and the world once the goroutines listed in [sched]
    have run, in that order. *)
Definition membersRun (coords : list (float * float)) (bits : Z)
    (sched : list nat) w
  : outcome (list (option account.AddressInfo) * list (option error))
    * account.World (Ext := Ext) :=
  foldl (account.runMember coords bits)
    (Return (replicate (length coords) None, replicate (length coords) None), w)
    sched.

(** What a goroutine stores in [addresses[i]] and [errs[i]]. *)
Definition slotOf (r : result account.AddressInfo)
  : option account.AddressInfo * option error :=
  match r with
  | Ok ai => (Some ai, None)
  | Err err => (None, Some err)
  end.

End IssuanceNotions.

(** ** A small instance of the collaborators

    Used to run the definitions on concrete inputs.  The world outside is
    a single flag, whether the randomness source works; the clock stands
    still at 1700000000. *)

Module Demo.

#[global] Instance runtime : Runtime bool := {
  time_Now_Unix e := (1700000000%Z, e);
  rand_Read n e := (if e then Some (replicate n x2a) else None, e);
  blake3_Sum b := b;
}.

#[global] Instance golib : GoLib := {
  sha256_Sum b := b;
  math_Cos _ := 1%float;
  math_Round x := x;
  int_of_float _ := 0%Z;
  base64_StdEncoding := string_of_list_byte;
  base64_RawStdEncoding := string_of_list_byte;
}.

#[global] Instance oqs : Oqs bool := {
  C_generate_keypair e := ((1%Z, [x01], [x02]), e);
  C_encapsulate _ e := ((1%Z, [x03], [x04]), e);
}.

#[global] Instance suite : Suite bool Z Z := {
  Scalar_Pick e := (7%Z, e);
  Point_Mul s p := (s * default 1 p)%Z;
  Point_Add a b := (a + b)%Z;
  Point_Pick_XOF seed := Z.of_nat (length seed);
  Point_MarshalBinary p := list_byte_of_string (itoa p);
}.

#[global] Instance zk13 : Zk13 bool := {
  zk13_Prover _ bits x e := ((x, bits), e);
}.

Definition someNonce (address : string) (timestamp : Z) : state.Nonce :=
  {| state.Address := address;
     state.Value := replicate 32 x2a;
     state.Hash := list_byte_of_string address ++ replicate 32 x2a;
     state.Timestamp := timestamp |}.

Definition emptyWorld (randomnessWorks : bool) : account.World (Ext := bool) :=
  {| account.outside := randomnessWorks;
     account.nonces := ∅;
     account.addressCache := [] |}.

End Demo.

Module DemoRegistry.
Import Demo.

(** Alice's nonce is 1000 seconds old, Bob's 10000. *)
Definition registry : gmap string state.Nonce :=
  {[ "alice" := someNonce "alice" 1699999000;
     "bob" := someNonce "bob" 1699990000 ]}.

Definition issued : state.Nonce := someNonce "carol" 1700000000.

End DemoRegistry.

Module DemoCodec.

Definition x : account.AddressInfo :=
  {| account.PublicKey := "pk"; account.LocationCommitment := "lc";
     account.ZKPProof := "1f|2e"; account.NonceValue := "nv";
     account.NonceHash := "nh" |}.

(** [&AddressInfo{}] *)
Definition blank : account.AddressInfo :=
  {| account.PublicKey := ""; account.LocationCommitment := "";
     account.ZKPProof := ""; account.NonceValue := "";
     account.NonceHash := "" |}.

End DemoCodec.

Module DemoAddress.

(** What the demo collaborators issue for New York. *)
Definition newYork : account.AddressInfo :=
  {| account.PublicKey := "1671";
     account.LocationCommitment := "11648";
     account.ZKPProof := "34302e3731323830302c2d37342e303036303030|100";
     account.NonceValue := "********************************";
     account.NonceHash := "40.712800,-74.006000********************************" |}.

Definition afterNewYork : account.World (Ext := bool) :=
  (account.GenerateAddress 40.7128 (-74.0060) 256 (Demo.emptyWorld true)).2.

End DemoAddress.

Module DemoBatch.

Definition coords : list (float * float) :=
  [(40.7128, -74.0060); (51.5074, -0.1278); (35.6762, 139.6503)]%float.

Definition withInvalid : list (float * float) :=
  [(40.7128, -74.0060); (51.5074, -181); (35.6762, 139.6503)]%float.

(** The goroutines happen to run last to first. *)
Definition sched : list nat := [2; 0; 1].

End DemoBatch.

(** ** Further notions *)

(** The number of zero bytes in a byte string. *)
Definition zeroCount (data : list byte) : nat :=
  length (filter (λ b, b = x00) data).

(** [bytes.Join(parts, []byte{0})] *)
Fixpoint joinZero (parts : list (list byte)) : list byte :=
  match parts with
  | [] => []
  | [part] => part
  | part :: parts => part ++ x00 :: joinZero parts
  end.

(** Every nonce in the registry has a value of 32 bytes. *)
Definition registry_sized (nonces : gmap string state.Nonce) : Prop :=
  map_Forall (λ _ n, length (state.Value n) = 32) nonces.

(** The address cache is in order: no key twice, at most 100 entries. *)
Definition cacheOk (c : list (string * account.AddressInfo)) : Prop :=
  NoDup c.*1 ∧ length c ≤ account.addressCacheSize.

(** The matrix of the account manager has one row more than there are
    accounts (the row [NewAccountManager] starts with). *)
Definition ledgerOk (am : ledger.AccountManager) : Prop :=
  length (ledger.state am) = S (size (ledger.accounts am)).

(** An order in which [range] may yield the keys of the accounts map. *)
Definition rangeOrder (am : ledger.AccountManager) (order : list string) : Prop :=
  order ≡ₚ (map_to_list (ledger.accounts am)).*1.

Module DemoKem.

(** A library whose key generation works and whose encapsulation fails. *)
Definition failingOqs : Oqs bool := {|
  C_generate_keypair e := ((1%Z, [x01], [x02]), e);
  C_encapsulate _ e := ((0%Z, [], []), e);
|}.

(** A library that decapsulates to one byte. *)
#[global] Instance decapsulating : OqsDecaps bool := {
  C_decapsulate _ _ e := ((1%Z, [x04]), e);
}.

(** [&NetworkAddress{}] *)
Definition emptyAddress : account.NetworkAddress (Point := Z) (Scalar := Z) :=
  {| account.AnonGeoLocation := [];
     account.naLocationCommitment := None;
     account.PrivateKey := None;
     account.naPublicKey := None;
     account.r := None; account.P := None;
     account.Nonce := None |}.

End DemoKem.

Module DemoLedger.

(** Alice opens with 10, Bob with 5. *)
Definition two : ledger.AccountManager :=
  (ledger.CreateAccount "bob" 5
     (ledger.CreateAccount "alice" 10 ledger.NewAccountManager).2).2.

End DemoLedger.

(** ** Properties of the nonce registry *)

Section RegistryFacts.
Context {Ext : Type} `{!Runtime Ext}.
Implicit Types (nonces : gmap string state.Nonce) (e : Ext) (n : state.Nonce).

Lemma fill_length (k : nat) written : length (fill k written) = k.
Proof.
  unfold fill. rewrite length_take, length_app, length_replicate. lia.
Qed.

Lemma int64_sub_exact a b :
  (- 2 ^ 63 <= a - b < 2 ^ 63)%Z → int64_sub a b = (a - b)%Z.
Proof.
  intros H. unfold int64_sub, int64_wrap.
  rewrite Z.mod_small by lia. lia.
Qed.

(** Away from overflow the age is the plain difference. *)
Lemma age_exact now n :
  (- 2 ^ 63 <= now - state.Timestamp n < 2 ^ 63)%Z →
  age now n = (now - state.Timestamp n)%Z.
Proof. apply int64_sub_exact. Qed.

Lemma bytes_Equal_true a b : bytes_Equal a b = true ↔ a = b.
Proof. unfold bytes_Equal. apply bool_decide_eq_true. Qed.

Lemma pruneLoop_absent t visit nonces key :
  nonces !! key = None → state.pruneLoop t visit nonces !! key = None.
Proof.
  unfold state.pruneLoop. revert nonces.
  induction visit as [|[a n] visit IH]; intros nonces Hk; [done|].
  cbn [foldl]. apply IH. unfold state.pruneStep.
  destruct (_ >? _)%Z; [|done].
  destruct (decide (a = key)) as [->|Hne].
  - apply lookup_delete_eq.
  - by rewrite lookup_delete_ne.
Qed.

Lemma pruneLoop_kept t visit nonces key :
  (∀ n, (key, n) ∈ visit → (age t n >? state.nonceLifetime)%Z = false) →
  state.pruneLoop t visit nonces !! key = nonces !! key.
Proof.
  unfold state.pruneLoop. revert nonces.
  induction visit as [|[a n] visit IH]; intros nonces Hk; [done|].
  cbn [foldl]. rewrite IH.
  - unfold state.pruneStep.
    destruct (_ >? _)%Z eqn:Hexp; [|done].
    destruct (decide (a = key)) as [->|Hne].
    + specialize (Hk n (list_elem_of_here _ _)). unfold age in Hk. congruence.
    + by rewrite lookup_delete_ne.
  - intros n' Hin. apply Hk. by apply list_elem_of_further.
Qed.

Lemma pruneLoop_removed t visit nonces key n :
  (key, n) ∈ visit → (age t n >? state.nonceLifetime)%Z = true →
  state.pruneLoop t visit nonces !! key = None.
Proof.
  revert nonces.
  induction visit as [|[a n'] visit IH]; intros nonces Hin Hexp.
  - by apply elem_of_nil in Hin.
  - apply elem_of_cons in Hin as [Heq|Hin].
    + inversion Heq; subst a n'.
      unfold state.pruneLoop. cbn [foldl].
      apply pruneLoop_absent. unfold state.pruneStep.
      unfold age in Hexp. rewrite Hexp. apply lookup_delete_eq.
    + unfold state.pruneLoop. cbn [foldl]. by apply IH.
Qed.

(** The loop computes a filter, whatever the order of the visit. *)
Lemma pruneLoop_lookup t visit nonces key :
  visit ≡ₚ map_to_list nonces →
  state.pruneLoop t visit nonces !! key =
    match nonces !! key with
    | Some n => if (age t n >? state.nonceLifetime)%Z then None else Some n
    | None => None
    end.
Proof.
  intros Hperm.
  destruct (nonces !! key) as [n|] eqn:Hk.
  - destruct (_ >? _)%Z eqn:Hexp.
    + apply (pruneLoop_removed _ _ _ _ n); [|done].
      rewrite Hperm. by apply elem_of_map_to_list.
    + rewrite pruneLoop_kept; [done|].
      intros n' Hin. rewrite Hperm in Hin.
      apply elem_of_map_to_list in Hin. congruence.
  - by apply pruneLoop_absent.
Qed.

End RegistryFacts.

Section RegistryOperations.
Context {Ext : Type} `{!Runtime Ext}.
Implicit Types (nonces : gmap string state.Nonce) (e : Ext) (n : state.Nonce).

Lemma generateFresh_eq address e nonces :
  state.generateFresh address e nonces =
    match rand_Read state.nonceSize e with
    | (None, e1) => (None, e1, nonces)
    | (Some written, e1) =>
        let value := fill state.nonceSize written in
        let fresh := {| state.Address := address; state.Value := value;
                        state.Hash := state.generateNonceHash address value;
                        state.Timestamp := clock e1 |} in
        (Some fresh, ticked e1, <[address := fresh]> nonces)
    end.
Proof.
  unfold state.generateFresh, clock, ticked.
  destruct (rand_Read _ e) as [[written|] e1]; [|done].
  by destruct (time_Now_Unix e1).
Qed.

Lemma GenerateOrUpdateNonce_eq address e nonces :
  state.GenerateOrUpdateNonce address e nonces =
    match nonces !! address with
    | Some n =>
        if (age (clock e) n <=? state.nonceLifetime)%Z
        then (Some n, ticked e, nonces)
        else state.generateFresh address (ticked e) nonces
    | None => state.generateFresh address e nonces
    end.
Proof.
  unfold state.GenerateOrUpdateNonce, clock, ticked, age.
  destruct (nonces !! address); [|done].
  by destruct (time_Now_Unix e).
Qed.

Lemma ValidateNonce_eq address candidate e nonces :
  (state.ValidateNonce address candidate e nonces).1 =
    match nonces !! address with
    | Some stored =>
        bytes_Equal (state.Value candidate) (state.Value stored)
        && bytes_Equal (state.Hash candidate) (state.Hash stored)
        && (age (clock e) stored <=? state.nonceLifetime)%Z
    | None => false
    end.
Proof.
  unfold state.ValidateNonce, clock, age.
  destruct (nonces !! address) as [stored|]; [|done].
  destruct (bytes_Equal (state.Value _) _); [|done].
  destruct (bytes_Equal (state.Hash _) _); [|done].
  by destruct (time_Now_Unix e).
Qed.

Lemma ValidateNonce_true address candidate e nonces :
  (state.ValidateNonce address candidate e nonces).1 = true ↔
  ∃ stored, nonces !! address = Some stored
    ∧ state.Value candidate = state.Value stored
    ∧ state.Hash candidate = state.Hash stored
    ∧ (age (clock e) stored ≤ state.nonceLifetime)%Z.
Proof.
  rewrite ValidateNonce_eq. split.
  - destruct (nonces !! address) as [stored|]; [|done].
    rewrite !andb_true_iff, !bytes_Equal_true, Z.leb_le.
    intros [[??] ?]. by exists stored.
  - intros (stored & -> & Hv & Hh & Hage).
    rewrite !andb_true_iff, !bytes_Equal_true, Z.leb_le. done.
Qed.

Lemma generateFresh_stored address e nonces issued e' nonces' :
  state.generateFresh address e nonces = (Some issued, e', nonces') →
  nonces' !! address = Some issued
  ∧ state.Address issued = address
  ∧ state.Hash issued = state.generateNonceHash address (state.Value issued)
  ∧ state.Timestamp issued = clock (rand_Read state.nonceSize e).2
  ∧ nonces' = <[address := issued]> nonces.
Proof.
  rewrite generateFresh_eq.
  destruct (rand_Read _ e) as [[written|] e1]; [|done].
  cbv zeta. intros [= <- <- <-]. cbn. by rewrite lookup_insert_eq.
Qed.

Lemma GenerateOrUpdateNonce_stored address e nonces issued e' nonces' :
  state.GenerateOrUpdateNonce address e nonces = (Some issued, e', nonces') →
  nonces' !! address = Some issued.
Proof.
  rewrite GenerateOrUpdateNonce_eq.
  destruct (nonces !! address) as [n|] eqn:Hn.
  - destruct (_ <=? _)%Z.
    + by intros [= <- <- <-].
    + intros H. by apply generateFresh_stored in H as (? & _).
  - intros H. by apply generateFresh_stored in H as (? & _).
Qed.

Lemma generateFresh_nil address e nonces :
  (state.generateFresh address e nonces).1.1 = None ↔
  (rand_Read state.nonceSize e).1 = None.
Proof.
  rewrite generateFresh_eq.
  by destruct (rand_Read _ e) as [[written|] e1].
Qed.

(** [GenerateOrUpdateNonce] returns [nil] exactly when it has to draw a
    fresh value and the randomness source fails. *)
Lemma GenerateOrUpdateNonce_nil address e nonces :
  (state.GenerateOrUpdateNonce address e nonces).1.1 = None ↔
  match nonces !! address with
  | Some n =>
      (age (clock e) n > state.nonceLifetime)%Z
      ∧ (rand_Read state.nonceSize (ticked e)).1 = None
  | None => (rand_Read state.nonceSize e).1 = None
  end.
Proof.
  rewrite GenerateOrUpdateNonce_eq.
  destruct (nonces !! address) as [n|]; [|apply generateFresh_nil].
  destruct (_ <=? _)%Z eqn:Hle.
  - apply Z.leb_le in Hle. split; [done|]. intros [? _]. lia.
  - apply Z.leb_gt in Hle. rewrite generateFresh_nil. split; [|tauto].
    intros ?. split; [lia|done].
Qed.

Lemma registry_wf_insert address value timestamp nonces :
  registry_wf nonces →
  registry_wf (<[address := {| state.Address := address; state.Value := value;
                               state.Hash := state.generateNonceHash address value;
                               state.Timestamp := timestamp |}]> nonces).
Proof. intros Hwf. by apply map_Forall_insert_2. Qed.

Lemma registry_wf_generateFresh address e nonces :
  registry_wf nonces → registry_wf (state.generateFresh address e nonces).2.
Proof.
  intros Hwf. rewrite generateFresh_eq.
  destruct (rand_Read _ e) as [[written|] e1]; [|done].
  by apply registry_wf_insert.
Qed.

Lemma registry_wf_GenerateOrUpdateNonce address e nonces :
  registry_wf nonces → registry_wf (state.GenerateOrUpdateNonce address e nonces).2.
Proof.
  intros Hwf. rewrite GenerateOrUpdateNonce_eq.
  destruct (nonces !! address) as [n|]; [destruct (_ <=? _)%Z|];
    first done; by apply registry_wf_generateFresh.
Qed.

Lemma PruneExpiredNonces_eq e nonces :
  state.PruneExpiredNonces e nonces =
    (ticked e, state.pruneLoop (clock e) (map_to_list nonces) nonces).
Proof.
  unfold state.PruneExpiredNonces, clock, ticked. by destruct (time_Now_Unix e).
Qed.

Lemma registry_wf_PruneExpiredNonces e nonces :
  registry_wf nonces → registry_wf (state.PruneExpiredNonces e nonces).2.
Proof.
  intros Hwf key n. rewrite PruneExpiredNonces_eq. cbn.
  rewrite pruneLoop_lookup by done.
  destruct (nonces !! key) as [n'|] eqn:Hk; [|done].
  destruct (_ >? _)%Z; [done|]. intros [= <-]. by apply (Hwf key).
Qed.

Lemma registry_wf_step (st : Ext * gmap string state.Nonce) op :
  registry_wf st.2 → registry_wf (registry_step st op).2.
Proof.
  destruct st as [e nonces]. cbn. intros Hwf. destruct op as [address|address n|].
  - pose proof (registry_wf_GenerateOrUpdateNonce address e nonces Hwf) as H.
    cbn. by destruct (state.GenerateOrUpdateNonce address e nonces) as [[? ?] ?].
  - done.
  - by apply registry_wf_PruneExpiredNonces.
Qed.

End RegistryOperations.

Section RegistryClaims.
Context {Ext : Type} `{!Runtime Ext}.
Implicit Types (nonces : gmap string state.Nonce) (e : Ext) (n : state.Nonce).

Lemma age_same t n : state.Timestamp n = t → age t n = 0%Z.
Proof. intros <-. unfold age, int64_sub, int64_wrap. by rewrite Z.sub_diag. Qed.

(** C7.  [ValidateNonce address candidate] answers [true] exactly when a
    nonce is stored for [address], its value and its hash are those of the
    candidate, and its age at the moment of the check is at most the
    lifetime of 3600 seconds.  In particular: the nonce just returned by
    [GenerateOrUpdateNonce address] validates for [address] when checked
    before its lifetime has run out, and so when no time has passed at
    all; a candidate does not validate for an address that has no entry,
    nor, in a well-formed registry, for an address other than the one it
    was issued to (the two hash inputs not colliding); and no candidate
    validates for an address whose stored nonce is older than the
    lifetime. *)
Theorem ValidateNonce_characterised address candidate e nonces :
  ((state.ValidateNonce address candidate e nonces).1 = true ↔
     ∃ stored, nonces !! address = Some stored
       ∧ state.Value candidate = state.Value stored
       ∧ state.Hash candidate = state.Hash stored
       ∧ (age (clock e) stored ≤ 3600)%Z)
  ∧ (∀ e0 nonces0,
       state.GenerateOrUpdateNonce address e0 nonces0 = (Some candidate, e, nonces) →
       (age (clock e) candidate ≤ 3600)%Z →
       (state.ValidateNonce address candidate e nonces).1 = true)
  ∧ (∀ e0 nonces0 t,
       (∀ x : Ext, clock x = t) →
       state.GenerateOrUpdateNonce address e0 nonces0 = (Some candidate, e, nonces) →
       (state.ValidateNonce address candidate e nonces).1 = true)
  ∧ (nonces !! address = None →
       (state.ValidateNonce address candidate e nonces).1 = false)
  ∧ (∀ owner e0 nonces0 e1,
       owner ≠ address →
       registry_wf nonces0 →
       state.GenerateOrUpdateNonce owner e0 nonces0 = (Some candidate, e1, nonces) →
       state.generateNonceHash address (state.Value candidate)
         ≠ state.generateNonceHash owner (state.Value candidate) →
       (state.ValidateNonce address candidate e nonces).1 = false)
  ∧ (∀ stored,
       nonces !! address = Some stored →
       (age (clock e) stored > 3600)%Z →
       (state.ValidateNonce address candidate e nonces).1 = false).
Proof.
  assert (Hissued : ∀ e0 nonces0,
    state.GenerateOrUpdateNonce address e0 nonces0 = (Some candidate, e, nonces) →
    (age (clock e) candidate ≤ 3600)%Z →
    (state.ValidateNonce address candidate e nonces).1 = true).
  { intros e0 nonces0 Hgen Hage. apply ValidateNonce_true.
    exists candidate. by rewrite (GenerateOrUpdateNonce_stored _ _ _ _ _ _ Hgen). }
  split; [apply ValidateNonce_true|].
  split; [exact Hissued|].
  split.
  { intros e0 nonces0 t Hfrozen Hgen. apply (Hissued e0 nonces0 Hgen).
    rewrite Hfrozen. revert Hgen. rewrite GenerateOrUpdateNonce_eq.
    destruct (nonces0 !! address) as [n|].
    - destruct (_ <=? _)%Z eqn:Hle.
      + intros [= <- <- <-]. rewrite Hfrozen in Hle. by apply Z.leb_le.
      + intros H. apply generateFresh_stored in H as (_ & _ & _ & Hts & _).
        rewrite Hfrozen in Hts. by rewrite (age_same t candidate Hts).
    - intros H. apply generateFresh_stored in H as (_ & _ & _ & Hts & _).
      rewrite Hfrozen in Hts. by rewrite (age_same t candidate Hts). }
  split.
  { intros Hnone. by rewrite ValidateNonce_eq, Hnone. }
  split.
  { intros owner e0 nonces0 e1 Hne Hwf Hgen Hcoll.
    apply not_true_is_false. intros Hval.
    apply ValidateNonce_true in Hval as (stored & Hst & Hv & Hh & _).
    pose proof (registry_wf_GenerateOrUpdateNonce owner e0 nonces0 Hwf) as Hwf'.
    rewrite Hgen in Hwf'. cbn in Hwf'.
    pose proof (GenerateOrUpdateNonce_stored _ _ _ _ _ _ Hgen) as Hown.
    destruct (Hwf' _ _ Hst) as [Ha1 Hh1]. destruct (Hwf' _ _ Hown) as [Ha2 Hh2].
    apply Hcoll. rewrite <- Ha1, <- Ha2, <- Hh2, Hv, <- Hh1. done. }
  intros stored Hst Hage. rewrite ValidateNonce_eq, Hst.
  apply andb_false_iff. right. apply Z.leb_gt. unfold state.nonceLifetime. lia.
Qed.

(** C8.  [GenerateOrUpdateNonce address]: when a nonce is stored for
    [address] and its age is at most 3600 seconds, that nonce is returned
    and the registry is left as it was.  Otherwise (no entry, or an entry
    older than that) the randomness source is asked for 32 bytes: when it
    delivers, the result is a nonce with that 32-byte value, the hash of
    address followed by value, and the clock reading taken next as its
    timestamp, and the registry is the old one with this nonce stored
    under [address], replacing any previous entry; when it fails, [nil]
    is returned and the registry is left as it was. *)
Theorem GenerateOrUpdateNonce_spec address e nonces :
  (∀ n, nonces !! address = Some n →
        (age (clock e) n ≤ 3600)%Z →
        state.GenerateOrUpdateNonce address e nonces = (Some n, ticked e, nonces))
  ∧ (∀ e0,
       (nonces !! address = None ∧ e0 = e)
       ∨ (∃ n, nonces !! address = Some n ∧ (age (clock e) n > 3600)%Z ∧ e0 = ticked e) →
       match rand_Read 32 e0 with
       | (Some written, e1) =>
           let value := fill 32 written in
           let fresh := {| state.Address := address;
                           state.Value := value;
                           state.Hash := state.generateNonceHash address value;
                           state.Timestamp := clock e1 |} in
           length value = 32
           ∧ state.GenerateOrUpdateNonce address e nonces
               = (Some fresh, ticked e1, <[address := fresh]> nonces)
           ∧ (<[address := fresh]> nonces) !! address = Some fresh
           ∧ (∀ other, other ≠ address →
                (<[address := fresh]> nonces) !! other = nonces !! other)
       | (None, e1) =>
           state.GenerateOrUpdateNonce address e nonces = (None, e1, nonces)
       end).
Proof.
  split.
  - intros n Hn Hage. rewrite GenerateOrUpdateNonce_eq, Hn.
    apply Z.leb_le in Hage. unfold state.nonceLifetime. by rewrite Hage.
  - intros e0 Hcase.
    assert (state.GenerateOrUpdateNonce address e nonces
            = state.generateFresh address e0 nonces) as ->.
    { rewrite GenerateOrUpdateNonce_eq.
      destruct Hcase as [[-> ->]|(n & -> & Hage & ->)]; [done|].
      unfold state.nonceLifetime.
      destruct (_ <=? _)%Z eqn:Hle; [|done]. apply Z.leb_le in Hle. lia. }
    rewrite generateFresh_eq. change state.nonceSize with 32.
    destruct (rand_Read 32 e0) as [[written|] e1]; [|done].
    cbv zeta. split; [apply fill_length|]. split; [done|].
    split; [apply lookup_insert_eq|]. intros other Hne. by apply lookup_insert_ne.
Qed.

(** C9.  [PruneExpiredNonces] removes exactly the entries whose age at
    the moment of the sweep exceeds 3600 seconds: an entry older than that
    is gone, an entry of at most that age is kept as it was, nothing is
    added, and the order in which the map is ranged over does not matter.
    Consequently, after the sweep no candidate validates for an address
    whose entry was aged, and the stored nonce of an address whose entry
    was fresh (and still is when checked) validates. *)
Theorem PruneExpiredNonces_spec e nonces :
  let now := clock e in
  let e' := (state.PruneExpiredNonces e nonces).1 in
  let pruned := (state.PruneExpiredNonces e nonces).2 in
  (∀ key, pruned !! key =
     match nonces !! key with
     | Some n => if (age now n >? 3600)%Z then None else Some n
     | None => None
     end)
  ∧ (∀ key n, nonces !! key = Some n → (age now n > 3600)%Z → pruned !! key = None)
  ∧ (∀ key n, nonces !! key = Some n → (age now n ≤ 3600)%Z → pruned !! key = Some n)
  ∧ (∀ key, nonces !! key = None → pruned !! key = None)
  ∧ (∀ visit, visit ≡ₚ map_to_list nonces → state.pruneLoop now visit nonces = pruned)
  ∧ (∀ key n candidate,
       nonces !! key = Some n → (age now n > 3600)%Z →
       (state.ValidateNonce key candidate e' pruned).1 = false)
  ∧ (∀ key n,
       nonces !! key = Some n → (age now n ≤ 3600)%Z →
       (age (clock e') n ≤ 3600)%Z →
       (state.ValidateNonce key n e' pruned).1 = true).
Proof.
  cbv zeta. rewrite PruneExpiredNonces_eq. cbn [fst snd].
  assert (Hlook : ∀ key,
    state.pruneLoop (clock e) (map_to_list nonces) nonces !! key =
      match nonces !! key with
      | Some n => if (age (clock e) n >? 3600)%Z then None else Some n
      | None => None
      end) by (intros key; by apply pruneLoop_lookup).
  assert (Hgone : ∀ key n, nonces !! key = Some n → (age (clock e) n > 3600)%Z →
    state.pruneLoop (clock e) (map_to_list nonces) nonces !! key = None).
  { intros key n Hn Hage. rewrite Hlook, Hn.
    destruct (_ >? _)%Z eqn:Hgt; [done|]. rewrite Z.gtb_ltb in Hgt. apply Z.ltb_ge in Hgt. lia. }
  assert (Hkept : ∀ key n, nonces !! key = Some n → (age (clock e) n ≤ 3600)%Z →
    state.pruneLoop (clock e) (map_to_list nonces) nonces !! key = Some n).
  { intros key n Hn Hage. rewrite Hlook, Hn.
    destruct (_ >? _)%Z eqn:Hgt; [|done]. rewrite Z.gtb_ltb in Hgt. apply Z.ltb_lt in Hgt. lia. }
  repeat split; try done.
  - intros key Hn. by rewrite Hlook, Hn.
  - intros visit Hperm. apply map_eq. intros key.
    rewrite Hlook. by apply pruneLoop_lookup.
  - intros key n candidate Hn Hage.
    rewrite ValidateNonce_eq, (Hgone key n) by done. done.
  - intros key n Hn Hage Hage'. apply ValidateNonce_true.
    exists n. by rewrite (Hkept key n).
Qed.

(** C10.  Well-formedness of the registry (every stored nonce has its
    [Address] equal to the key it is stored under and its [Hash] equal to
    the hash of [Address] followed by [Value]) holds of the empty
    registry and is preserved by [GenerateOrUpdateNonce], [ValidateNonce]
    and [PruneExpiredNonces]; hence it holds after any sequence of these
    operations started on the empty registry. *)
Theorem registry_wf_invariant :
  registry_wf ∅
  ∧ (∀ address e nonces,
       registry_wf nonces →
       registry_wf (state.GenerateOrUpdateNonce address e nonces).2)
  ∧ (∀ e nonces,
       registry_wf nonces → registry_wf (state.PruneExpiredNonces e nonces).2)
  ∧ (∀ (st : Ext * gmap string state.Nonce) op,
       registry_wf st.2 → registry_wf (registry_step st op).2)
  ∧ (∀ ops e, registry_wf (foldl registry_step (e, ∅) ops).2).
Proof.
  assert (Hempty : registry_wf ∅) by apply map_Forall_empty.
  split; [done|].
  split; [apply registry_wf_GenerateOrUpdateNonce|].
  split; [apply registry_wf_PruneExpiredNonces|].
  split; [apply registry_wf_step|].
  intros ops e.
  assert (∀ st : Ext * gmap string state.Nonce,
            registry_wf st.2 → registry_wf (foldl registry_step st ops).2) as Hrun.
  { induction ops as [|op ops IH]; intros st Hwf; [done|].
    cbn [foldl]. apply IH. by apply registry_wf_step. }
  by apply Hrun.
Qed.

End RegistryClaims.

(** C7 on a registry where Alice's nonce is fresh and Bob's is stale. *)
Lemma ValidateNonce_characterised_witness :
  (state.ValidateNonce "alice" (Demo.someNonce "alice" 1699999000)
     true DemoRegistry.registry).1 = true
  ∧ (state.ValidateNonce "carol" DemoRegistry.issued
       true (<["carol" := DemoRegistry.issued]> DemoRegistry.registry)).1 = true
  ∧ (state.ValidateNonce "dave" DemoRegistry.issued true DemoRegistry.registry).1 = false
  ∧ (state.ValidateNonce "alice" DemoRegistry.issued
       true (<["carol" := DemoRegistry.issued]> DemoRegistry.registry)).1 = false
  ∧ (state.ValidateNonce "bob" (Demo.someNonce "bob" 1699990000)
       true DemoRegistry.registry).1 = false.
Proof.
  split; [|split; [|split; [|split]]].
  - apply (ValidateNonce_characterised (Ext := bool)).
    exists (Demo.someNonce "alice" 1699999000). by vm_compute.
  - destruct (ValidateNonce_characterised (Ext := bool) "carol" DemoRegistry.issued
                true (<["carol" := DemoRegistry.issued]> DemoRegistry.registry))
      as (_ & _ & Hfrozen & _).
    apply (Hfrozen true DemoRegistry.registry 1700000000%Z).
    + intros x. reflexivity.
    + vm_compute. reflexivity.
  - apply (ValidateNonce_characterised (Ext := bool)). vm_compute. reflexivity.
  - destruct (ValidateNonce_characterised (Ext := bool) "alice" DemoRegistry.issued
                true (<["carol" := DemoRegistry.issued]> DemoRegistry.registry))
      as (_ & _ & _ & _ & Hother & _).
    apply (Hother "carol" true DemoRegistry.registry true).
    + discriminate.
    + intros key n Hn. unfold DemoRegistry.registry in Hn.
      apply lookup_insert_Some in Hn as [[<- <-]|[_ Hn]]; [done|].
      apply lookup_singleton_Some in Hn as [<- <-]. done.
    + vm_compute. reflexivity.
    + vm_compute. discriminate.
  - destruct (ValidateNonce_characterised (Ext := bool) "bob"
                (Demo.someNonce "bob" 1699990000) true DemoRegistry.registry)
      as (_ & _ & _ & _ & _ & Haged).
    apply (Haged (Demo.someNonce "bob" 1699990000)).
    + vm_compute. reflexivity.
    + vm_compute. reflexivity.
Defined.

(** C8 on the same registry: an active entry, a missing one, an expired
    one, and a missing one while the randomness source is down. *)
Lemma GenerateOrUpdateNonce_spec_witness :
  state.GenerateOrUpdateNonce "alice" true DemoRegistry.registry
    = (Some (Demo.someNonce "alice" 1699999000), true, DemoRegistry.registry)
  ∧ state.GenerateOrUpdateNonce "carol" true DemoRegistry.registry
    = (Some DemoRegistry.issued, true,
       <["carol" := DemoRegistry.issued]> DemoRegistry.registry)
  ∧ state.GenerateOrUpdateNonce "bob" true DemoRegistry.registry
    = (Some (Demo.someNonce "bob" 1700000000), true,
       <["bob" := Demo.someNonce "bob" 1700000000]> DemoRegistry.registry)
  ∧ state.GenerateOrUpdateNonce "carol" false DemoRegistry.registry
    = (None, false, DemoRegistry.registry).
Proof.
  split; [|split; [|split]].
  - destruct (GenerateOrUpdateNonce_spec (Ext := bool) "alice" true DemoRegistry.registry)
      as [Hactive _].
    apply Hactive; vm_compute; [reflexivity|discriminate].
  - destruct (GenerateOrUpdateNonce_spec (Ext := bool) "carol" true DemoRegistry.registry)
      as [_ Hfresh].
    destruct (Hfresh true) as (_ & Heq & _); [|exact Heq].
    left. split; vm_compute; reflexivity.
  - destruct (GenerateOrUpdateNonce_spec (Ext := bool) "bob" true DemoRegistry.registry)
      as [_ Hfresh].
    destruct (Hfresh true) as (_ & Heq & _); [|exact Heq].
    right. exists (Demo.someNonce "bob" 1699990000).
    split; [|split]; vm_compute; reflexivity.
  - destruct (GenerateOrUpdateNonce_spec (Ext := bool) "carol" false DemoRegistry.registry)
      as [_ Hfresh].
    apply (Hfresh false). left. split; vm_compute; reflexivity.
Defined.

(** C9 on the same registry: Bob's entry goes, Alice's stays. *)
Lemma PruneExpiredNonces_spec_witness :
  (state.PruneExpiredNonces true DemoRegistry.registry).2 !! "bob" = None
  ∧ (state.PruneExpiredNonces true DemoRegistry.registry).2 !! "alice"
    = Some (Demo.someNonce "alice" 1699999000)
  ∧ (state.ValidateNonce "bob" (Demo.someNonce "bob" 1699990000) true
       (state.PruneExpiredNonces true DemoRegistry.registry).2).1 = false
  ∧ (state.ValidateNonce "alice" (Demo.someNonce "alice" 1699999000) true
       (state.PruneExpiredNonces true DemoRegistry.registry).2).1 = true.
Proof.
  destruct (PruneExpiredNonces_spec (Ext := bool) true DemoRegistry.registry)
    as (_ & Hgone & Hkept & _ & _ & Haged & Hfresh).
  split; [|split; [|split]].
  - apply (Hgone "bob" (Demo.someNonce "bob" 1699990000)); vm_compute; reflexivity.
  - apply (Hkept "alice"); vm_compute; [reflexivity|discriminate].
  - apply (Haged "bob" (Demo.someNonce "bob" 1699990000)); vm_compute; reflexivity.
  - apply (Hfresh "alice"); vm_compute; first [reflexivity|discriminate].
Defined.

(** C10 along a run of four operations from the empty registry. *)
Lemma registry_wf_invariant_witness :
  registry_wf
    (foldl registry_step (true, ∅)
       [OpGenerateOrUpdateNonce "alice";
        OpValidateNonce "alice" (Demo.someNonce "alice" 1700000000);
        OpPruneExpiredNonces;
        OpGenerateOrUpdateNonce "bob"]).2
  ∧ registry_wf (state.GenerateOrUpdateNonce "carol" true ∅).2.
Proof.
  destruct (registry_wf_invariant (Ext := bool)) as (Hempty & Hgen & _ & _ & Hrun).
  split.
  - apply Hrun.
  - apply Hgen, Hempty.
Defined.

(** ** Properties of the binary codec *)

(** Closes [zeroFree s] for a literal [s] by running through its bytes. *)
Ltac solve_zeroFree :=
  unfold zeroFree; vm_compute;
  let H := fresh "H" in
  intros H;
  repeat (apply elem_of_cons in H as [H|H]; [discriminate H|]);
  by apply elem_of_nil in H.

Section Codec.


Lemma bytes_Split_zeroFree (a : list byte) :
  x00 ∉ a → bytes_Split a x00 = [a].
Proof.
  induction a as [|b a IH]; intros Hfree; [done|].
  apply not_elem_of_cons in Hfree as [Hb Ha].
  cbn. destruct (decide (b = x00)) as [->|_]; [done|].
  by rewrite (IH Ha).
Qed.

Lemma bytes_Split_app (a rest : list byte) :
  x00 ∉ a → bytes_Split (a ++ x00 :: rest) x00 = a :: bytes_Split rest x00.
Proof.
  induction a as [|b a IH]; intros Hfree.
  - cbn. by destruct (decide (x00 = x00)).
  - apply not_elem_of_cons in Hfree as [Hb Ha].
    cbn. destruct (decide (b = x00)) as [->|_]; [done|].
    by rewrite (IH Ha).
Qed.

Lemma bytes_Split_three (a b c : list byte) :
  x00 ∉ a → x00 ∉ b → x00 ∉ c →
  bytes_Split (a ++ [x00] ++ b ++ [x00] ++ c) x00 = [a; b; c].
Proof.
  intros Ha Hb Hc. cbn [app].
  rewrite (bytes_Split_app a) by done.
  rewrite (bytes_Split_app b) by done.
  by rewrite (bytes_Split_zeroFree c).
Qed.

(** C5, as amended.  The binary format carries three of the five fields.
    For every [x] whose [PublicKey], [LocationCommitment] and [ZKPProof]
    contain no zero byte, [MarshalBinary] succeeds and [UnmarshalBinary]
    on its output succeeds and sets these three fields of the receiver to
    those of [x]; [NonceValue] and [NonceHash] are not encoded, and the
    receiver keeps the ones it had. *)
Theorem UnmarshalBinary_MarshalBinary (x receiver : account.AddressInfo) :
  zeroFree (account.PublicKey x) →
  zeroFree (account.LocationCommitment x) →
  zeroFree (account.ZKPProof x) →
  ∃ data,
    account.MarshalBinary x = Ok data
    ∧ account.UnmarshalBinary receiver data =
        ({| account.PublicKey := account.PublicKey x;
            account.LocationCommitment := account.LocationCommitment x;
            account.ZKPProof := account.ZKPProof x;
            account.NonceValue := account.NonceValue receiver;
            account.NonceHash := account.NonceHash receiver |}, None).
Proof.
  intros Hpk Hlc Hzk. eexists. split; [reflexivity|].
  unfold account.UnmarshalBinary. cbn [app].
  rewrite <- !app_assoc.
  rewrite (bytes_Split_three _ _ _ Hpk Hlc Hzk).
  by rewrite !string_of_list_byte_of_string.
Qed.

End Codec.


(** C5, as amended, on a record decoded into an empty one. *)
Lemma UnmarshalBinary_MarshalBinary_witness :
  ∃ data,
    account.MarshalBinary DemoCodec.x = Ok data
    ∧ account.UnmarshalBinary DemoCodec.blank data =
        ({| account.PublicKey := "pk"; account.LocationCommitment := "lc";
            account.ZKPProof := "1f|2e"; account.NonceValue := "";
            account.NonceHash := "" |}, None).
Proof.
  apply (UnmarshalBinary_MarshalBinary DemoCodec.x DemoCodec.blank);
    solve_zeroFree.
Defined.

(** C5, as stated, fails: decoding the encoding of a record whose five
    fields are zero-free does not restore [NonceValue] and [NonceHash]. *)
Lemma UnmarshalBinary_MarshalBinary_drops_nonce :
  zeroFree (account.PublicKey DemoCodec.x)
  ∧ zeroFree (account.LocationCommitment DemoCodec.x)
  ∧ zeroFree (account.ZKPProof DemoCodec.x)
  ∧ zeroFree (account.NonceValue DemoCodec.x)
  ∧ zeroFree (account.NonceHash DemoCodec.x)
  ∧ account.MarshalBinary DemoCodec.x
    = Ok (list_byte_of_string "pk" ++ [x00] ++ list_byte_of_string "lc"
          ++ [x00] ++ list_byte_of_string "1f|2e")
  ∧ (account.UnmarshalBinary DemoCodec.blank
       (list_byte_of_string "pk" ++ [x00] ++ list_byte_of_string "lc"
        ++ [x00] ++ list_byte_of_string "1f|2e")).2 = None
  ∧ (account.UnmarshalBinary DemoCodec.blank
       (list_byte_of_string "pk" ++ [x00] ++ list_byte_of_string "lc"
        ++ [x00] ++ list_byte_of_string "1f|2e")).1 ≠ DemoCodec.x.
Proof.
  repeat split; try solve_zeroFree.
  vm_compute. discriminate.
Qed.

(** ** Properties of address generation *)


Section CacheFacts.
Context {V : Type}.
Implicit Types (c : list (string * V)).

Lemma lru_Get_hit key c v :
  lru.find key c = Some v → lru.Get key c = (Some v, (key, v) :: lru.remove key c).
Proof. unfold lru.Get. by intros ->. Qed.

Lemma lru_Get_miss key c :
  lru.find key c = None → lru.Get key c = (None, c).
Proof. unfold lru.Get. by intros ->. Qed.

Lemma lru_Get_inv key c o c' :
  lru.Get key c = (o, c') →
  lru.find key c = o ∧ c' = match o with Some v => (key, v) :: lru.remove key c | None => c end.
Proof. unfold lru.Get. destruct (lru.find key c); by intros [= <- <-]. Qed.

Lemma lru_find_head key v c : lru.find key ((key, v) :: c) = Some v.
Proof. cbn. by destruct (decide (key = key)). Qed.

Lemma lru_find_Add size key v c :
  0 < size → lru.find key (lru.Add size key v c) = Some v.
Proof.
  intros Hsize. unfold lru.Add.
  destruct (lru.find key c); [apply lru_find_head|].
  cbv zeta. destruct (size <? _)%nat eqn:Hfull; [|apply lru_find_head].
  destruct c as [|kv c].
  - apply Nat.ltb_lt in Hfull. cbn in Hfull. lia.
  - change (removelast ((key, v) :: kv :: c)) with ((key, v) :: removelast (kv :: c)).
    apply lru_find_head.
Qed.

End CacheFacts.

Section AccountFacts.
Context {Ext Point Scalar : Type}.
Context `{!Runtime Ext, !GoLib, !Oqs Ext, !Suite Ext Point Scalar, !Zk13 Ext}.
Implicit Types (w : account.World (Ext := Ext)) (ai : account.AddressInfo).


Lemma GenerateAddress_eq lat lon bits w :
  account.GenerateAddress lat lon bits w =
    if (bits <=? 0)%Z then (Return (Err BitsNotPositive), w)
    else if (lat <? -90)%float || (90 <? lat)%float
    then (Return (Err (InvalidLatitude lat)), w)
    else if (lon <? -180)%float || (180 <? lon)%float
    then (Return (Err (InvalidLongitude lon)), w)
    else
      match lru.find (account.coordKey lat lon) (account.addressCache w) with
      | Some cached =>
          (Return (Ok cached),
           {| account.outside := account.outside w;
              account.nonces := account.nonces w;
              account.addressCache :=
                (account.coordKey lat lon, cached)
                  :: lru.remove (account.coordKey lat lon) (account.addressCache w) |})
      | None => issueFresh lat lon bits w
      end.
Proof.
  unfold account.GenerateAddress, issueFresh, lru.Get.
  destruct (bits <=? 0)%Z; [done|].
  destruct (_ || _); [done|]. destruct (_ || _); [done|].
  by destruct (lru.find _ _).
Qed.

Lemma passesValidation_guards lat lon bits :
  passesValidation lat lon bits = true →
  (bits <=? 0)%Z = false
  ∧ (lat <? -90)%float || (90 <? lat)%float = false
  ∧ (lon <? -180)%float || (180 <? lon)%float = false.
Proof.
  unfold passesValidation. intros Hvalid.
  apply andb_true_iff in Hvalid as [Hvalid Hlon].
  apply andb_true_iff in Hvalid as [Hbits Hlat].
  by apply negb_true_iff in Hbits, Hlat, Hlon.
Qed.

Lemma issueFresh_Ok lat lon bits w ai w' :
  issueFresh lat lon bits w = (Return (Ok ai), w') →
  account.addressCache w' =
    lru.Add account.addressCacheSize (account.coordKey lat lon) ai (account.addressCache w).
Proof.
  unfold issueFresh.
  destruct (account.keyTask _) as [[publicKey err0] e1].
  destruct (account.commitTask _ _ _) as [[locationCommitment err1] e2].
  destruct (account.proofTask _ _ _ _) as [zkpProofStr e3].
  destruct (account.nonceTask _ _ _) as [[nonce e4] nonces'].
  destruct (account.assemble _ _ _ _ _) as [[ai'|err]|]; [|done..].
  by intros [= <- <-].
Qed.

Lemma GenerateAddress_Ok_cached lat lon bits w ai w' :
  account.GenerateAddress lat lon bits w = (Return (Ok ai), w') →
  passesValidation lat lon bits = true
  ∧ lru.find (account.coordKey lat lon) (account.addressCache w') = Some ai.
Proof.
  rewrite GenerateAddress_eq. unfold passesValidation.
  destruct (bits <=? 0)%Z; [done|].
  destruct (_ || _); [done|]. destruct (_ || _); [done|].
  destruct (lru.find _ (account.addressCache w)) as [cached|] eqn:Hfind.
  - intros [= <- <-]. split; [done|]. cbn. apply lru_find_head.
  - intros Hfresh. split; [done|].
    rewrite (issueFresh_Ok _ _ _ _ _ _ Hfresh).
    apply lru_find_Add. unfold account.addressCacheSize. lia.
Qed.

End AccountFacts.

Section AccountClaims.
Context {Ext Point Scalar : Type}.
Context `{!Runtime Ext, !GoLib, !Oqs Ext, !Suite Ext Point Scalar, !Zk13 Ext}.
Implicit Types (w : account.World (Ext := Ext)) (ai : account.AddressInfo).

(** C2, as amended.  [GenerateAddress] checks [bits] first.  Whenever
    [bits <= 0] it fails with the parameter-validation error, whatever the
    coordinates; when [bits > 0] it fails with a coordinate-validation
    error whenever [lat < -90], [lat > 90], [lon < -180] or [lon > 180].
    In either case no [AddressInfo] is returned and nothing (cache,
    registry, outside world) is touched. *)
Theorem GenerateAddress_validation lat lon bits w :
  ((bits ≤ 0)%Z →
     account.GenerateAddress lat lon bits w = (Return (Err BitsNotPositive), w)
     ∧ isParameterError BitsNotPositive = true)
  ∧ ((0 < bits)%Z →
     outside_interval (-90) 90 lat ∨ outside_interval (-180) 180 lon →
     ∃ err,
       account.GenerateAddress lat lon bits w = (Return (Err err), w)
       ∧ isCoordinateError err = true).
Proof.
  rewrite GenerateAddress_eq. split.
  - intros Hbits. apply Z.leb_le in Hbits. by rewrite Hbits.
  - intros Hbits Hout. apply Z.leb_gt in Hbits. rewrite Hbits.
    destruct ((lat <? -90)%float || (90 <? lat)%float) eqn:Hlat.
    { by exists (InvalidLatitude lat). }
    destruct ((lon <? -180)%float || (180 <? lon)%float) eqn:Hlon.
    { by exists (InvalidLongitude lon). }
    apply orb_false_elim in Hlat as [? ?]. apply orb_false_elim in Hlon as [? ?].
    unfold outside_interval in Hout.
    destruct Hout as [[?|?]|[?|?]]; congruence.
Qed.

(** C3.  After a call of [GenerateAddress lat lon] that returned an
    [AddressInfo], the next call with the same [lat] and [lon] (and any
    positive [bits], in particular the same) returns that same record,
    taken from the cache: the outside world is not consulted (no key, no
    commitment, no proof is derived, no randomness drawn, the clock not
    read), the nonce registry is left as it is, and the only change is
    that the cache entry becomes the most recently used. *)
Theorem GenerateAddress_idempotent_under_cache lat lon bits w ai w1 :
  account.GenerateAddress lat lon bits w = (Return (Ok ai), w1) →
  (∀ bits', (0 < bits')%Z →
     account.GenerateAddress lat lon bits' w1 =
       (Return (Ok ai),
        {| account.outside := account.outside w1;
           account.nonces := account.nonces w1;
           account.addressCache :=
             (account.coordKey lat lon, ai)
               :: lru.remove (account.coordKey lat lon) (account.addressCache w1) |}))
  ∧ (account.GenerateAddress lat lon bits w1).1 = Return (Ok ai)
  ∧ account.outside (account.GenerateAddress lat lon bits w1).2 = account.outside w1
  ∧ account.nonces (account.GenerateAddress lat lon bits w1).2 = account.nonces w1.
Proof.
  intros Hfirst.
  destruct (GenerateAddress_Ok_cached _ _ _ _ _ _ Hfirst) as [Hvalid Hfind].
  apply passesValidation_guards in Hvalid as (Hbits & Hlat & Hlon).
  assert (Hsecond : ∀ bits', (0 < bits')%Z →
     account.GenerateAddress lat lon bits' w1 =
       (Return (Ok ai),
        {| account.outside := account.outside w1;
           account.nonces := account.nonces w1;
           account.addressCache :=
             (account.coordKey lat lon, ai)
               :: lru.remove (account.coordKey lat lon) (account.addressCache w1) |})).
  { intros bits' Hpos. apply Z.leb_gt in Hpos.
    by rewrite GenerateAddress_eq, Hpos, Hlat, Hlon, Hfind. }
  split; [exact Hsecond|].
  apply Z.leb_gt in Hbits. by rewrite (Hsecond bits Hbits).
Qed.

End AccountClaims.


(** C2, as amended, on three of the rows of [TestEdgeCases]. *)
Lemma GenerateAddress_validation_witness :
  account.GenerateAddress 0 0 0 (Demo.emptyWorld true)
    = (Return (Err BitsNotPositive), Demo.emptyWorld true)
  ∧ (∃ err, account.GenerateAddress 91 0 256 (Demo.emptyWorld true)
             = (Return (Err err), Demo.emptyWorld true)
           ∧ isCoordinateError err = true)
  ∧ (∃ err, account.GenerateAddress 0 (-181) 256 (Demo.emptyWorld true)
             = (Return (Err err), Demo.emptyWorld true)
           ∧ isCoordinateError err = true).
Proof.
  split; [|split].
  - destruct (GenerateAddress_validation (Ext := bool) 0 0 0 (Demo.emptyWorld true))
      as [Hbits _].
    apply Hbits. lia.
  - destruct (GenerateAddress_validation (Ext := bool) 91 0 256 (Demo.emptyWorld true))
      as [_ Hcoord].
    apply Hcoord; [lia|]. left. right. reflexivity.
  - destruct (GenerateAddress_validation (Ext := bool) 0 (-181) 256 (Demo.emptyWorld true))
      as [_ Hcoord].
    apply Hcoord; [lia|]. right. left. reflexivity.
Defined.

(** C2, as stated, fails: with [lat = 91] and [bits = 0] the latitude is
    outside [[-90, 90]], yet the error is the parameter-validation one,
    not a coordinate-validation error. *)
Lemma GenerateAddress_bits_checked_first :
  outside_interval (-90) 90 91
  ∧ account.GenerateAddress 91 0 0 (Demo.emptyWorld true)
    = (Return (Err BitsNotPositive), Demo.emptyWorld true)
  ∧ isCoordinateError BitsNotPositive = false
  ∧ ¬ (∃ err, (account.GenerateAddress 91 0 0 (Demo.emptyWorld true)).1
                = Return (Err err)
              ∧ isCoordinateError err = true).
Proof.
  split; [right; reflexivity|].
  split; [reflexivity|]. split; [reflexivity|].
  intros (err & Herr & Hcoord). vm_compute in Herr.
  injection Herr as <-. discriminate Hcoord.
Qed.

(** C3 on the two calls of [TestGenerateAddress]. *)
Lemma GenerateAddress_idempotent_under_cache_witness :
  account.GenerateAddress 40.7128 (-74.0060) 256 (Demo.emptyWorld true)
    = (Return (Ok DemoAddress.newYork), DemoAddress.afterNewYork)
  ∧ (account.GenerateAddress 40.7128 (-74.0060) 256 DemoAddress.afterNewYork).1
    = Return (Ok DemoAddress.newYork)
  ∧ account.nonces
      (account.GenerateAddress 40.7128 (-74.0060) 256 DemoAddress.afterNewYork).2
    = account.nonces DemoAddress.afterNewYork.
Proof.
  assert (account.GenerateAddress 40.7128 (-74.0060) 256 (Demo.emptyWorld true)
          = (Return (Ok DemoAddress.newYork), DemoAddress.afterNewYork)) as Hfirst
    by (vm_compute; reflexivity).
  split; [exact Hfirst|].
  destruct (GenerateAddress_idempotent_under_cache (Ext := bool)
              _ _ _ _ _ _ Hfirst) as (_ & Hsame & _ & Hnonces).
  split; [exact Hsame | exact Hnonces].
Defined.

Section ProofInput.

Lemma itoa_head z :
  ∃ c s, itoa z = String c s ∧ c ≠ "["%char ∧ c ≠ "n"%char.
Proof.
  unfold itoa. destruct (Z.to_int z) as [[]|[]]; cbn; do 2 eexists; done.
Qed.

Lemma fixed6_head neg m e :
  ∃ c s, fixed6 neg m e = String c s ∧ c ≠ "["%char ∧ c ≠ "n"%char.
Proof.
  unfold fixed6. cbv zeta. destruct neg.
  - cbn. do 2 eexists. done.
  - destruct (itoa_head ((if (0 <=? e)%Z then m * 2 ^ e * 10 ^ 6
                          else roundHalfEven (m * 10 ^ 6) (2 ^ (- e))) `div` 10 ^ 6))
      as (c & s & -> & Hc). cbn. do 2 eexists. done.
Qed.

Lemma fmt_f_head x :
  ∃ c s, fmt_f x = String c s ∧ c ≠ "["%char ∧ c ≠ "n"%char.
Proof.
  unfold fmt_f. destruct (Prim2SF x) as [s|[]| |s m e];
    try apply fixed6_head; do 2 eexists; done.
Qed.

Lemma coordKey_head lat lon :
  ∃ c s, account.coordKey lat lon = String c s ∧ c ≠ "["%char ∧ c ≠ "n"%char.
Proof.
  unfold account.coordKey. destruct (fmt_f_head lat) as (c & s & -> & Hc).
  cbn. do 2 eexists. done.
Qed.

(** The cache key is never a rendering of a quantized location, neither
    the [%v] one nor the JSON one. *)
Lemma coordKey_not_quantized lat lon (q : list Z) :
  account.coordKey lat lon ≠ fmt_v q
  ∧ list_byte_of_string (account.coordKey lat lon) ≠ json_Marshal q.
Proof.
  destruct (coordKey_head lat lon) as (c & s & Hkey & Hc1 & Hc2).
  rewrite Hkey. split.
  - unfold fmt_v. intros Heq. injection Heq as Hc _. by symmetry in Hc.
  - unfold json_Marshal. intros Heq.
    apply (f_equal string_of_list_byte) in Heq.
    rewrite !string_of_list_byte_of_string in Heq.
    destruct q; injection Heq as Hc _; by symmetry in Hc.
Qed.

End ProofInput.

Section IssuanceClaims.
Context {Ext Point Scalar : Type}.
Context `{!Runtime Ext, !GoLib, !Oqs Ext, !Suite Ext Point Scalar, !Zk13 Ext}.
Implicit Types (w : account.World (Ext := Ext)) (ai : account.AddressInfo).

Lemma firstError_two (err0 err1 : option error) :
  account.firstError [err0; err1; None; None] = account.firstError [err0; err1].
Proof. by destruct err0, err1. Qed.

Lemma issueFresh_proof lat lon bits w ai w' :
  issueFresh lat lon bits w = (Return (Ok ai), w') →
  account.ZKPProof ai =
    (account.proofTask lat lon bits
       (account.commitTask lat lon (account.keyTask (account.outside w)).2).2).1.
Proof.
  unfold issueFresh.
  destruct (account.keyTask _) as [[publicKey err0] e1]. cbn [snd].
  destruct (account.commitTask _ _ _) as [[locationCommitment err1] e2]. cbn [snd].
  destruct (account.proofTask _ _ _ _) as [zkpProofStr e3]. cbn [fst].
  destruct (account.nonceTask _ _ _) as [[nonce e4] nonces'].
  unfold account.assemble.
  destruct (account.firstError _); [done|].
  destruct publicKey, locationCommitment, nonce; try done.
  by intros [= <- <-].
Qed.

(** C1 (the code departs from it).  On a fresh issuance the proof string
    of the returned record is the rendering of what the prover answers
    for the hash of the coordinate key [Sprintf("%f,%f", lat, lon)]: the
    raw coordinates printed with six decimals.  That string is never a
    serialisation of a quantized location.  The method [GenerateZKP] of
    [NetworkAddress], in contrast, hands the prover the hash of the
    quantized location. *)
Theorem GenerateAddress_proof_over_coordinate_key lat lon bits w ai w' :
  account.GenerateAddress lat lon bits w = (Return (Ok ai), w') →
  lru.find (account.coordKey lat lon) (account.addressCache w) = None →
  let hash := blake3_Sum (list_byte_of_string (account.coordKey lat lon)) in
  let e2 := (account.commitTask lat lon (account.keyTask (account.outside w)).2).2 in
  let proof := (zk13_Prover (string_of_list_byte hash) bits (big_SetBytes hash) e2).1 in
  account.ZKPProof ai = big_Text16 proof.1 +:+ "|" +:+ big_Text16 proof.2
  ∧ (∀ q : list Z,
       account.coordKey lat lon ≠ fmt_v q
       ∧ list_byte_of_string (account.coordKey lat lon) ≠ json_Marshal q)
  ∧ (∀ (na : account.NetworkAddress (Point := Point) (Scalar := Scalar)) e,
       account.AnonGeoLocation na ≠ [] →
       let hash' := blake3_Sum (list_byte_of_string (fmt_v (account.AnonGeoLocation na))) in
       let proof' :=
         (zk13_Prover (string_of_list_byte hash') bits (big_SetBytes hash') e).1 in
       (account.GenerateZKP na bits e).1.2 = None
       ∧ account.r (account.GenerateZKP na bits e).1.1 = Some proof'.1
       ∧ account.P (account.GenerateZKP na bits e).1.1 = Some proof'.2).
Proof.
  intros Hissue Hmiss. cbv zeta.
  rewrite GenerateAddress_eq in Hissue.
  destruct (bits <=? 0)%Z; [done|].
  destruct (_ || _); [done|]. destruct (_ || _); [done|].
  rewrite Hmiss in Hissue.
  split; [|split].
  - rewrite (issueFresh_proof _ _ _ _ _ _ Hissue).
    unfold account.proofTask.
    by destruct (zk13_Prover _ _ _ _) as [[R P'] e3].
  - intros q. apply coordKey_not_quantized.
  - intros na e Hq. unfold account.GenerateZKP.
    destruct (account.AnonGeoLocation na) as [|z q]; [done|].
    by destruct (zk13_Prover _ _ _ _) as [[R P'] e1].
Qed.

(** C6 (the code departs from it).  Past the guards and on a cache miss,
    the nonce goroutine gets [nil] from [GenerateOrUpdateNonce] exactly
    when no unexpired nonce is stored for the key and the randomness
    source fails.  [GenerateAddress] then reports no error for it: it
    returns the error of the key or of the commitment goroutine if there
    is one, and otherwise panics on [nonce.Value].  In no case is the
    failure of the nonce issuance returned as an error. *)
Theorem GenerateAddress_nonce_failure_not_reported lat lon bits w :
  passesValidation lat lon bits = true →
  lru.find (account.coordKey lat lon) (account.addressCache w) = None →
  let key := account.coordKey lat lon in
  let keyed := account.keyTask (account.outside w) in
  let committed := account.commitTask lat lon keyed.2 in
  let e3 := (account.proofTask lat lon bits committed.2).2 in
  ((account.nonceTask key e3 (account.nonces w)).1.1 = None ↔
     match account.nonces w !! key with
     | Some n =>
         (age (clock e3) n > 3600)%Z ∧ (rand_Read 32 (ticked e3)).1 = None
     | None => (rand_Read 32 e3).1 = None
     end)
  ∧ ((account.nonceTask key e3 (account.nonces w)).1.1 = None →
     (account.GenerateAddress lat lon bits w).1 =
       match account.firstError [keyed.1.2; committed.1.2] with
       | Some err => Return (Err err)
       | None => Panic
       end).
Proof.
  intros Hvalid Hmiss. cbv zeta.
  split; [apply GenerateOrUpdateNonce_nil|].
  apply passesValidation_guards in Hvalid as (Hbits & Hlat & Hlon).
  rewrite GenerateAddress_eq, Hbits, Hlat, Hlon, Hmiss.
  unfold issueFresh.
  destruct (account.keyTask _) as [[publicKey err0] e1]. cbn [fst snd].
  destruct (account.commitTask _ _ _) as [[locationCommitment err1] e2]. cbn [fst snd].
  destruct (account.proofTask _ _ _ _) as [zkpProofStr e3]. cbn [fst snd].
  destruct (account.nonceTask _ _ _) as [[nonce e4] nonces']. cbn [fst snd].
  intros ->. unfold account.assemble. rewrite firstError_two.
  destruct (account.firstError _); [done|].
  by destruct publicKey, locationCommitment.
Qed.

End IssuanceClaims.

(** C1 at New York: the prover is handed the hash of the printed
    coordinates, which is not the rendering of the grid cell. *)
Lemma GenerateAddress_proof_over_coordinate_key_witness :
  account.coordKey 40.7128 (-74.0060) = "40.712800,-74.006000"
  ∧ account.ZKPProof DemoAddress.newYork
    = big_Text16 (big_SetBytes (list_byte_of_string "40.712800,-74.006000"))
      +:+ "|" +:+ big_Text16 256
  ∧ "40.712800,-74.006000" ≠ fmt_v [45318; -62453]%Z.
Proof.
  assert (account.GenerateAddress 40.7128 (-74.0060) 256 (Demo.emptyWorld true)
          = (Return (Ok DemoAddress.newYork), DemoAddress.afterNewYork)) as Hfirst
    by (vm_compute; reflexivity).
  destruct (GenerateAddress_proof_over_coordinate_key (Ext := bool)
              _ _ _ _ _ _ Hfirst eq_refl) as (Hproof & Hkey & _).
  split; [reflexivity|]. split; [exact Hproof|].
  apply (Hkey [45318; -62453]%Z).
Defined.

(** C6 at New York with the randomness source down: a panic. *)
Lemma GenerateAddress_nonce_failure_not_reported_witness :
  (account.GenerateAddress 40.7128 (-74.0060) 256 (Demo.emptyWorld false)).1 = Panic.
Proof.
  destruct (GenerateAddress_nonce_failure_not_reported (Ext := bool)
              40.7128 (-74.0060) 256 (Demo.emptyWorld false) eq_refl eq_refl)
    as [Hnil Hpanic].
  etransitivity.
  - apply Hpanic, Hnil. reflexivity.
  - vm_compute. reflexivity.
Defined.

(** ** Properties of batch issuance *)

Section BatchFacts.
Context {Ext Point Scalar : Type}.
Context `{!Runtime Ext, !GoLib, !Oqs Ext, !Suite Ext Point Scalar, !Zk13 Ext}.
Implicit Types (w : account.World (Ext := Ext)) (ai : account.AddressInfo).
Implicit Types (A : list (option account.AddressInfo)) (E : list (option error)).


Lemma GenerateAddressesBatch_eq sched coords bits w :
  account.GenerateAddressesBatch sched coords bits w =
    match membersRun coords bits sched w with
    | (Panic, w') => (Panic, w')
    | (Return (addresses, errs), w') =>
        match account.firstError errs with
        | Some err => (Return (Err err), w')
        | None => (Return (Ok addresses), w')
        end
    end.
Proof. reflexivity. Qed.

Lemma membersRun_snoc coords bits sched j w :
  membersRun coords bits (sched ++ [j]) w =
    account.runMember coords bits (membersRun coords bits sched w) j.
Proof. unfold membersRun. by rewrite foldl_app. Qed.

Lemma runMember_Return coords bits st j A E w' :
  j < length coords →
  account.runMember coords bits st j = (Return (A, E), w') →
  ∃ A0 E0 w0 lat lon r,
    st = (Return (A0, E0), w0)
    ∧ coords !! j = Some (lat, lon)
    ∧ account.GenerateAddress lat lon bits w0 = (Return r, w')
    ∧ A = <[j := (slotOf r).1]> A0
    ∧ E = <[j := (slotOf r).2]> E0.
Proof.
  intros Hj. destruct st as [[[A0 E0]|] w0]; [|done]. cbn.
  destruct (lookup_lt_is_Some_2 coords j Hj) as [[lat lon] Hc]. rewrite Hc.
  destruct (account.GenerateAddress lat lon bits w0) as [[[ai|err]|] w1] eqn:Hgen;
    [| |done]; intros [= <- <- <-]; by exists A0, E0, w0, lat, lon; eexists.
Qed.

Lemma membersRun_inv coords bits w sched :
  NoDup sched → (∀ i, i ∈ sched → i < length coords) →
  ∀ A E w', membersRun coords bits sched w = (Return (A, E), w') →
    length A = length coords ∧ length E = length coords
    ∧ (∀ i, i ∉ sched → i < length coords → A !! i = Some None ∧ E !! i = Some None)
    ∧ (∀ k i lat lon,
         sched !! k = Some i → coords !! i = Some (lat, lon) →
         ∃ A0 E0 w0 r,
           membersRun coords bits (take k sched) w = (Return (A0, E0), w0)
           ∧ (account.GenerateAddress lat lon bits w0).1 = Return r
           ∧ A !! i = Some (slotOf r).1 ∧ E !! i = Some (slotOf r).2).
Proof.
  induction sched as [|j sched IH] using rev_ind; intros Hnodup Hbound A E w' Hrun.
  - injection Hrun as <- <- <-. rewrite !length_replicate.
    split; [done|]. split; [done|]. split; [|done].
    intros i _ Hi. by rewrite !lookup_replicate_2.
  - apply NoDup_app in Hnodup as (Hnodup & Hfresh & _).
    assert (j ∉ sched) as Hj.
    { intros Hin. apply (Hfresh j Hin). apply list_elem_of_here. }
    assert (j < length coords) as Hjlt.
    { apply Hbound, elem_of_app. right. apply list_elem_of_here. }
    rewrite membersRun_snoc in Hrun.
    apply runMember_Return in Hrun
      as (A0 & E0 & w0 & lat & lon & r & Hprev & Hc & Hgen & -> & ->); [|done].
    destruct (IH Hnodup) with (A := A0) (E := E0) (w' := w0)
      as (HlenA & HlenE & Hrest & Hdone); [|done|].
    { intros i Hi. apply Hbound, elem_of_app. by left. }
    rewrite !length_insert.
    split; [done|]. split; [done|]. split.
    + intros i Hi Hlt. apply not_elem_of_app in Hi as [Hi Hij].
      apply not_elem_of_cons in Hij as [Hij _].
      rewrite !list_lookup_insert_ne by done. by apply Hrest.
    + intros k i lat' lon' Hk Hci.
      apply lookup_snoc_Some in Hk as [[Hklt Hk]|[-> <-]].
      * rewrite take_app_le by lia.
        destruct (Hdone k i lat' lon' Hk Hci) as (A1 & E1 & w1 & r1 & Hpre & Hr & HA & HE).
        exists A1, E1, w1, r1. split; [done|]. split; [done|].
        assert (j ≠ i) as Hne.
        { intros ->. apply Hj. apply list_elem_of_lookup. by exists k. }
        by rewrite !list_lookup_insert_ne.
      * rewrite take_app_length. rewrite Hc in Hci. injection Hci as <- <-.
        exists A0, E0, w0, r. split; [done|]. rewrite Hgen. split; [done|].
        by rewrite !list_lookup_insert_eq by lia.
Qed.

Lemma firstError_None E :
  account.firstError E = None → ∀ i x, E !! i = Some x → x = None.
Proof.
  induction E as [|[err|] E IH]; intros Hfirst i x Hi; [done..|].
  destruct i as [|i]; cbn in Hi; [congruence|]. by apply (IH Hfirst i).
Qed.

Lemma firstError_Some E err :
  account.firstError E = Some err →
  ∃ i, E !! i = Some (Some err) ∧ ∀ j, j < i → E !! j = Some None.
Proof.
  induction E as [|[err'|] E IH]; intros Hfirst; [done| |].
  - injection Hfirst as ->. exists 0. split; [done|]. lia.
  - destruct (IH Hfirst) as (i & Hi & Hbefore). exists (S i). split; [done|].
    intros [|j] Hj; [done|]. apply Hbefore. lia.
Qed.

Lemma firstError_is_Some E i err :
  E !! i = Some (Some err) → is_Some (account.firstError E).
Proof.
  intros Hi. destruct (account.firstError E) eqn:Hfirst; [done|].
  by pose proof (firstError_None E Hfirst i _ Hi).
Qed.

End BatchFacts.

Section BatchClaims.
Context {Ext Point Scalar : Type}.
Context `{!Runtime Ext, !GoLib, !Oqs Ext, !Suite Ext Point Scalar, !Zk13 Ext}.
Implicit Types (w : account.World (Ext := Ext)) (ai : account.AddressInfo).

Lemma sched_facts (sched : list nat) (n : nat) :
  sched ≡ₚ seq 0 n →
  NoDup sched
  ∧ (∀ i, i ∈ sched → i < n)
  ∧ (∀ i, i < n → ∃ k, sched !! k = Some i).
Proof.
  intros Hperm. split; [|split].
  - rewrite Hperm. apply NoDup_seq.
  - intros i Hi. rewrite Hperm in Hi. apply elem_of_seq in Hi. lia.
  - intros i Hi. apply list_elem_of_lookup. rewrite Hperm.
    apply elem_of_seq. lia.
Qed.

(** C4.  Whatever the order in which the scheduler runs the goroutines
    of [GenerateAddressesBatch] on [N] coordinates: when the batch returns
    a list, the list has [N] entries and entry [i] is the [AddressInfo]
    that the issuance for coordinate [i] returned; when the issuance for
    some coordinate returned an error, the batch returns no list, and
    (the program not having been ended by a panicking goroutine) it
    returns an error, which is the error of one of the issuances. *)
Theorem GenerateAddressesBatch_ordered_all_or_nothing sched coords bits w :
  sched ≡ₚ seq 0 (length coords) →
  (∀ addresses w',
     account.GenerateAddressesBatch sched coords bits w = (Return (Ok addresses), w') →
     length addresses = length coords
     ∧ ∀ i lat lon,
         coords !! i = Some (lat, lon) →
         ∃ k ai,
           sched !! k = Some i
           ∧ (account.GenerateAddress lat lon bits
                (membersRun coords bits (take k sched) w).2).1 = Return (Ok ai)
           ∧ addresses !! i = Some (Some ai))
  ∧ (∀ k i lat lon err,
       sched !! k = Some i →
       coords !! i = Some (lat, lon) →
       (account.GenerateAddress lat lon bits
          (membersRun coords bits (take k sched) w).2).1 = Return (Err err) →
       (∀ addresses,
          (account.GenerateAddressesBatch sched coords bits w).1 ≠ Return (Ok addresses))
       ∧ ((membersRun coords bits sched w).1 ≠ Panic →
          ∃ err' k' i' lat' lon',
            (account.GenerateAddressesBatch sched coords bits w).1 = Return (Err err')
            ∧ sched !! k' = Some i'
            ∧ coords !! i' = Some (lat', lon')
            ∧ (account.GenerateAddress lat' lon' bits
                 (membersRun coords bits (take k' sched) w).2).1 = Return (Err err'))).
Proof.
  intros Hperm.
  destruct (sched_facts _ _ Hperm) as (Hnodup & Hbound & Hall).
  pose proof (membersRun_inv coords bits w sched Hnodup Hbound) as Hinv.
  rewrite GenerateAddressesBatch_eq.
  destruct (membersRun coords bits sched w) as [[[A E]|] w1] eqn:Hrun.
  2:{ split; [done|]. intros k i lat lon err _ _ _. by split. }
  destruct (Hinv A E w1 eq_refl) as (HlenA & HlenE & _ & Hdone).
  split.
  - intros addresses w' Hout.
    destruct (account.firstError E) eqn:Hfirst; [done|].
    injection Hout as <- <-. split; [done|].
    intros i lat lon Hc.
    destruct (Hall i) as [k Hk]; [by eapply lookup_lt_Some|].
    destruct (Hdone k i lat lon Hk Hc) as (A0 & E0 & w0 & r & Hpre & Hr & HA & HE).
    pose proof (firstError_None E Hfirst i _ HE) as Hnone.
    destruct r as [ai|err]; [|done].
    exists k, ai. by rewrite Hpre.
  - intros k i lat lon err Hk Hc Hfail.
    destruct (Hdone k i lat lon Hk Hc) as (A0 & E0 & w0 & r & Hpre & Hr & HA & HE).
    rewrite Hpre in Hfail. cbn [snd] in Hfail. rewrite Hr in Hfail.
    injection Hfail as ->. cbn in HE.
    destruct (firstError_is_Some E i err HE) as [err' Hfirst].
    rewrite Hfirst. cbn [fst]. split; [done|]. intros _.
    destruct (firstError_Some E err' Hfirst) as (i' & Hi' & _).
    destruct (Hall i') as [k' Hk'].
    { rewrite <- HlenE. by eapply lookup_lt_Some. }
    destruct (lookup_lt_is_Some_2 coords i') as [[lat' lon'] Hc'].
    { rewrite <- HlenE. by eapply lookup_lt_Some. }
    destruct (Hdone k' i' lat' lon' Hk' Hc')
      as (A1 & E1 & w1' & r' & Hpre' & Hr' & _ & HE').
    exists err', k', i', lat', lon'. split; [done|]. split; [done|]. split; [done|].
    rewrite Hpre'. cbn [snd]. rewrite Hr'.
    destruct r' as [ai'|err'']; cbn in HE'; congruence.
Qed.

End BatchClaims.


(** C4 on three coordinates whose goroutines run in the order 2, 0, 1:
    London is issued last and sits at index 1; with an invalid London
    no list comes back. *)
Lemma GenerateAddressesBatch_ordered_all_or_nothing_witness :
  (∃ ai,
     (account.GenerateAddress 51.5074 (-0.1278) 256
        (membersRun DemoBatch.coords 256 [2; 0] (Demo.emptyWorld true)).2).1
       = Return (Ok ai)
     ∧ account.NonceHash ai = "51.507400,-0.127800********************************")
  ∧ (∀ addresses,
       (account.GenerateAddressesBatch DemoBatch.sched DemoBatch.withInvalid 256
          (Demo.emptyWorld true)).1 ≠ Return (Ok addresses)).
Proof.
  split.
  - destruct (GenerateAddressesBatch_ordered_all_or_nothing (Ext := bool)
                DemoBatch.sched DemoBatch.coords 256 (Demo.emptyWorld true))
      as [Hok _].
    { apply (Permutation_cons_append [0; 1] 2). }
    destruct (account.GenerateAddressesBatch DemoBatch.sched DemoBatch.coords 256
                (Demo.emptyWorld true)) as [out w'] eqn:Hout.
    vm_compute in Hout. injection Hout as <- <-.
    destruct (Hok _ _ eq_refl) as [_ Hslots].
    destruct (Hslots 1 51.5074%float (-0.1278)%float eq_refl)
      as (k & ai & Hk & Hgen & Hai).
    assert (k = 2) as ->.
    { destruct k as [|[|[|k]]]; vm_compute in Hk; congruence. }
    exists ai. split; [exact Hgen|].
    vm_compute in Hai. by injection Hai as <-.
  - destruct (GenerateAddressesBatch_ordered_all_or_nothing (Ext := bool)
                DemoBatch.sched DemoBatch.withInvalid 256 (Demo.emptyWorld true))
      as [_ Hfail].
    { apply (Permutation_cons_append [0; 1] 2). }
    apply (Hfail 2 1 51.5074%float (-181)%float (InvalidLongitude (-181)));
      vm_compute; reflexivity.
Defined.

(** ** The repository's tests, replayed on the demo collaborators *)

(** The messages [TestNewNetworkAddress] expects. *)
Example Error_string_latitude :
  Error_string (InvalidLatitude 91)
    = "invalid latitude: 91.000000, must be between -90 and 90"
  ∧ Error_string (InvalidLatitude (-91))
    = "invalid latitude: -91.000000, must be between -90 and 90"
  ∧ Error_string (InvalidLongitude 181)
    = "invalid longitude: 181.000000, must be between -180 and 180"
  ∧ Error_string (InvalidLongitude (-181))
    = "invalid longitude: -181.000000, must be between -180 and 180".
Proof. repeat split; vm_compute; reflexivity. Qed.

(** [TestEdgeCases]: the rows of the table, in order. *)
Example TestEdgeCases :
  passesValidation 90 180 256 = true
  ∧ passesValidation (-90) (-180) 256 = true
  ∧ (account.GenerateAddress 91 0 256 (Demo.emptyWorld true)).1
    = Return (Err (InvalidLatitude 91))
  ∧ (account.GenerateAddress (-91) 0 256 (Demo.emptyWorld true)).1
    = Return (Err (InvalidLatitude (-91)))
  ∧ (account.GenerateAddress 0 181 256 (Demo.emptyWorld true)).1
    = Return (Err (InvalidLongitude 181))
  ∧ (account.GenerateAddress 0 (-181) 256 (Demo.emptyWorld true)).1
    = Return (Err (InvalidLongitude (-181)))
  ∧ (account.GenerateAddress 0 0 0 (Demo.emptyWorld true)).1
    = Return (Err BitsNotPositive)
  ∧ (account.GenerateAddress 0 0 (-1) (Demo.emptyWorld true)).1
    = Return (Err BitsNotPositive).
Proof. repeat split; vm_compute; reflexivity. Qed.

(** [TestAddressCache]: one entry after two calls for the same place. *)
Example TestAddressCache :
  length (account.addressCache
            (account.GenerateAddress 40.7128 (-74.0060) 256 DemoAddress.afterNewYork).2)
    = 1.
Proof. vm_compute. reflexivity. Qed.

(** A coordinate that is not a number passes the three guards: every
    comparison with it is false. *)
Example passesValidation_nan : passesValidation nan nan 256 = true.
Proof. reflexivity. Qed.

(** The key the cache and the registry use for New York, and the two
    renderings of the grid cell the scenario of the specification names. *)
Example coordKey_newYork :
  account.coordKey 40.7128 (-74.0060) = "40.712800,-74.006000"
  ∧ fmt_v [45318; -62453]%Z = "[45318 -62453]"
  ∧ string_of_list_byte (json_Marshal [45318; -62453]%Z) = "[45318,-62453]".
Proof. repeat split; vm_compute; reflexivity. Qed.

(** ** Further properties of the binary codec *)

Section CodecMore.
Implicit Types (data part : list byte) (x receiver : account.AddressInfo).

Lemma zeroCount_app a b : zeroCount (a ++ b) = zeroCount a + zeroCount b.
Proof. unfold zeroCount. by rewrite filter_app, length_app. Qed.

Lemma zeroCount_cons_zero a : zeroCount (x00 :: a) = S (zeroCount a).
Proof. unfold zeroCount. by rewrite filter_cons_True. Qed.

Lemma zeroCount_0 a : zeroCount a = 0 ↔ x00 ∉ a.
Proof.
  unfold zeroCount. induction a as [|b a IH].
  { split; [intros _; apply not_elem_of_nil|done]. }
  rewrite not_elem_of_cons. destruct (decide (b = x00)) as [->|Hb].
  - rewrite filter_cons_True by done. cbn. split; [lia|]. by intros [? _].
  - rewrite filter_cons_False by done. rewrite IH. split; [|tauto].
    intros ?. split; [congruence|done].
Qed.

Lemma bytes_Split_length data :
  length (bytes_Split data x00) = S (zeroCount data).
Proof.
  induction data as [|b data IH]; [done|]. cbn [bytes_Split].
  destruct (decide (b = x00)) as [->|Hb].
  - rewrite zeroCount_cons_zero. cbn. by rewrite IH.
  - unfold zeroCount in *. rewrite filter_cons_False by done.
    destruct (bytes_Split data x00) as [|part parts]; [done|]. exact IH.
Qed.

Lemma bytes_Split_nonempty data : bytes_Split data x00 ≠ [].
Proof.
  pose proof (bytes_Split_length data). by destruct (bytes_Split data x00).
Qed.

(** Gluing the parts back with zero bytes gives the data. *)
Lemma joinZero_bytes_Split data : joinZero (bytes_Split data x00) = data.
Proof.
  induction data as [|b data IH]; [done|]. cbn [bytes_Split].
  pose proof (bytes_Split_nonempty data) as Hne.
  destruct (decide (b = x00)) as [->|Hb];
    destruct (bytes_Split data x00) as [|part parts]; try done.
  - cbn in *. by rewrite IH.
  - rewrite <- IH. by destruct parts.
Qed.

Lemma bytes_Split_three_inv data p0 p1 p2 :
  bytes_Split data x00 = [p0; p1; p2] →
  data = p0 ++ [x00] ++ p1 ++ [x00] ++ p2.
Proof.
  intros Hsplit. rewrite <- (joinZero_bytes_Split data) at 1. by rewrite Hsplit.
Qed.

Lemma UnmarshalBinary_cases receiver data :
  (∃ p0 p1 p2,
     bytes_Split data x00 = [p0; p1; p2]
     ∧ account.UnmarshalBinary receiver data =
         ({| account.PublicKey := string_of_list_byte p0;
             account.LocationCommitment := string_of_list_byte p1;
             account.ZKPProof := string_of_list_byte p2;
             account.NonceValue := account.NonceValue receiver;
             account.NonceHash := account.NonceHash receiver |}, None))
  ∨ (length (bytes_Split data x00) ≠ 3
     ∧ account.UnmarshalBinary receiver data = (receiver, Some InvalidBinaryFormat)).
Proof.
  unfold account.UnmarshalBinary.
  destruct (bytes_Split data x00) as [|p0 [|p1 [|p2 [|p3 ps]]]];
    try (right; split; [cbn; lia|done]).
  left. by exists p0, p1, p2.
Qed.

Lemma UnmarshalBinary_None_iff receiver data :
  (account.UnmarshalBinary receiver data).2 = None ↔ zeroCount data = 2.
Proof.
  pose proof (bytes_Split_length data) as Hlen.
  destruct (UnmarshalBinary_cases receiver data)
    as [(p0 & p1 & p2 & Hsplit & ->)|[Hne ->]].
  - rewrite Hsplit in Hlen. cbn in Hlen. split; [lia|done].
  - split; [done|lia].
Qed.

(** X1.  [UnmarshalBinary] accepts a byte string exactly when it holds
    two zero bytes.  Any other input, the empty one included, is refused
    with "invalid binary format" and leaves the receiver as it was. *)
Theorem UnmarshalBinary_accepts_iff receiver data :
  ((account.UnmarshalBinary receiver data).2 = None ↔ zeroCount data = 2)
  ∧ (zeroCount data ≠ 2 →
     account.UnmarshalBinary receiver data = (receiver, Some InvalidBinaryFormat))
  ∧ account.UnmarshalBinary receiver [] = (receiver, Some InvalidBinaryFormat).
Proof.
  split; [apply UnmarshalBinary_None_iff|]. split; [|done].
  intros Hne.
  destruct (UnmarshalBinary_cases receiver data)
    as [(p0 & p1 & p2 & Hsplit & Heq)|[_ ->]]; [|done].
  exfalso. apply Hne. apply (UnmarshalBinary_None_iff receiver). by rewrite Heq.
Qed.

(** X1 on a string with a single separator. *)
Lemma UnmarshalBinary_accepts_iff_witness :
  account.UnmarshalBinary DemoCodec.x (list_byte_of_string "pk" ++ [x00])
    = (DemoCodec.x, Some InvalidBinaryFormat).
Proof.
  destruct (UnmarshalBinary_accepts_iff DemoCodec.x
              (list_byte_of_string "pk" ++ [x00])) as (_ & Hrefused & _).
  apply Hrefused. vm_compute. lia.
Defined.

(** X2.  Decoding then encoding gives the bytes back: whenever
    [UnmarshalBinary] accepts [data], [MarshalBinary] of the receiver it
    leaves is [data]. *)
Theorem MarshalBinary_UnmarshalBinary receiver data decoded :
  account.UnmarshalBinary receiver data = (decoded, None) →
  account.MarshalBinary decoded = Ok data.
Proof.
  destruct (UnmarshalBinary_cases receiver data)
    as [(p0 & p1 & p2 & Hsplit & ->)|[Hne ->]]; [|done].
  intros [= <-]. unfold account.MarshalBinary. cbn [account.PublicKey
    account.LocationCommitment account.ZKPProof app].
  rewrite !list_byte_of_string_of_list_byte.
  rewrite (bytes_Split_three_inv _ _ _ _ Hsplit). by rewrite <- !app_assoc.
Qed.

(** X2 on two separators and nothing else: three empty fields. *)
Lemma MarshalBinary_UnmarshalBinary_witness :
  account.MarshalBinary DemoCodec.blank = Ok [x00; x00].
Proof.
  apply (MarshalBinary_UnmarshalBinary DemoCodec.blank [x00; x00]). reflexivity.
Defined.

(** X3.  The encoding of a record can be decoded exactly when its
    [PublicKey], [LocationCommitment] and [ZKPProof] hold no zero byte: a
    zero byte in any of the three makes [UnmarshalBinary] refuse the
    output of [MarshalBinary]. *)
Theorem UnmarshalBinary_MarshalBinary_accepts_iff x receiver data :
  account.MarshalBinary x = Ok data →
  ((account.UnmarshalBinary receiver data).2 = None ↔
     zeroFree (account.PublicKey x)
     ∧ zeroFree (account.LocationCommitment x)
     ∧ zeroFree (account.ZKPProof x)).
Proof.
  intros [= <-]. rewrite UnmarshalBinary_None_iff. cbn [app].
  rewrite !zeroCount_app. change (zeroCount [x00]) with 1.
  unfold zeroFree. rewrite <- !zeroCount_0. lia.
Qed.

(** X3 on a record with a zero byte inside its public key. *)
Lemma UnmarshalBinary_MarshalBinary_accepts_iff_witness :
  (account.UnmarshalBinary DemoCodec.blank
     (list_byte_of_string (String "000" "pk") ++ [x00]
      ++ list_byte_of_string "lc" ++ [x00] ++ list_byte_of_string "zk")).2
    ≠ None.
Proof.
  intros Hnone.
  apply (UnmarshalBinary_MarshalBinary_accepts_iff
           {| account.PublicKey := String "000" "pk";
              account.LocationCommitment := "lc"; account.ZKPProof := "zk";
              account.NonceValue := ""; account.NonceHash := "" |}
           DemoCodec.blank _ eq_refl) in Hnone.
  destruct Hnone as [Hpk _]. apply Hpk. vm_compute. apply list_elem_of_here.
Defined.

End CodecMore.

(** ** Further properties of the address cache *)

Section CacheMore.
Context {V : Type}.
Implicit Types (c : list (string * V)) (key k : string) (v : V).

Lemma lru_find_None key c : lru.find key c = None ↔ key ∉ c.*1.
Proof.
  induction c as [|[k v] c IH]; cbn.
  - split; [intros _; apply not_elem_of_nil|done].
  - rewrite not_elem_of_cons. destruct (decide (k = key)) as [->|Hne].
    + split; [done|]. by intros [? _].
    + rewrite IH. split; [|tauto]. intros ?. split; [congruence|done].
Qed.

Lemma lru_remove_keys key k c :
  k ∈ (lru.remove key c).*1 ↔ k ≠ key ∧ k ∈ c.*1.
Proof.
  induction c as [|[k' v] c IH]; cbn.
  - rewrite elem_of_nil. tauto.
  - destruct (decide (k' = key)) as [->|Hne]; cbn; rewrite ?elem_of_cons, IH.
    + split; [tauto|]. intros [? [?|?]]; [congruence|tauto].
    + split; [|tauto]. intros [->|?]; [|tauto]. split; [done|by left].
Qed.

Lemma lru_remove_NoDup key c : NoDup c.*1 → NoDup (lru.remove key c).*1.
Proof.
  induction c as [|[k v] c IH]; cbn; [done|].
  rewrite NoDup_cons. intros [Hk Hc].
  destruct (decide (k = key)); [by apply IH|]. cbn.
  apply NoDup_cons. split; [|by apply IH].
  rewrite lru_remove_keys. tauto.
Qed.

Lemma lru_remove_length key c : length (lru.remove key c) ≤ length c.
Proof.
  induction c as [|[k v] c IH]; cbn; [done|].
  destruct (decide (k = key)); cbn; lia.
Qed.

Lemma lru_remove_length_hit key c v :
  lru.find key c = Some v → length (lru.remove key c) < length c.
Proof.
  induction c as [|[k v'] c IH]; cbn; [done|].
  destruct (decide (k = key)).
  - intros _. pose proof (lru_remove_length key c). lia.
  - intros Hfind. specialize (IH Hfind). cbn. lia.
Qed.

Lemma lru_remove_absent key c : key ∉ c.*1 → lru.remove key c = c.
Proof.
  induction c as [|[k v] c IH]; cbn; [done|].
  rewrite not_elem_of_cons. intros [Hne Hc].
  destruct (decide (k = key)); [congruence|]. by rewrite IH.
Qed.

(** Putting a new key into a cache that is not over its size: the entry
    goes in front and the list is cut to the size, which drops the least
    recently used entry of a full cache. *)
Lemma lru_Add_new size key v c :
  lru.find key c = None → length c ≤ size →
  lru.Add size key v c = take size ((key, v) :: c).
Proof.
  intros Hfind Hlen. unfold lru.Add. rewrite Hfind. cbv zeta.
  destruct (size <? _)%nat eqn:Hfull.
  - apply Nat.ltb_lt in Hfull. cbn [length] in Hfull.
    assert (length c = size) as <- by lia.
    by rewrite removelast_firstn_len.
  - apply Nat.ltb_ge in Hfull. by rewrite take_ge.
Qed.

Lemma lru_moved_front key v c :
  lru.find key c = Some v →
  NoDup c.*1 →
  NoDup ((key, v) :: lru.remove key c).*1
  ∧ length ((key, v) :: lru.remove key c) ≤ length c.
Proof.
  intros Hfind Hnodup. split.
  - cbn. apply NoDup_cons. split; [|by apply lru_remove_NoDup].
    rewrite lru_remove_keys. tauto.
  - cbn. pose proof (lru_remove_length_hit _ _ _ Hfind). lia.
Qed.

Lemma lru_Add_ok size key v c :
  0 < size → NoDup c.*1 → length c ≤ size →
  NoDup (lru.Add size key v c).*1 ∧ length (lru.Add size key v c) ≤ size.
Proof.
  intros Hsize Hnodup Hlen.
  destruct (lru.find key c) as [v'|] eqn:Hfind.
  - unfold lru.Add. rewrite Hfind.
    destruct (lru_moved_front key v' c Hfind Hnodup) as [Hnd Hle].
    split; [exact Hnd|]. cbn in *. lia.
  - rewrite lru_Add_new by done. split.
    + rewrite fmap_take. eapply sublist_NoDup; [|apply sublist_take].
      cbn. apply NoDup_cons. split; [by apply lru_find_None|done].
    + rewrite length_take. lia.
Qed.

End CacheMore.

(** ** Further properties of address generation *)

Section IssuanceMore.
Context {Ext Point Scalar : Type}.
Context `{!Runtime Ext, !GoLib, !Oqs Ext, !Suite Ext Point Scalar, !Zk13 Ext}.
Implicit Types (w : account.World (Ext := Ext)) (ai : account.AddressInfo).

Lemma GenerateOrUpdateNonce_other address e (nonces : gmap string state.Nonce) k :
  k ≠ address →
  (state.GenerateOrUpdateNonce address e nonces).2 !! k = nonces !! k.
Proof.
  intros Hne. rewrite GenerateOrUpdateNonce_eq.
  assert (∀ e', (state.generateFresh address e' nonces).2 !! k = nonces !! k) as Hfresh.
  { intros e'. rewrite generateFresh_eq.
    destruct (rand_Read _ e') as [[written|] e1]; [|done].
    cbn. by rewrite lookup_insert_ne. }
  destruct (nonces !! address) as [n|]; [|apply Hfresh].
  destruct (_ <=? _)%Z; [done|apply Hfresh].
Qed.

Lemma issueFresh_unfold lat lon bits w :
  let key := account.coordKey lat lon in
  let keyed := account.keyTask (account.outside w) in
  let committed := account.commitTask lat lon keyed.2 in
  let proved := account.proofTask lat lon bits committed.2 in
  let nonced := account.nonceTask key proved.2 (account.nonces w) in
  let o := account.assemble keyed.1.1 committed.1.1 proved.1 nonced.1.1
             [keyed.1.2; committed.1.2; None; None] in
  issueFresh lat lon bits w =
    (o, {| account.outside := nonced.1.2;
           account.nonces := nonced.2;
           account.addressCache :=
             match o with
             | Return (Ok ai) =>
                 lru.Add account.addressCacheSize key ai (account.addressCache w)
             | _ => account.addressCache w
             end |}).
Proof.
  cbv zeta. unfold issueFresh.
  destruct (account.keyTask _) as [[publicKey err0] e1]. cbn [fst snd].
  destruct (account.commitTask _ _ _) as [[locationCommitment err1] e2]. cbn [fst snd].
  destruct (account.proofTask _ _ _ _) as [zkpProofStr e3]. cbn [fst snd].
  destruct (account.nonceTask _ _ _) as [[nonce e4] nonces']. cbn [fst snd].
  by destruct (account.assemble _ _ _ _ _) as [[ai|err]|].
Qed.

Lemma assemble_Ok (publicKey locationCommitment : option Point) zkpProofStr
    (nonce : option state.Nonce) errs ai :
  account.assemble publicKey locationCommitment zkpProofStr nonce errs = Return (Ok ai) →
  ∃ pk lc n,
    publicKey = Some pk ∧ locationCommitment = Some lc ∧ nonce = Some n
    ∧ ai = {| account.PublicKey := base64_RawStdEncoding (Point_MarshalBinary pk);
              account.LocationCommitment :=
                base64_RawStdEncoding (Point_MarshalBinary lc);
              account.ZKPProof := zkpProofStr;
              account.NonceValue := base64_StdEncoding (state.Value n);
              account.NonceHash := base64_StdEncoding (state.Hash n) |}.
Proof.
  unfold account.assemble. destruct (account.firstError errs); [done|].
  destruct publicKey as [pk|], locationCommitment as [lc|], nonce as [n|]; try done.
  intros [= <-]. by exists pk, lc, n.
Qed.

(** The second goroutine does not look at the coordinates. *)
Lemma commitTask_coordinate_free lat lon lat' lon' (e : Ext) :
  account.commitTask lat lon e = account.commitTask lat' lon' e.
Proof. reflexivity. Qed.

(** How a call of [GenerateAddress] leaves the world, case by case. *)
Lemma GenerateAddress_world lat lon bits w :
  let key := account.coordKey lat lon in
  let out := account.GenerateAddress lat lon bits w in
  (out.2 = w ∧ ∃ err, out.1 = Return (Err err))
  ∨ (∃ cached,
       lru.find key (account.addressCache w) = Some cached
       ∧ out = (Return (Ok cached),
                {| account.outside := account.outside w;
                   account.nonces := account.nonces w;
                   account.addressCache :=
                     (key, cached) :: lru.remove key (account.addressCache w) |}))
  ∨ (lru.find key (account.addressCache w) = None
     ∧ passesValidation lat lon bits = true
     ∧ out = issueFresh lat lon bits w).
Proof.
  cbv zeta. rewrite GenerateAddress_eq. unfold passesValidation.
  destruct (bits <=? 0)%Z; [left; eauto|].
  destruct (_ || _); [left; eauto|]. destruct (_ || _); [left; eauto|].
  destruct (lru.find _ _) as [cached|] eqn:Hfind.
  - right. left. by exists cached.
  - right. right. done.
Qed.

Lemma GenerateAddress_nonces_other lat lon bits w k :
  k ≠ account.coordKey lat lon →
  account.nonces (account.GenerateAddress lat lon bits w).2 !! k
    = account.nonces w !! k.
Proof.
  intros Hne.
  destruct (GenerateAddress_world lat lon bits w)
    as [[-> _]|[(cached & _ & ->)|(_ & _ & ->)]]; [done..|].
  rewrite issueFresh_unfold. cbn. by apply GenerateOrUpdateNonce_other.
Qed.

Lemma GenerateAddress_registry_wf lat lon bits w :
  registry_wf (account.nonces w) →
  registry_wf (account.nonces (account.GenerateAddress lat lon bits w).2).
Proof.
  intros Hwf.
  destruct (GenerateAddress_world lat lon bits w)
    as [[-> _]|[(cached & _ & ->)|(_ & _ & ->)]]; [done..|].
  rewrite issueFresh_unfold. cbn. by apply registry_wf_GenerateOrUpdateNonce.
Qed.

Lemma GenerateAddress_cacheOk lat lon bits w :
  cacheOk (account.addressCache w) →
  cacheOk (account.addressCache (account.GenerateAddress lat lon bits w).2).
Proof.
  intros [Hnodup Hlen].
  destruct (GenerateAddress_world lat lon bits w)
    as [[-> _]|[(cached & Hfind & ->)|(_ & _ & ->)]]; [done| |].
  - destruct (lru_moved_front _ _ _ Hfind Hnodup) as [Hnd Hle].
    split; [exact Hnd|]. cbn in *. lia.
  - rewrite issueFresh_unfold. cbn.
    destruct (account.assemble _ _ _ _ _) as [[ai|err]|]; [|done..].
    apply lru_Add_ok; [unfold account.addressCacheSize; lia|done..].
Qed.

Lemma GenerateAddress_cache_kept lat lon bits w :
  (∀ ai, (account.GenerateAddress lat lon bits w).1 ≠ Return (Ok ai)) →
  account.addressCache (account.GenerateAddress lat lon bits w).2
    = account.addressCache w.
Proof.
  intros Hfail.
  destruct (GenerateAddress_world lat lon bits w)
    as [[-> _]|[(cached & _ & Heq)|(_ & _ & Heq)]]; [done| |].
  - rewrite Heq in Hfail. by destruct (Hfail cached).
  - rewrite Heq in *. rewrite issueFresh_unfold in *. cbn in *.
    destruct (account.assemble _ _ _ _ _) as [[ai|err]|]; [|done..].
    by destruct (Hfail ai).
Qed.

End IssuanceMore.

Section CacheAgain.
Context {V : Type}.
Implicit Types (c : list (string * V)) (key : string) (v : V).

Lemma removelast_keys key c : key ∉ c.*1 → key ∉ (removelast c).*1.
Proof.
  intros Hc Hin. apply Hc.
  rewrite removelast_firstn_len, fmap_take in Hin.
  by apply (sublist_subseteq _ _ (sublist_take c.*1 (pred (length c))) key).
Qed.

(** Adding the entry that was just added changes nothing. *)
Lemma lru_Add_again size key v c :
  0 < size → lru.find key c = None →
  lru.Add size key v (lru.Add size key v c) = lru.Add size key v c.
Proof.
  intros Hsize Hfind.
  assert (∃ rest, lru.Add size key v c = (key, v) :: rest ∧ key ∉ rest.*1)
    as (rest & -> & Hrest).
  { unfold lru.Add. rewrite Hfind. cbv zeta.
    apply lru_find_None in Hfind.
    destruct (size <? _)%nat eqn:Hfull; [|by exists c].
    destruct c as [|kv c].
    - apply Nat.ltb_lt in Hfull. cbn in Hfull. lia.
    - exists (removelast (kv :: c)). split; [done|]. by apply removelast_keys. }
  unfold lru.Add at 1. rewrite lru_find_head. cbn [lru.remove].
  destruct (decide (key = key)); [|done]. by rewrite lru_remove_absent.
Qed.

End CacheAgain.

Section CacheClaims.
Context {Ext Point Scalar : Type}.
Context `{!Runtime Ext, !GoLib, !Oqs Ext, !Suite Ext Point Scalar, !Zk13 Ext}.
Implicit Types (w : account.World (Ext := Ext)) (ai : account.AddressInfo).

Lemma GetOrGenerateAddress_hit lat lon bits w cached :
  lru.find (account.coordKey lat lon) (account.addressCache w) = Some cached →
  account.GetOrGenerateAddress lat lon bits w =
    (Return (Ok cached),
     {| account.outside := account.outside w;
        account.nonces := account.nonces w;
        account.addressCache :=
          (account.coordKey lat lon, cached)
            :: lru.remove (account.coordKey lat lon) (account.addressCache w) |}).
Proof. intros Hfind. unfold account.GetOrGenerateAddress, lru.Get. by rewrite Hfind. Qed.

Lemma GetOrGenerateAddress_miss lat lon bits w :
  lru.find (account.coordKey lat lon) (account.addressCache w) = None →
  account.GetOrGenerateAddress lat lon bits w = account.GenerateAddress lat lon bits w.
Proof.
  intros Hfind. unfold account.GetOrGenerateAddress, lru.Get. rewrite Hfind.
  destruct (GenerateAddress_world lat lon bits w)
    as [[_ [err Herr]]|[(cached & Hhit & _)|(_ & _ & Heq)]]; [|congruence|].
  - destruct (account.GenerateAddress lat lon bits w) as [o w'].
    cbn in Herr. by rewrite Herr.
  - rewrite Heq, issueFresh_unfold. cbv zeta.
    destruct (account.assemble _ _ _ _ _) as [[ai|err]|]; [|done..].
    cbn. rewrite lru_Add_again; [done| |done].
    unfold account.addressCacheSize. lia.
Qed.

Lemma runMember_cacheOk coords bits st i :
  cacheOk (account.addressCache st.2) →
  cacheOk (account.addressCache (account.runMember coords bits st i).2).
Proof.
  destruct st as [[[A E]|] w]; cbn; [|done]. intros Hok.
  destruct (coords !! i) as [[lat lon]|]; [|done].
  pose proof (GenerateAddress_cacheOk lat lon bits w Hok) as Hok'.
  by destruct (account.GenerateAddress lat lon bits w) as [[[ai|err]|] w'].
Qed.

Lemma foldl_runMember_cacheOk coords bits sched
    (st : outcome (list (option account.AddressInfo) * list (option error))
          * account.World (Ext := Ext)) :
  cacheOk (account.addressCache st.2) →
  cacheOk (account.addressCache (foldl (account.runMember coords bits) st sched).2).
Proof.
  revert st. induction sched as [|i sched IH]; intros st Hst; [done|].
  cbn [foldl]. apply IH. by apply runMember_cacheOk.
Qed.

(** X4.  The address cache stays in order: if it holds no key twice and
    at most 100 entries, it still does after [GenerateAddress], after
    [GetOrGenerateAddress] and after [GenerateAddressesBatch], whatever
    their outcome. *)
Theorem addressCache_stays_bounded lat lon bits w :
  cacheOk (account.addressCache w) →
  cacheOk (account.addressCache (account.GenerateAddress lat lon bits w).2)
  ∧ cacheOk (account.addressCache (account.GetOrGenerateAddress lat lon bits w).2)
  ∧ (∀ sched coords,
       cacheOk (account.addressCache
                  (account.GenerateAddressesBatch sched coords bits w).2)).
Proof.
  intros Hok. split; [by apply GenerateAddress_cacheOk|]. split.
  - destruct (lru.find (account.coordKey lat lon) (account.addressCache w))
      as [cached|] eqn:Hfind.
    + rewrite (GetOrGenerateAddress_hit _ _ _ _ _ Hfind). cbn.
      destruct Hok as [Hnodup Hlen].
      destruct (lru_moved_front _ _ _ Hfind Hnodup) as [Hnd Hle].
      split; [exact Hnd|]. cbn in *. lia.
    + rewrite (GetOrGenerateAddress_miss _ _ _ _ Hfind).
      by apply GenerateAddress_cacheOk.
  - intros sched coords. rewrite GenerateAddressesBatch_eq.
    assert (cacheOk (account.addressCache (membersRun coords bits sched w).2)) as Hrun.
    { unfold membersRun. by apply foldl_runMember_cacheOk. }
    destruct (membersRun coords bits sched w) as [[[A E]|] w']; [|done].
    by destruct (account.firstError E).
Qed.

(** X5.  How [GenerateAddress] updates the cache.  A call that returns no
    record (an error, or a panic) leaves the cache exactly as it was.  A
    fresh issuance that returns [ai] puts [(key, ai)] in front and cuts
    the list to 100 entries, so that from a full cache the least recently
    used entry, and only that one, is evicted. *)
Theorem GenerateAddress_cache_update lat lon bits w :
  ((∀ ai, (account.GenerateAddress lat lon bits w).1 ≠ Return (Ok ai)) →
   account.addressCache (account.GenerateAddress lat lon bits w).2
     = account.addressCache w)
  ∧ (∀ ai,
       lru.find (account.coordKey lat lon) (account.addressCache w) = None →
       length (account.addressCache w) ≤ 100 →
       (account.GenerateAddress lat lon bits w).1 = Return (Ok ai) →
       account.addressCache (account.GenerateAddress lat lon bits w).2
         = take 100 ((account.coordKey lat lon, ai) :: account.addressCache w)).
Proof.
  split; [apply GenerateAddress_cache_kept|].
  intros ai Hfind Hlen.
  destruct (GenerateAddress_world lat lon bits w)
    as [[_ [err ->]]|[(cached & Hhit & _)|(_ & _ & ->)]]; [done|congruence|].
  rewrite issueFresh_unfold. cbn [fst snd account.addressCache].
  destruct (account.assemble _ _ _ _ _) as [[ai'|err]|]; [|done..].
  intros [= ->]. by apply lru_Add_new.
Qed.

(** X6.  The cache goes by the printed key only.  After a call that
    returned [ai] for [(lat, lon)], a call for any coordinates that print
    to the same six decimals (and pass the guards) returns [ai] as well:
    nothing is derived for the second place. *)
Theorem GenerateAddress_shares_by_key lat lon bits w ai w1 lat' lon' bits' :
  account.GenerateAddress lat lon bits w = (Return (Ok ai), w1) →
  account.coordKey lat' lon' = account.coordKey lat lon →
  passesValidation lat' lon' bits' = true →
  (account.GenerateAddress lat' lon' bits' w1).1 = Return (Ok ai)
  ∧ account.outside (account.GenerateAddress lat' lon' bits' w1).2 = account.outside w1
  ∧ account.nonces (account.GenerateAddress lat' lon' bits' w1).2 = account.nonces w1.
Proof.
  intros Hfirst Hkey Hvalid.
  destruct (GenerateAddress_Ok_cached _ _ _ _ _ _ Hfirst) as [_ Hfind].
  apply passesValidation_guards in Hvalid as (Hbits & Hlat & Hlon).
  by rewrite GenerateAddress_eq, Hbits, Hlat, Hlon, Hkey, Hfind.
Qed.

End CacheClaims.

(** X4 from the empty cache: one entry after an issuance. *)
Lemma addressCache_stays_bounded_witness :
  cacheOk (account.addressCache DemoAddress.afterNewYork).
Proof.
  apply (addressCache_stays_bounded (Ext := bool) 40.7128 (-74.0060) 256
           (Demo.emptyWorld true)).
  split; [apply NoDup_nil_2|]. cbn. unfold account.addressCacheSize. lia.
Defined.

(** X5: a refused call and a fresh issuance, both from the empty cache. *)
Lemma GenerateAddress_cache_update_witness :
  account.addressCache (account.GenerateAddress 91 0 256 (Demo.emptyWorld true)).2 = []
  ∧ account.addressCache DemoAddress.afterNewYork
    = [("40.712800,-74.006000", DemoAddress.newYork)].
Proof.
  split.
  - apply (GenerateAddress_cache_update (Ext := bool) 91 0 256 (Demo.emptyWorld true)).
    intros ai. vm_compute. discriminate.
  - destruct (GenerateAddress_cache_update (Ext := bool) 40.7128 (-74.0060) 256
                (Demo.emptyWorld true)) as [_ Hfresh].
    apply (Hfresh DemoAddress.newYork); [reflexivity|cbn; lia|].
    vm_compute. reflexivity.
Defined.

(** X6: a place a micrometre north of the first one gets its address. *)
Lemma GenerateAddress_shares_by_key_witness :
  (account.GenerateAddress 40.71280000001 (-74.0060) 256 DemoAddress.afterNewYork).1
    = Return (Ok DemoAddress.newYork).
Proof.
  assert (account.GenerateAddress 40.7128 (-74.0060) 256 (Demo.emptyWorld true)
          = (Return (Ok DemoAddress.newYork), DemoAddress.afterNewYork)) as Hfirst
    by (vm_compute; reflexivity).
  apply (GenerateAddress_shares_by_key (Ext := bool) _ _ _ _ _ _
           40.71280000001 (-74.0060) 256 Hfirst); vm_compute; reflexivity.
Defined.


Section IssuanceExtras.
Context {Ext Point Scalar : Type}.
Context `{!Runtime Ext, !GoLib, !Oqs Ext, !Suite Ext Point Scalar, !Zk13 Ext}.
Implicit Types (w : account.World (Ext := Ext)) (ai : account.AddressInfo).

Lemma GenerateAddress_fresh_fields lat lon bits w ai w' :
  account.GenerateAddress lat lon bits w = (Return (Ok ai), w') →
  lru.find (account.coordKey lat lon) (account.addressCache w) = None →
  ∃ pk lc n,
    (account.keyTask (account.outside w)).1.1 = Some pk
    ∧ (account.commitTask lat lon (account.keyTask (account.outside w)).2).1.1 = Some lc
    ∧ account.nonces w' !! account.coordKey lat lon = Some n
    ∧ account.PublicKey ai = base64_RawStdEncoding (Point_MarshalBinary pk)
    ∧ account.LocationCommitment ai = base64_RawStdEncoding (Point_MarshalBinary lc)
    ∧ account.NonceValue ai = base64_StdEncoding (state.Value n)
    ∧ account.NonceHash ai = base64_StdEncoding (state.Hash n).
Proof.
  intros Hgen Hmiss.
  destruct (GenerateAddress_world lat lon bits w)
    as [[_ [err Herr]]|[(cached & Hhit & _)|(_ & _ & Heq)]].
  - rewrite Hgen in Herr. done.
  - congruence.
  - rewrite Hgen, issueFresh_unfold in Heq. cbv zeta in Heq.
    destruct (account.assemble _ _ _ _ _) as [[ai'|err]|] eqn:Hass;
      [|done..].
    injection Heq as <- ->.
    apply assemble_Ok in Hass as (pk & lc & n & Hpk & Hlc & Hn & ->).
    exists pk, lc, n. repeat split; try done.
    cbn [account.nonces]. unfold account.nonceTask in *.
    destruct (state.GenerateOrUpdateNonce _ _ _) as [[o e4] nonces'] eqn:Hnonce.
    cbn in Hn. subst o. cbn.
    by apply (GenerateOrUpdateNonce_stored _ _ _ _ _ _ Hnonce).
Qed.

(** X7.  The nonce of an issued address is the registry's.  After a fresh
    issuance that returned [ai], the registry holds, under the coordinate
    key, a nonce whose value and hash, base64-encoded, are [ai]'s
    [NonceValue] and [NonceHash]; in a well-formed registry that nonce
    carries the key as its address and the hash of key and value. *)
Theorem GenerateAddress_nonce_in_registry lat lon bits w ai w' :
  account.GenerateAddress lat lon bits w = (Return (Ok ai), w') →
  lru.find (account.coordKey lat lon) (account.addressCache w) = None →
  ∃ n,
    account.nonces w' !! account.coordKey lat lon = Some n
    ∧ account.NonceValue ai = base64_StdEncoding (state.Value n)
    ∧ account.NonceHash ai = base64_StdEncoding (state.Hash n)
    ∧ (registry_wf (account.nonces w) →
       state.Address n = account.coordKey lat lon
       ∧ state.Hash n
         = state.generateNonceHash (account.coordKey lat lon) (state.Value n)).
Proof.
  intros Hgen Hmiss.
  destruct (GenerateAddress_fresh_fields _ _ _ _ _ _ Hgen Hmiss)
    as (pk & lc & n & _ & _ & Hn & _ & _ & Hv & Hh).
  exists n. split; [done|]. split; [done|]. split; [done|].
  intros Hwf.
  pose proof (GenerateAddress_registry_wf lat lon bits w Hwf) as Hwf'.
  rewrite Hgen in Hwf'. destruct (Hwf' _ _ Hn) as [Ha Hhash].
  split; [done|]. by rewrite <- Ha at 1.
Qed.

(** X8.  What [GenerateAddress] does to the registry, whatever its
    outcome: entries under keys other than the coordinate key are left
    as they are, and a well-formed registry stays well-formed.  The
    registry is not rolled back when the call fails after the guards: a
    nonce issued by the fourth goroutine stays stored. *)
Theorem GenerateAddress_registry_frame lat lon bits w :
  (∀ k, k ≠ account.coordKey lat lon →
        account.nonces (account.GenerateAddress lat lon bits w).2 !! k
          = account.nonces w !! k)
  ∧ (registry_wf (account.nonces w) →
     registry_wf (account.nonces (account.GenerateAddress lat lon bits w).2))
  ∧ (passesValidation lat lon bits = true →
     lru.find (account.coordKey lat lon) (account.addressCache w) = None →
     account.nonces (account.GenerateAddress lat lon bits w).2
       = (state.GenerateOrUpdateNonce (account.coordKey lat lon)
            (account.proofTask lat lon bits
               (account.commitTask lat lon
                  (account.keyTask (account.outside w)).2).2).2
            (account.nonces w)).2).
Proof.
  split; [intros k; apply GenerateAddress_nonces_other|].
  split; [apply GenerateAddress_registry_wf|].
  intros Hvalid Hmiss.
  apply passesValidation_guards in Hvalid as (Hbits & Hlat & Hlon).
  by rewrite GenerateAddress_eq, Hbits, Hlat, Hlon, Hmiss, issueFresh_unfold.
Qed.

(** X9.  The public key and the location commitment of an issued address
    do not depend on the coordinates: two fresh issuances started from
    the same state of the outside world return the same [PublicKey] and
    the same [LocationCommitment], wherever they are for. *)
Theorem GenerateAddress_keys_ignore_coordinates
    lat lon bits w ai w1 lat' lon' bits' w' ai' w1' :
  account.GenerateAddress lat lon bits w = (Return (Ok ai), w1) →
  lru.find (account.coordKey lat lon) (account.addressCache w) = None →
  account.GenerateAddress lat' lon' bits' w' = (Return (Ok ai'), w1') →
  lru.find (account.coordKey lat' lon') (account.addressCache w') = None →
  account.outside w = account.outside w' →
  account.PublicKey ai = account.PublicKey ai'
  ∧ account.LocationCommitment ai = account.LocationCommitment ai'.
Proof.
  intros Hgen Hmiss Hgen' Hmiss' Hout.
  destruct (GenerateAddress_fresh_fields _ _ _ _ _ _ Hgen Hmiss)
    as (pk & lc & n & Hpk & Hlc & _ & -> & -> & _).
  destruct (GenerateAddress_fresh_fields _ _ _ _ _ _ Hgen' Hmiss')
    as (pk' & lc' & n' & Hpk' & Hlc' & _ & -> & -> & _).
  rewrite <- Hout in Hpk', Hlc'.
  rewrite (commitTask_coordinate_free lat' lon' lat lon) in Hlc'.
  split; congruence.
Qed.

(** X10.  [GetOrGenerateAddress] serves a cached coordinate before any
    check, so also when [bits] is not positive; in every other respect it
    is [GenerateAddress]: on a cache miss, and whenever the arguments
    pass the guards, the two return the same and leave the same world. *)
Theorem GetOrGenerateAddress_vs_GenerateAddress lat lon bits w :
  (∀ cached,
     lru.find (account.coordKey lat lon) (account.addressCache w) = Some cached →
     (account.GetOrGenerateAddress lat lon bits w).1 = Return (Ok cached))
  ∧ (lru.find (account.coordKey lat lon) (account.addressCache w) = None →
     account.GetOrGenerateAddress lat lon bits w
       = account.GenerateAddress lat lon bits w)
  ∧ (passesValidation lat lon bits = true →
     account.GetOrGenerateAddress lat lon bits w
       = account.GenerateAddress lat lon bits w).
Proof.
  split; [|split].
  - intros cached Hfind. by rewrite (GetOrGenerateAddress_hit _ _ _ _ _ Hfind).
  - apply GetOrGenerateAddress_miss.
  - intros Hvalid.
    destruct (lru.find (account.coordKey lat lon) (account.addressCache w))
      as [cached|] eqn:Hfind; [|by apply GetOrGenerateAddress_miss].
    rewrite (GetOrGenerateAddress_hit _ _ _ _ _ Hfind).
    apply passesValidation_guards in Hvalid as (Hbits & Hlat & Hlon).
    by rewrite GenerateAddress_eq, Hbits, Hlat, Hlon, Hfind.
Qed.

End IssuanceExtras.

(** X7 at New York: the registry holds the nonce the record shows. *)
Lemma GenerateAddress_nonce_in_registry_witness :
  ∃ n,
    account.nonces DemoAddress.afterNewYork !! "40.712800,-74.006000" = Some n
    ∧ account.NonceValue DemoAddress.newYork = string_of_list_byte (state.Value n).
Proof.
  assert (account.GenerateAddress 40.7128 (-74.0060) 256 (Demo.emptyWorld true)
          = (Return (Ok DemoAddress.newYork), DemoAddress.afterNewYork)) as Hfirst
    by (vm_compute; reflexivity).
  destruct (GenerateAddress_nonce_in_registry (Ext := bool) _ _ _ _ _ _ Hfirst eq_refl)
    as (n & Hn & Hv & _).
  exists n. split; [exact Hn|exact Hv].
Defined.

(** X8 when the randomness source is down: the call panics and the
    registry, which held Alice's nonce, still does. *)
Lemma GenerateAddress_registry_frame_witness :
  account.nonces
    (account.GenerateAddress 40.7128 (-74.0060) 256
       {| account.outside := false;
          account.nonces := DemoRegistry.registry;
          account.addressCache := [] |}).2 !! "alice"
  = Some (Demo.someNonce "alice" 1699999000).
Proof.
  etransitivity.
  - apply (GenerateAddress_registry_frame (Ext := bool)). vm_compute. discriminate.
  - vm_compute. reflexivity.
Defined.

(** X9: New York and the origin of the grid get the same key material. *)
Lemma GenerateAddress_keys_ignore_coordinates_witness :
  ∃ ai',
    (account.GenerateAddress 0 0 8 (Demo.emptyWorld true)).1 = Return (Ok ai')
    ∧ account.PublicKey DemoAddress.newYork = account.PublicKey ai'
    ∧ account.LocationCommitment DemoAddress.newYork = account.LocationCommitment ai'.
Proof.
  assert (account.GenerateAddress 40.7128 (-74.0060) 256 (Demo.emptyWorld true)
          = (Return (Ok DemoAddress.newYork), DemoAddress.afterNewYork)) as Hfirst
    by (vm_compute; reflexivity).
  destruct (account.GenerateAddress 0 0 8 (Demo.emptyWorld true))
    as [[[ai'|err]|] w1'] eqn:Hsecond; try (vm_compute in Hsecond; discriminate).
  exists ai'. split; [reflexivity|].
  apply (GenerateAddress_keys_ignore_coordinates (Ext := bool)
           _ _ _ _ _ _ _ _ _ _ _ _ Hfirst eq_refl Hsecond eq_refl eq_refl).
Defined.

(** X10: a cached place is served though [bits] is zero, where
    [GenerateAddress] refuses. *)
Lemma GetOrGenerateAddress_vs_GenerateAddress_witness :
  (account.GetOrGenerateAddress 40.7128 (-74.0060) 0 DemoAddress.afterNewYork).1
    = Return (Ok DemoAddress.newYork)
  ∧ (account.GenerateAddress 40.7128 (-74.0060) 0 DemoAddress.afterNewYork).1
    = Return (Err BitsNotPositive)
  ∧ account.GetOrGenerateAddress 40.7128 (-74.0060) 256 (Demo.emptyWorld true)
    = account.GenerateAddress 40.7128 (-74.0060) 256 (Demo.emptyWorld true).
Proof.
  split; [|split].
  - apply (GetOrGenerateAddress_vs_GenerateAddress (Ext := bool)).
    vm_compute. reflexivity.
  - vm_compute. reflexivity.
  - apply (GetOrGenerateAddress_vs_GenerateAddress (Ext := bool)). reflexivity.
Defined.

(** ** Properties of the KEM wrapper and of [NewNetworkAddress] *)

Section KemExtras.
Context {Ext Point Scalar : Type}.
Context `{!Runtime Ext, !GoLib, !Oqs Ext, !Suite Ext Point Scalar, !Zk13 Ext}.
Implicit Types (w : account.World (Ext := Ext)) (e : Ext).

Lemma GenerateQuantumKeyPair_inv e r e' :
  common.GenerateQuantumKeyPair e = (r, e') →
  (r = Err KeyPairFailed)
  ∨ (∃ pk sk, r = Ok (pk, sk)
       ∧ length pk = common.PublicKeySize ∧ length sk = common.SecretKeySize).
Proof.
  unfold common.GenerateQuantumKeyPair.
  destruct (C_generate_keypair e) as [[[status pk] sk] e1].
  destruct (status =? 0)%Z; intros [= <- <-]; [by left|].
  right. do 2 eexists. split; [done|]. by rewrite !fill_length.
Qed.

Lemma Encapsulate_inv publicKey e r e' :
  common.Encapsulate publicKey e = (r, e') →
  (r = Err InvalidPublicKeySize ∧ e' = e ∧ length publicKey ≠ common.PublicKeySize)
  ∨ (length publicKey = common.PublicKeySize
     ∧ (r = Err EncapsulationFailed
        ∨ ∃ ct ss, r = Ok (ct, ss)
            ∧ length ct = common.CiphertextSize
            ∧ length ss = common.SharedSecretSize)).
Proof.
  unfold common.Encapsulate.
  destruct (length publicKey =? common.PublicKeySize)%nat eqn:Hlen; cbn [negb].
  - apply Nat.eqb_eq in Hlen.
    destruct (C_encapsulate publicKey e) as [[[status ct] ss] e1].
    destruct (status =? 0)%Z; intros [= <- <-]; right; (split; [done|]);
      [by left|].
    right. do 2 eexists. split; [done|]. by rewrite !fill_length.
  - apply Nat.eqb_neq in Hlen. intros [= <- <-]. by left.
Qed.

Lemma QuantumDeriveEdwardsPoint_sized pk sk e r e' :
  length pk = common.PublicKeySize → length sk = common.SecretKeySize →
  common.QuantumDeriveEdwardsPoint pk sk e = (r, e') →
  r = Err EncapsulationFailed ∨ ∃ p, r = Ok p.
Proof.
  intros Hpk Hsk. unfold common.QuantumDeriveEdwardsPoint.
  rewrite Hpk, Hsk, !Nat.eqb_refl. cbn [negb orb].
  destruct (common.Encapsulate pk e) as [[[ct ss]|err] e1] eqn:Henc.
  - intros [= <- <-]. right. eauto.
  - apply Encapsulate_inv in Henc as [(_ & _ & Hne)|[_ [[= ->]|(? & ? & ? & _)]]];
      [done| |done].
    intros [= <- <-]. by left.
Qed.

(** X11.  The size contract of the KEM wrapper.  A key pair that
    [GenerateQuantumKeyPair] returns has 800 and 1632 bytes, a ciphertext
    and shared secret that [Encapsulate] returns have 768 and 32 bytes,
    and the result of [QuantumPointMul] has 800 bytes.  [Encapsulate]
    refuses a public key of any other length, and
    [QuantumDeriveEdwardsPoint] and [QuantumPointMul] refuse operands of
    any other lengths, without calling the library. *)
Theorem kem_size_contract e :
  (∀ pk sk e', common.GenerateQuantumKeyPair e = (Ok (pk, sk), e') →
               length pk = 800 ∧ length sk = 1632)
  ∧ (∀ publicKey ct ss e',
       common.Encapsulate publicKey e = (Ok (ct, ss), e') →
       length publicKey = 800 ∧ length ct = 768 ∧ length ss = 32)
  ∧ (∀ point scalar r e',
       common.QuantumPointMul point scalar e = (Ok r, e') →
       length point = 800 ∧ length scalar = 1632 ∧ length r = 800)
  ∧ (∀ publicKey,
       length publicKey ≠ 800 →
       common.Encapsulate publicKey e = (Err InvalidPublicKeySize, e))
  ∧ (∀ a b,
       length a ≠ 800 ∨ length b ≠ 1632 →
       common.QuantumDeriveEdwardsPoint a b e = (Err InvalidInputLengths, e)
       ∧ common.QuantumPointMul a b e = (Err InvalidInputLengths, e)).
Proof.
  split; [|split; [|split; [|split]]].
  - intros pk sk e' Hgen.
    apply GenerateQuantumKeyPair_inv in Hgen as [?|(? & ? & [= <- <-] & ? & ?)]; done.
  - intros publicKey ct ss e' Henc.
    apply Encapsulate_inv in Henc
      as [(? & _)|[? [?|(? & ? & [= <- <-] & ? & ?)]]]; done.
  - intros point scalar r e'. unfold common.QuantumPointMul.
    destruct (length point =? common.PublicKeySize)%nat eqn:Hp; [|done].
    destruct (length scalar =? common.SecretKeySize)%nat eqn:Hs; [|done].
    cbn [negb orb]. apply Nat.eqb_eq in Hp, Hs.
    destruct (common.Encapsulate point e) as [[[ct ss]|err] e1]; [|done].
    intros [= <- <-]. by rewrite fill_length.
  - intros publicKey Hlen. unfold common.Encapsulate.
    apply Nat.eqb_neq in Hlen. unfold common.PublicKeySize. by rewrite Hlen.
  - intros a b Hlen.
    unfold common.QuantumDeriveEdwardsPoint, common.QuantumPointMul.
    assert (negb (length a =? common.PublicKeySize)%nat
            || negb (length b =? common.SecretKeySize)%nat = true) as ->; [|done].
    apply orb_true_iff. rewrite !negb_true_iff, !Nat.eqb_neq. exact Hlen.
Qed.

Lemma GenerateCryptoKeys_inv e r e' :
  account.GenerateCryptoKeys e = (r, e') →
  r = Err (Wrapped "failed to generate quantum key pair" KeyPairFailed)
  ∨ r = Err (Wrapped "failed to derive Edwards point" EncapsulationFailed)
  ∨ ∃ sk pk, r = Ok (sk, pk).
Proof.
  unfold account.GenerateCryptoKeys.
  destruct (Scalar_Pick e) as [classicalPrivateKey e1].
  destruct (common.GenerateQuantumKeyPair e1) as [[[qpk qsk]|err] e2] eqn:Hgen;
    apply GenerateQuantumKeyPair_inv in Hgen
      as [Herr|(pk & sk & Hok & Hpk & Hsk)]; try done.
  - injection Hok as <- <-.
    destruct (common.QuantumDeriveEdwardsPoint qpk qsk e2) as [[p|err] e3] eqn:Hder;
      apply QuantumDeriveEdwardsPoint_sized in Hder as [Herr|[p' Hp]]; try done.
    + intros [= <- <-]. right. right. eauto.
    + injection Herr as ->. intros [= <- <-]. right. by left.
  - injection Herr as ->. intros [= <- <-]. by left.
Qed.

Lemma CommitLocation_inv (scalar : Scalar) location e r e' :
  account.CommitLocation scalar location e = (r, e') →
  r = Err (Wrapped "failed to generate quantum key pair" KeyPairFailed)
  ∨ r = Err (Wrapped "failed to derive Edwards point" EncapsulationFailed)
  ∨ ∃ commitment, r = Ok (scalar, commitment).
Proof.
  unfold account.CommitLocation.
  destruct (common.GenerateQuantumKeyPair e) as [[[qpk qsk]|err] e2] eqn:Hgen;
    apply GenerateQuantumKeyPair_inv in Hgen
      as [Herr|(pk & sk & Hok & Hpk & Hsk)]; try done.
  - injection Hok as <- <-.
    destruct (common.QuantumDeriveEdwardsPoint qpk qsk e2) as [[p|err] e3] eqn:Hder;
      apply QuantumDeriveEdwardsPoint_sized in Hder as [Herr|[p' Hp]]; try done.
    + intros [= <- <-]. right. right. eauto.
    + injection Herr as ->. intros [= <- <-]. right. by left.
  - injection Herr as ->. intros [= <- <-]. by left.
Qed.

(** X12.  [GenerateCryptoKeys] and [CommitLocation] fail in two ways
    only: the key pair could not be generated, or the encapsulation
    failed.  The size checks of the wrapper never fire on the buffers
    they pass along, and [CommitLocation] returns the scalar it was
    given. *)
Theorem key_derivation_failures e :
  (∀ r e', account.GenerateCryptoKeys e = (r, e') →
     r = Err (Wrapped "failed to generate quantum key pair" KeyPairFailed)
     ∨ r = Err (Wrapped "failed to derive Edwards point" EncapsulationFailed)
     ∨ ∃ sk pk, r = Ok (sk, pk))
  ∧ (∀ (scalar : Scalar) location r e',
       account.CommitLocation scalar location e = (r, e') →
       r = Err (Wrapped "failed to generate quantum key pair" KeyPairFailed)
       ∨ r = Err (Wrapped "failed to derive Edwards point" EncapsulationFailed)
       ∨ ∃ commitment, r = Ok (scalar, commitment)).
Proof.
  split; [apply GenerateCryptoKeys_inv|].
  intros scalar location r e' Hcommit. by eapply CommitLocation_inv.
Qed.

End KemExtras.

(** X11 on the demo library, and on a key that is too short. *)
Lemma kem_size_contract_witness :
  (∃ pk sk, common.GenerateQuantumKeyPair true = (Ok (pk, sk), true)
            ∧ length pk = 800 ∧ length sk = 1632)
  ∧ common.Encapsulate [x01] true = (Err InvalidPublicKeySize, true).
Proof.
  destruct (kem_size_contract (Ext := bool) (Point := Z) (Scalar := Z) true)
    as (Hpair & _ & _ & Hshort & _).
  split.
  - destruct (common.GenerateQuantumKeyPair true) as [[[pk sk]|err] e'] eqn:Hgen;
      [|vm_compute in Hgen; discriminate].
    assert (e' = true) as -> by (vm_compute in Hgen; congruence).
    exists pk, sk. split; [reflexivity|]. by apply (Hpair pk sk true).
  - apply Hshort. cbn. lia.
Defined.

(** X12 on a library whose encapsulation fails. *)
Lemma key_derivation_failures_witness :
  (account.GenerateCryptoKeys (Oqs0 := DemoKem.failingOqs) (Point := Z) true).1
    = Err (Wrapped "failed to derive Edwards point" EncapsulationFailed).
Proof.
  destruct (key_derivation_failures (Oqs0 := DemoKem.failingOqs)
              (Ext := bool) (Point := Z) (Scalar := Z) true) as [Hkeys _].
  destruct (account.GenerateCryptoKeys (Oqs0 := DemoKem.failingOqs) (Point := Z) true)
    as [r e'] eqn:Hgen.
  destruct (Hkeys r e' eq_refl) as [->|[->|(sk & pk & ->)]];
    [vm_compute in Hgen; discriminate|reflexivity|vm_compute in Hgen; discriminate].
Defined.

Section NetworkAddressExtras.
Context {Ext Point Scalar : Type}.
Context `{!Runtime Ext, !GoLib, !Oqs Ext, !Suite Ext Point Scalar, !Zk13 Ext}.
Implicit Types (w : account.World (Ext := Ext)) (e : Ext).
Implicit Types (na : account.NetworkAddress (Point := Point) (Scalar := Scalar)).

Lemma ConvertToPrecisionGrid_inv lat lon precision :
  ((precision <=? 0)%float = true
   ∧ account.ConvertToPrecisionGrid lat lon precision = Err PrecisionNotPositive)
  ∨ ((precision <=? 0)%float = false
     ∧ ∃ latIndex longIndex,
         account.ConvertToPrecisionGrid lat lon precision = Ok [latIndex; longIndex]).
Proof.
  unfold account.ConvertToPrecisionGrid.
  destruct (precision <=? 0)%float; [by left|]. right. split; [done|]. eauto.
Qed.

(** How a call of [NewNetworkAddress] ends, case by case. *)
Lemma NewNetworkAddress_inv lat lon w r w' :
  account.NewNetworkAddress lat lon w = (r, w') →
  account.addressCache w' = account.addressCache w
  ∧ ((∃ err, r = Err err ∧ account.nonces w' = account.nonces w)
     ∨ (∃ latIndex longIndex lc sk pk n e,
          r = Ok {| account.AnonGeoLocation := [latIndex; longIndex];
                    account.naLocationCommitment := Some lc;
                    account.PrivateKey := Some sk;
                    account.naPublicKey := Some pk;
                    account.r := None; account.P := None;
                    account.Nonce := n |}
          ∧ account.nonces w'
            = (state.GenerateOrUpdateNonce (account.coordKey lat lon) e
                 (account.nonces w)).2
          ∧ n = (state.GenerateOrUpdateNonce (account.coordKey lat lon) e
                   (account.nonces w)).1.1)).
Proof.
  unfold account.NewNetworkAddress.
  destruct (_ || _); [intros [= <- <-]; split; [done|left; eauto]|].
  destruct (_ || _); [intros [= <- <-]; split; [done|left; eauto]|].
  destruct (account.GenerateCryptoKeys _) as [[[sk pk]|err] e1];
    [|intros [= <- <-]; split; [done|left; eauto]].
  unfold account.GetDynamicPrecision.
  destruct (ConvertToPrecisionGrid_inv lat lon 100)
    as [[Hle _]|[_ (latIndex & longIndex & ->)]]; [done|].
  unfold account.Bytes.
  destruct (account.CommitLocation _ _ _) as [[[sk' lc]|err] e2];
    [|intros [= <- <-]; split; [done|left; eauto]].
  destruct (state.GenerateOrUpdateNonce _ e2 _) as [[n e3] nonces'] eqn:Hnonce.
  intros [= <- <-]. split; [done|]. right.
  exists latIndex, longIndex, lc, sk, pk, n, e2. by rewrite Hnonce.
Qed.

(** X13.  [NewNetworkAddress] checks the latitude first and the
    longitude second, and in both cases fails with the bare validation
    error and touches nothing.  Whatever its outcome it leaves the
    address cache alone, changes no registry entry other than the one
    under the coordinate key, and keeps the registry well-formed. *)
Theorem NewNetworkAddress_effects lat lon w :
  (outside_interval (-90) 90 lat →
   account.NewNetworkAddress lat lon w = (Err (InvalidLatitude lat), w))
  ∧ ((lat <? -90)%float || (90 <? lat)%float = false →
     outside_interval (-180) 180 lon →
     account.NewNetworkAddress lat lon w = (Err (InvalidLongitude lon), w))
  ∧ account.addressCache (account.NewNetworkAddress lat lon w).2
    = account.addressCache w
  ∧ (∀ k, k ≠ account.coordKey lat lon →
          account.nonces (account.NewNetworkAddress lat lon w).2 !! k
            = account.nonces w !! k)
  ∧ (registry_wf (account.nonces w) →
     registry_wf (account.nonces (account.NewNetworkAddress lat lon w).2)).
Proof.
  split; [|split].
  - intros [Hlo|Hhi]; unfold account.NewNetworkAddress; rewrite ?Hlo, ?Hhi;
      [done|]. by rewrite orb_true_r.
  - intros Hlat [Hlo|Hhi]; unfold account.NewNetworkAddress; rewrite Hlat, ?Hlo, ?Hhi;
      [done|]. by rewrite orb_true_r.
  - destruct (account.NewNetworkAddress lat lon w) as [r w'] eqn:Hnew.
    apply NewNetworkAddress_inv in Hnew
      as [Hcache [(err & _ & Hn)|(? & ? & ? & ? & ? & ? & e & _ & Hn & _)]];
      cbn [snd]; (split; [done|]); rewrite Hn.
    + by split.
    + split.
      * intros k Hk. by apply GenerateOrUpdateNonce_other.
      * intros Hwf. by apply registry_wf_GenerateOrUpdateNonce.
Qed.

(** X14.  [GenerateZKP] fails exactly when the location of the receiver
    is empty, and then leaves receiver and outside world as they were;
    otherwise it sets [r] and [P] and changes no other field.  An address
    returned by [NewNetworkAddress] has a location of two indices and no
    proof yet, so that [GenerateZKP] does not fail on it. *)
Theorem GenerateZKP_effects na bits e :
  (account.AnonGeoLocation na = [] →
   account.GenerateZKP na bits e = (na, Some EmptyAnonGeoLocation, e))
  ∧ (account.AnonGeoLocation na ≠ [] →
     let na' := (account.GenerateZKP na bits e).1.1 in
     (account.GenerateZKP na bits e).1.2 = None
     ∧ is_Some (account.r na') ∧ is_Some (account.P na')
     ∧ account.AnonGeoLocation na' = account.AnonGeoLocation na
     ∧ account.naLocationCommitment na' = account.naLocationCommitment na
     ∧ account.PrivateKey na' = account.PrivateKey na
     ∧ account.naPublicKey na' = account.naPublicKey na
     ∧ account.Nonce na' = account.Nonce na)
  ∧ (∀ lat lon w w',
       account.NewNetworkAddress lat lon w = (Ok na, w') →
       length (account.AnonGeoLocation na) = 2
       ∧ account.r na = None ∧ account.P na = None
       ∧ (account.GenerateZKP na bits e).1.2 = None).
Proof.
  assert (Hok : account.AnonGeoLocation na ≠ [] →
     let na' := (account.GenerateZKP na bits e).1.1 in
     (account.GenerateZKP na bits e).1.2 = None
     ∧ is_Some (account.r na') ∧ is_Some (account.P na')
     ∧ account.AnonGeoLocation na' = account.AnonGeoLocation na
     ∧ account.naLocationCommitment na' = account.naLocationCommitment na
     ∧ account.PrivateKey na' = account.PrivateKey na
     ∧ account.naPublicKey na' = account.naPublicKey na
     ∧ account.Nonce na' = account.Nonce na).
  { intros Hne. cbv zeta. unfold account.GenerateZKP.
    destruct (account.AnonGeoLocation na) as [|z q] eqn:Hq; [done|].
    destruct (zk13_Prover _ _ _ _) as [[R P'] e1]. cbn.
    repeat split; eauto. }
  split; [|split; [exact Hok|]].
  - intros Hq. unfold account.GenerateZKP. by rewrite Hq.
  - intros lat lon w w' Hnew.
    apply NewNetworkAddress_inv in Hnew
      as [_ [(err & ? & _)|(? & ? & ? & ? & ? & ? & ? & [= Hna] & _)]]; [done|].
    assert (account.AnonGeoLocation na ≠ []) as Hne by (by rewrite Hna).
    destruct (Hok Hne) as (Herr & _). rewrite Hna in *. done.
Qed.

(** X15.  The method [Set] either replaces the receiver by a location of
    two indices or, when [precision <= 0], fails and leaves the receiver
    as it was; what the receiver held before has no influence on what it
    holds after a successful call. *)
Theorem SafeLatitudeLongitude_Set_effects (s : list Z) lat lon precision :
  ((precision <=? 0)%float = true →
   account.SafeLatitudeLongitude_Set s lat lon precision
     = (s, Some PrecisionNotPositive))
  ∧ ((precision <=? 0)%float = false →
     (account.SafeLatitudeLongitude_Set s lat lon precision).2 = None
     ∧ length (account.SafeLatitudeLongitude_Set s lat lon precision).1 = 2
     ∧ ∀ s', (account.SafeLatitudeLongitude_Set s' lat lon precision).1
             = (account.SafeLatitudeLongitude_Set s lat lon precision).1).
Proof.
  unfold account.SafeLatitudeLongitude_Set.
  split; intros Hp.
  - destruct (ConvertToPrecisionGrid_inv lat lon precision)
      as [[_ ->]|[Hf _]]; [done|congruence].
  - destruct (ConvertToPrecisionGrid_inv lat lon precision)
      as [[Ht _]|[_ (a & b & ->)]]; [congruence|done].
Qed.

End NetworkAddressExtras.

(** X13: both coordinates out of range: the latitude is reported. *)
Lemma NewNetworkAddress_effects_witness :
  account.NewNetworkAddress 91 181 (Demo.emptyWorld true)
    = (Err (InvalidLatitude 91), Demo.emptyWorld true)
  ∧ account.NewNetworkAddress 0 181 (Demo.emptyWorld true)
    = (Err (InvalidLongitude 181), Demo.emptyWorld true).
Proof.
  split.
  - apply (NewNetworkAddress_effects (Ext := bool)). right. reflexivity.
  - destruct (NewNetworkAddress_effects (Ext := bool) 0 181 (Demo.emptyWorld true))
      as (_ & Hlon & _).
    apply Hlon; [reflexivity|]. right. reflexivity.
Defined.

(** X14: [TestGenerateZKP], the empty address and the one for New York. *)
Lemma GenerateZKP_effects_witness :
  (∃ na w',
     account.NewNetworkAddress 40.7128 (-74.0060) (Demo.emptyWorld true) = (Ok na, w')
     ∧ (account.GenerateZKP na 256 true).1.2 = None)
  ∧ account.GenerateZKP DemoKem.emptyAddress 256 true
    = (DemoKem.emptyAddress, Some EmptyAnonGeoLocation, true).
Proof.
  split.
  - destruct (account.NewNetworkAddress 40.7128 (-74.0060) (Demo.emptyWorld true))
      as [[na|err] w'] eqn:Hnew; [|vm_compute in Hnew; discriminate].
    exists na, w'. split; [reflexivity|].
    destruct (GenerateZKP_effects (Ext := bool) na 256 true) as (_ & _ & Hmade).
    by destruct (Hmade _ _ _ _ Hnew) as (_ & _ & _ & Hok).
  - by apply (GenerateZKP_effects (Ext := bool) DemoKem.emptyAddress 256 true).
Defined.

(** X15: a precision of zero is refused, one that is not a number is not. *)
Lemma SafeLatitudeLongitude_Set_effects_witness :
  account.SafeLatitudeLongitude_Set [1; 2]%Z 40.7128 (-74.0060) 0
    = ([1; 2]%Z, Some PrecisionNotPositive)
  ∧ (account.SafeLatitudeLongitude_Set [1; 2]%Z 40.7128 (-74.0060) nan).2 = None.
Proof.
  split.
  - by apply (SafeLatitudeLongitude_Set_effects [1; 2]%Z).
  - by apply (SafeLatitudeLongitude_Set_effects [1; 2]%Z 40.7128 (-74.0060) nan).
Defined.

Section RegistryExtras.
Context {Ext : Type} `{!Runtime Ext}.
Implicit Types (nonces : gmap string state.Nonce) (e : Ext) (n : state.Nonce).

(** X16.  Asking again gives the same nonce: when
    [GenerateOrUpdateNonce address] has returned [n] and is called again
    while [n] is not older than 3600 seconds, it returns [n] and leaves
    the registry as it is; no randomness is drawn. *)
Theorem GenerateOrUpdateNonce_repeat address e nonces n e1 nonces1 :
  state.GenerateOrUpdateNonce address e nonces = (Some n, e1, nonces1) →
  (age (clock e1) n ≤ 3600)%Z →
  state.GenerateOrUpdateNonce address e1 nonces1 = (Some n, ticked e1, nonces1).
Proof.
  intros Hfirst Hage.
  rewrite GenerateOrUpdateNonce_eq, (GenerateOrUpdateNonce_stored _ _ _ _ _ _ Hfirst).
  apply Z.leb_le in Hage. unfold state.nonceLifetime. by rewrite Hage.
Qed.

Lemma PruneExpiredNonces_lookup e nonces key :
  (state.PruneExpiredNonces e nonces).2 !! key =
    match nonces !! key with
    | Some n => if (age (clock e) n >? state.nonceLifetime)%Z then None else Some n
    | None => None
    end.
Proof. rewrite PruneExpiredNonces_eq. by apply pruneLoop_lookup. Qed.

(** X17.  What a sweep leaves behind.  The registry after
    [PruneExpiredNonces] is a part of the registry before, none of its
    entries is older than 3600 seconds at the time of the sweep, a
    registry without such entries is left as it is, and a second sweep at
    the same clock reading removes nothing more. *)
Theorem PruneExpiredNonces_sweep e nonces :
  let pruned := (state.PruneExpiredNonces e nonces).2 in
  pruned ⊆ nonces
  ∧ map_Forall (λ _ n, (age (clock e) n ≤ 3600)%Z) pruned
  ∧ (map_Forall (λ _ n, (age (clock e) n ≤ 3600)%Z) nonces → pruned = nonces)
  ∧ (∀ e2, clock e2 = clock e → (state.PruneExpiredNonces e2 pruned).2 = pruned).
Proof.
  cbv zeta.
  assert (Hfresh : ∀ m : gmap string state.Nonce, ∀ e2,
            map_Forall (λ _ n, (age (clock e2) n ≤ 3600)%Z) m →
            (state.PruneExpiredNonces e2 m).2 = m).
  { intros m e2 Hall. apply map_eq. intros key.
    rewrite PruneExpiredNonces_lookup.
    destruct (m !! key) as [n|] eqn:Hk; [|done].
    specialize (Hall key n Hk). cbn in Hall. unfold state.nonceLifetime.
    destruct (_ >? _)%Z eqn:Hgt; [|done].
    rewrite Z.gtb_ltb in Hgt. apply Z.ltb_lt in Hgt. lia. }
  assert (Hall : map_Forall (λ _ n, (age (clock e) n ≤ 3600)%Z)
                   (state.PruneExpiredNonces e nonces).2).
  { intros key n. rewrite PruneExpiredNonces_lookup.
    destruct (nonces !! key) as [n'|]; [|done]. unfold state.nonceLifetime.
    destruct (_ >? _)%Z eqn:Hgt; [done|]. intros [= <-].
    rewrite Z.gtb_ltb in Hgt. apply Z.ltb_ge in Hgt. exact Hgt. }
  split; [|split; [exact Hall|split; [apply Hfresh|]]].
  - apply map_subseteq_spec. intros key n. rewrite PruneExpiredNonces_lookup.
    destruct (nonces !! key) as [n'|]; [|done].
    by destruct (_ >? _)%Z.
  - intros e2 Hclock. apply Hfresh. by rewrite Hclock.
Qed.

Lemma registry_sized_step (st : Ext * gmap string state.Nonce) op :
  registry_sized st.2 → registry_sized (registry_step st op).2.
Proof.
  destruct st as [e nonces]. cbn [snd]. intros Hsized.
  destruct op as [address|address n|]; cbn [registry_step].
  - assert (∀ e', registry_sized (state.generateFresh address e' nonces).2) as Hfresh.
    { intros e'. rewrite generateFresh_eq.
      destruct (rand_Read _ e') as [[written|] e1]; [|done]. cbv zeta. cbn [snd].
      apply map_Forall_insert_2; [apply fill_length|done]. }
    destruct (state.GenerateOrUpdateNonce address e nonces) as [[o e'] nonces'] eqn:Hgen.
    cbn. rewrite GenerateOrUpdateNonce_eq in Hgen.
    destruct (nonces !! address) as [n|].
    + destruct (_ <=? _)%Z; [by injection Hgen as _ _ <-|].
      specialize (Hfresh (ticked e)). by rewrite Hgen in Hfresh.
    + specialize (Hfresh e). by rewrite Hgen in Hfresh.
  - done.
  - intros key n. rewrite PruneExpiredNonces_lookup.
    destruct (nonces !! key) as [n'|] eqn:Hk; [|done].
    destruct (_ >? _)%Z; [done|]. intros [= <-]. by apply (Hsized key).
Qed.

(** X18.  Every nonce the registry ever holds has a value of exactly 32
    bytes: this is so after any sequence of [GenerateOrUpdateNonce],
    [ValidateNonce] and [PruneExpiredNonces] started on the empty
    registry, whatever the randomness source wrote. *)
Theorem registry_values_have_32_bytes (ops : list registry_op) (e : Ext) :
  registry_sized (foldl registry_step (e, ∅) ops).2
  ∧ ∀ address n,
      (foldl registry_step (e, ∅) ops).2 !! address = Some n →
      length (state.Value n) = 32 ∧ state.Address n = address.
Proof.
  assert (∀ st : Ext * gmap string state.Nonce,
            registry_sized st.2 ∧ registry_wf st.2 →
            registry_sized (foldl registry_step st ops).2
            ∧ registry_wf (foldl registry_step st ops).2) as Hrun.
  { induction ops as [|op ops IH]; intros st [Hs Hwf]; [done|].
    cbn [foldl]. apply IH. split; [by apply registry_sized_step|].
    by apply registry_wf_step. }
  destruct (Hrun (e, ∅)) as [Hs Hwf].
  { split; apply map_Forall_empty. }
  split; [exact Hs|]. intros address n Hn. split; [by apply (Hs address)|].
  by destruct (Hwf address n Hn).
Qed.

(** X19.  A nonce stamped ahead of the clock does not age.  While the
    clock reads less than the timestamp of the stored nonce (the clock
    was set back, say), the nonce counts as fresh whatever the distance:
    [GenerateOrUpdateNonce] returns it, [ValidateNonce] accepts it and
    [PruneExpiredNonces] keeps it. *)
Theorem nonce_ahead_of_clock_is_fresh address n e nonces :
  nonces !! address = Some n →
  (clock e ≤ state.Timestamp n)%Z →
  (state.Timestamp n - clock e < 2 ^ 63)%Z →
  state.GenerateOrUpdateNonce address e nonces = (Some n, ticked e, nonces)
  ∧ (state.ValidateNonce address n e nonces).1 = true
  ∧ (state.PruneExpiredNonces e nonces).2 !! address = Some n.
Proof.
  intros Hn Hahead Hrange.
  assert (age (clock e) n ≤ 0)%Z as Hage.
  { rewrite age_exact; lia. }
  split; [|split].
  - rewrite GenerateOrUpdateNonce_eq, Hn. unfold state.nonceLifetime.
    destruct (_ <=? _)%Z eqn:Hle; [done|]. apply Z.leb_gt in Hle. lia.
  - apply ValidateNonce_true. exists n. unfold state.nonceLifetime.
    repeat split; [done|lia].
  - rewrite PruneExpiredNonces_lookup, Hn. unfold state.nonceLifetime.
    destruct (_ >? _)%Z eqn:Hgt; [|done].
    rewrite Z.gtb_ltb in Hgt. apply Z.ltb_lt in Hgt. lia.
Qed.

End RegistryExtras.

(** X16 on the demo registry: Carol asks twice. *)
Lemma GenerateOrUpdateNonce_repeat_witness :
  state.GenerateOrUpdateNonce "carol" true
    (<["carol" := DemoRegistry.issued]> DemoRegistry.registry)
  = (Some DemoRegistry.issued, true,
     <["carol" := DemoRegistry.issued]> DemoRegistry.registry).
Proof.
  assert (state.GenerateOrUpdateNonce "carol" true DemoRegistry.registry
          = (Some DemoRegistry.issued, true,
             <["carol" := DemoRegistry.issued]> DemoRegistry.registry)) as Hfirst
    by (vm_compute; reflexivity).
  assert (age (clock true) DemoRegistry.issued ≤ 3600)%Z as Hage
    by (vm_compute; discriminate).
  exact (GenerateOrUpdateNonce_repeat (Ext := bool) _ _ _ _ _ _ Hfirst Hage).
Defined.

(** X17 on the demo registry: a second sweep changes nothing. *)
Lemma PruneExpiredNonces_sweep_witness :
  (state.PruneExpiredNonces true
     (state.PruneExpiredNonces true DemoRegistry.registry).2).2
  = (state.PruneExpiredNonces true DemoRegistry.registry).2.
Proof.
  destruct (PruneExpiredNonces_sweep (Ext := bool) true DemoRegistry.registry)
    as (_ & _ & _ & Hagain).
  apply Hagain. reflexivity.
Defined.

(** X18 along a run: Alice's nonce has 32 bytes. *)
Lemma registry_values_have_32_bytes_witness :
  length (state.Value (Demo.someNonce "alice" 1700000000)) = 32.
Proof.
  destruct (registry_values_have_32_bytes (Ext := bool)
              [OpGenerateOrUpdateNonce "alice"; OpPruneExpiredNonces] true)
    as [_ Hall].
  apply (Hall "alice"). vm_compute. reflexivity.
Defined.

(** X19: a nonce stamped 500 seconds ahead of the clock. *)
Lemma nonce_ahead_of_clock_is_fresh_witness :
  (state.ValidateNonce "alice" (Demo.someNonce "alice" 1700000500) true
     {[ "alice" := Demo.someNonce "alice" 1700000500 ]}).1 = true.
Proof.
  apply (nonce_ahead_of_clock_is_fresh (Ext := bool) "alice"
           (Demo.someNonce "alice" 1700000500) true);
    vm_compute; first [reflexivity|discriminate].
Defined.

(** ** Properties of the account manager *)

Section LedgerFacts.
Implicit Types (am : ledger.AccountManager) (order : list string).

Lemma ltb_nan_r (x : float) : (x <? nan)%float = false.
Proof.
  rewrite ltb_spec. change (Prim2SF nan) with S754_nan.
  unfold SFltb. destruct (Prim2SF x) as [s|s| |s m e]; try reflexivity;
    cbn; by destruct s.
Qed.

Lemma indexFrom_found i order address :
  address ∈ order →
  (i ≤ ledger.indexFrom i order address < i + Z.of_nat (length order))%Z.
Proof.
  revert i. induction order as [|addr order IH]; intros i Hin.
  - by apply elem_of_nil in Hin.
  - cbn [ledger.indexFrom length]. destruct (decide (addr = address)); [lia|].
    apply elem_of_cons in Hin as [?|Hin]; [congruence|].
    specialize (IH (i + 1)%Z Hin). lia.
Qed.

Lemma rangeOrder_length am order :
  rangeOrder am order → length order = size (ledger.accounts am).
Proof.
  unfold rangeOrder. intros ->. by rewrite length_fmap, length_map_to_list.
Qed.

Lemma rangeOrder_elem am order address :
  rangeOrder am order →
  is_Some (ledger.accounts am !! address) → address ∈ order.
Proof.
  unfold rangeOrder. intros -> [a Ha].
  apply list_elem_of_fmap. exists (address, a). split; [done|].
  by apply elem_of_map_to_list.
Qed.

Lemma dense_Set_in_range i v (m : list float) :
  (0 ≤ i < Z.of_nat (length m))%Z →
  ledger.dense_Set i v m = Return (<[Z.to_nat i := v]> m).
Proof.
  intros Hi. unfold ledger.dense_Set.
  assert ((0 <=? i)%Z && (i <? Z.of_nat (length m))%Z = true) as ->; [|done].
  apply andb_true_iff. rewrite Z.leb_le, Z.ltb_lt. lia.
Qed.

Lemma copyInto_snoc (st : list float) (v : float) :
  <[length st := v]> (ledger.copyInto (length st + 1) st) = st ++ [v].
Proof.
  unfold ledger.copyInto.
  rewrite take_app_ge by lia.
  replace (length st + 1 - length st) with 1 by lia.
  replace (length st + 1) with (S (length st)) by lia. cbn [replicate take].
  rewrite insert_app_r_alt by lia. by rewrite Nat.sub_diag.
Qed.

(** How a call of [Transfer] ends, case by case. *)
Lemma Transfer_inv order1 order2 from to amount am :
  (ledger.accounts am !! from = None
   ∧ ledger.Transfer order1 order2 from to amount am
     = (Return (Some ledger.SenderNotFound), am))
  ∨ (is_Some (ledger.accounts am !! from) ∧ ledger.accounts am !! to = None
     ∧ ledger.Transfer order1 order2 from to amount am
       = (Return (Some ledger.RecipientNotFound), am))
  ∨ (∃ a, ledger.accounts am !! from = Some a
       ∧ is_Some (ledger.accounts am !! to)
       ∧ (ledger.Balance a <? amount)%float = true
       ∧ ledger.Transfer order1 order2 from to amount am
         = (Return (Some ledger.InsufficientFunds), am))
  ∨ (∃ a, ledger.accounts am !! from = Some a
       ∧ is_Some (ledger.accounts am !! to)
       ∧ (ledger.Balance a <? amount)%float = false
       ∧ ledger.accounts (ledger.Transfer order1 order2 from to amount am).2
         = alter (ledger.deposit amount) to
             (alter (ledger.withdraw amount) from (ledger.accounts am))
       ∧ length (ledger.state (ledger.Transfer order1 order2 from to amount am).2)
         = length (ledger.state am)
       ∧ ((ledger.Transfer order1 order2 from to amount am).1 = Return None
          ∨ (ledger.Transfer order1 order2 from to amount am).1 = Panic
            ∧ ¬ ((0 ≤ ledger.getAccountIndex order1 from
                    < Z.of_nat (length (ledger.state am)))%Z
                 ∧ (0 ≤ ledger.getAccountIndex order2 to
                      < Z.of_nat (length (ledger.state am)))%Z))).
Proof.
  unfold ledger.Transfer.
  destruct (ledger.accounts am !! from) as [a|] eqn:Hfrom; [|by left].
  destruct (ledger.accounts am !! to) as [b|] eqn:Hto; [|right; left; eauto].
  destruct (ledger.Balance a <? amount)%float eqn:Hfunds.
  { right. right. left. exists a. eauto. }
  right. right. right. exists a. split; [done|]. split; [eauto|]. split; [done|].
  cbv zeta.
  set (i1 := ledger.getAccountIndex order1 from).
  set (i2 := ledger.getAccountIndex order2 to).
  assert (∀ i v (m : list float),
            (∃ m', (if (i =? -1)%Z then Return m else ledger.dense_Set i v m) = Return m'
                   ∧ length m' = length m)
            ∨ ((if (i =? -1)%Z then Return m else ledger.dense_Set i v m) = Panic
               ∧ ¬ (0 ≤ i < Z.of_nat (length m))%Z)) as Hset.
  { intros i v m. destruct (i =? -1)%Z eqn:Hi; [left; eauto|].
    unfold ledger.dense_Set.
    destruct ((0 <=? i)%Z && (i <? Z.of_nat (length m))%Z) eqn:Hr.
    - left. eexists. split; [done|]. by rewrite length_insert.
    - right. split; [done|]. apply andb_false_iff in Hr.
      rewrite Z.leb_gt, Z.ltb_ge in Hr. lia. }
  destruct (Hset i1 (match alter (ledger.deposit amount) to
                             (alter (ledger.withdraw amount) from (ledger.accounts am))
                             !! from with Some a0 => ledger.Balance a0 | None => 0%float end)
              (ledger.state am)) as [(m1 & -> & Hlen1)|[-> Hout]].
  - destruct (Hset i2 (match alter (ledger.deposit amount) to
                               (alter (ledger.withdraw amount) from (ledger.accounts am))
                               !! to with Some a0 => ledger.Balance a0 | None => 0%float end)
                m1) as [(m2 & -> & Hlen2)|[-> Hout]]; cbn.
    + split; [done|]. split; [lia|]. by left.
    + split; [done|]. split; [done|]. right. split; [done|].
      intros [_ ?]. apply Hout. lia.
  - cbn. split; [done|]. split; [done|]. right. split; [done|]. tauto.
Qed.

End LedgerFacts.

Section LedgerClaims.
Implicit Types (am : ledger.AccountManager) (order : list string).

Lemma size_alter_account (f : ledger.Account → ledger.Account) k
    (m : gmap string ledger.Account) :
  size (alter f k m) = size m.
Proof. by rewrite <- !size_dom, dom_alter_L. Qed.

(** X20.  The state matrix always has one row more than there are
    accounts: this holds of a new manager and is kept by [CreateAccount]
    and by [Transfer].  Hence the two row updates of [Transfer] are
    always in range, whatever the order in which the map is ranged over:
    [Transfer] does not panic. *)
Theorem ledger_matrix_rows :
  ledgerOk ledger.NewAccountManager
  ∧ (∀ address balance am,
       ledgerOk am → ledgerOk (ledger.CreateAccount address balance am).2)
  ∧ (∀ order1 order2 from to amount am,
       ledgerOk am → rangeOrder am order1 → rangeOrder am order2 →
       (ledger.Transfer order1 order2 from to amount am).1 ≠ Panic
       ∧ ledgerOk (ledger.Transfer order1 order2 from to amount am).2).
Proof.
  split; [done|]. split.
  - intros address balance am Hok. unfold ledger.CreateAccount.
    destruct (ledger.accounts am !! address) eqn:Hfind; [done|].
    unfold ledgerOk in *. cbn.
    rewrite copyInto_snoc, length_app, map_size_insert_None by done.
    cbn. lia.
  - intros order1 order2 from to amount am Hok Ho1 Ho2.
    destruct (Transfer_inv order1 order2 from to amount am)
      as [[_ ->]|[(_ & _ & ->)|[(a & _ & _ & _ & ->)
          |(a & Hfrom & Hto & _ & Hacc & Hlen & Hout)]]]; [done..|].
    assert (ledgerOk (ledger.Transfer order1 order2 from to amount am).2) as Hok'.
    { unfold ledgerOk in *. by rewrite Hlen, Hacc, !size_alter_account. }
    split; [|done]. destruct Hout as [->|[_ Hbad]]; [done|].
    exfalso. apply Hbad. unfold ledgerOk in Hok. unfold ledger.getAccountIndex.
    pose proof (indexFrom_found 0 order1 from
                  (rangeOrder_elem am order1 from Ho1 (mk_is_Some _ _ Hfrom))).
    pose proof (indexFrom_found 0 order2 to (rangeOrder_elem am order2 to Ho2 Hto)).
    rewrite (rangeOrder_length am order1 Ho1) in *.
    rewrite (rangeOrder_length am order2 Ho2) in *. lia.
Qed.

(** X21.  [CreateAccount] refuses an address that is taken and changes
    nothing; for a free address it succeeds, after which [GetBalance]
    gives the initial balance for it and what it gave before for every
    other address, and the matrix has one more row, holding the initial
    balance.  [GetBalance] of an unknown address is an error. *)
Theorem CreateAccount_effects address balance am :
  (is_Some (ledger.accounts am !! address) →
   ledger.CreateAccount address balance am = (Some ledger.AccountExists, am))
  ∧ (ledger.accounts am !! address = None →
     let am' := (ledger.CreateAccount address balance am).2 in
     (ledger.CreateAccount address balance am).1 = None
     ∧ ledger.GetBalance address am' = (balance, None)
     ∧ (∀ other, other ≠ address →
                 ledger.GetBalance other am' = ledger.GetBalance other am)
     ∧ ledger.state am' = ledger.state am ++ [balance]
     ∧ ledger.GetBalance address am = (0%float, Some ledger.AccountNotFound)).
Proof.
  unfold ledger.CreateAccount. split.
  - intros [a Ha]. by rewrite Ha.
  - intros Hfree. rewrite Hfree. cbv zeta. cbn [fst snd].
    unfold ledger.GetBalance. cbn [ledger.accounts ledger.state].
    rewrite lookup_insert_eq, copyInto_snoc, Hfree.
    repeat split; try done.
    intros other Hne. by rewrite lookup_insert_ne.
Qed.

(** X22.  A refused [Transfer] changes nothing.  The sender is looked up
    first, the recipient second, the funds last, and whenever [Transfer]
    returns an error the manager is exactly as before.  An amount that is
    not a number is never refused for lack of funds. *)
Theorem Transfer_refusals order1 order2 from to amount am :
  (∀ err, (ledger.Transfer order1 order2 from to amount am).1 = Return (Some err) →
          (ledger.Transfer order1 order2 from to amount am).2 = am)
  ∧ (ledger.accounts am !! from = None →
     (ledger.Transfer order1 order2 from to amount am).1
       = Return (Some ledger.SenderNotFound))
  ∧ (is_Some (ledger.accounts am !! from) → ledger.accounts am !! to = None →
     (ledger.Transfer order1 order2 from to amount am).1
       = Return (Some ledger.RecipientNotFound))
  ∧ (∀ a, ledger.accounts am !! from = Some a →
          is_Some (ledger.accounts am !! to) →
          (ledger.Balance a <? amount)%float = true →
          (ledger.Transfer order1 order2 from to amount am).1
            = Return (Some ledger.InsufficientFunds))
  ∧ (ledger.Transfer order1 order2 from to nan am).1
      ≠ Return (Some ledger.InsufficientFunds).
Proof.
  split; [|split; [|split; [|split]]].
  - intros err Herr.
    destruct (Transfer_inv order1 order2 from to amount am)
      as [[_ ->]|[(_ & _ & ->)|[(a & _ & _ & _ & ->)
          |(a & _ & _ & _ & _ & _ & [Hout|[Hout _]])]]]; try done;
      rewrite Hout in Herr; done.
  - intros Hfrom. unfold ledger.Transfer. by rewrite Hfrom.
  - intros [a Hfrom] Hto. unfold ledger.Transfer. by rewrite Hfrom, Hto.
  - intros a Hfrom [b Hto] Hfunds. unfold ledger.Transfer.
    by rewrite Hfrom, Hto, Hfunds.
  - destruct (Transfer_inv order1 order2 from to nan am)
      as [[_ ->]|[(_ & _ & ->)|[(a & _ & _ & Hlt & _)
          |(a & _ & _ & _ & _ & _ & [->|[-> _]])]]]; try done.
    by rewrite ltb_nan_r in Hlt.
Qed.

(** X23.  A [Transfer] that succeeds moves the amount and nothing else:
    both accounts existed and the sender's balance was not below the
    amount; the set of accounts is unchanged and so is every third
    account; between two different accounts the sender has its balance
    less the amount and the recipient its balance plus the amount; from
    an account to itself the balance is first lowered and then raised. *)
Theorem Transfer_moves_balance order1 order2 from to amount am :
  (ledger.Transfer order1 order2 from to amount am).1 = Return None →
  let am' := (ledger.Transfer order1 order2 from to amount am).2 in
  ∃ a b,
    ledger.accounts am !! from = Some a
    ∧ ledger.accounts am !! to = Some b
    ∧ (ledger.Balance a <? amount)%float = false
    ∧ dom (ledger.accounts am') = dom (ledger.accounts am)
    ∧ (∀ other, other ≠ from → other ≠ to →
                ledger.accounts am' !! other = ledger.accounts am !! other)
    ∧ (from ≠ to →
       ledger.GetBalance from am' = ((ledger.Balance a - amount)%float, None)
       ∧ ledger.GetBalance to am' = ((ledger.Balance b + amount)%float, None))
    ∧ (from = to →
       ledger.GetBalance from am'
         = ((ledger.Balance a - amount + amount)%float, None)).
Proof.
  intros Hok. cbv zeta.
  destruct (Transfer_inv order1 order2 from to amount am)
    as [[_ Heq]|[(_ & _ & Heq)|[(a & _ & _ & _ & Heq)
        |(a & Hfrom & [b Hto] & Hfunds & Hacc & _ & _)]]];
    try (rewrite Heq in Hok; done).
  exists a, b. split; [done|]. split; [done|]. split; [done|].
  rewrite Hacc. unfold ledger.GetBalance. split; [by rewrite !dom_alter_L|].
  split; [|split].
  - intros other Hf Ht. by rewrite !lookup_alter_ne.
  - intros Hne. assert (to ≠ from) as Hne' by congruence. rewrite Hacc.
    rewrite (lookup_alter_ne (ledger.deposit amount) _ to from Hne').
    rewrite !lookup_alter_eq, Hfrom.
    rewrite (lookup_alter_ne (ledger.withdraw amount) _ from to Hne).
    by rewrite Hto.
  - intros <-. by rewrite Hacc, !lookup_alter_eq, Hfrom.
Qed.

End LedgerClaims.

(** X20 with two accounts, ranged over in both orders. *)
Lemma ledger_matrix_rows_witness :
  ledgerOk DemoLedger.two
  ∧ ledgerOk (ledger.Transfer ["alice"; "bob"] ["bob"; "alice"]
                "alice" "bob" 3 DemoLedger.two).2.
Proof.
  destruct ledger_matrix_rows as (Hnew & Hcreate & Htransfer).
  assert (ledgerOk DemoLedger.two) as Htwo by (by apply Hcreate, Hcreate).
  split; [exact Htwo|].
  apply Htransfer; [exact Htwo| |]; unfold rangeOrder; vm_compute;
    first [reflexivity|apply perm_swap].
Defined.

(** X21: Alice cannot open twice; Carol can open. *)
Lemma CreateAccount_effects_witness :
  ledger.CreateAccount "alice" 1 DemoLedger.two
    = (Some ledger.AccountExists, DemoLedger.two)
  ∧ ledger.GetBalance "carol" (ledger.CreateAccount "carol" 2 DemoLedger.two).2
    = (2%float, None).
Proof.
  split.
  - apply (CreateAccount_effects "alice" 1 DemoLedger.two). vm_compute. eauto.
  - destruct (CreateAccount_effects "carol" 2 DemoLedger.two) as [_ Hfree].
    by destruct Hfree as (_ & Hbalance & _); [vm_compute|].
Defined.

(** X22: an unknown sender, and a sender short of funds. *)
Lemma Transfer_refusals_witness :
  (ledger.Transfer [] [] "carol" "dave" 1 DemoLedger.two).1
    = Return (Some ledger.SenderNotFound)
  ∧ (ledger.Transfer [] [] "bob" "alice" 6 DemoLedger.two).2 = DemoLedger.two.
Proof.
  destruct (Transfer_refusals [] [] "carol" "dave" 1 DemoLedger.two)
    as (_ & Hsender & _).
  destruct (Transfer_refusals [] [] "bob" "alice" 6 DemoLedger.two)
    as (Hkept & _).
  split.
  - apply Hsender. vm_compute. reflexivity.
  - apply (Hkept ledger.InsufficientFunds). vm_compute. reflexivity.
Defined.

(** X23: three from Alice to Bob. *)
Lemma Transfer_moves_balance_witness :
  ∃ a b,
    ledger.accounts DemoLedger.two !! "alice" = Some a
    ∧ ledger.accounts DemoLedger.two !! "bob" = Some b
    ∧ ledger.GetBalance "alice"
        (ledger.Transfer ["alice"; "bob"] ["bob"; "alice"] "alice" "bob" 3
           DemoLedger.two).2
      = ((ledger.Balance a - 3)%float, None).
Proof.
  destruct (Transfer_moves_balance ["alice"; "bob"] ["bob"; "alice"]
              "alice" "bob" 3 DemoLedger.two)
    as (a & b & Ha & Hb & _ & _ & _ & Hmoved & _).
  { vm_compute. reflexivity. }
  exists a, b. split; [exact Ha|]. split; [exact Hb|].
  apply Hmoved. discriminate.
Defined.

Section BatchExtras.
Context {Ext Point Scalar : Type}.
Context `{!Runtime Ext, !GoLib, !Oqs Ext, !Suite Ext Point Scalar, !Zk13 Ext}.
Implicit Types (w : account.World (Ext := Ext)).

(** X24.  Which error a batch reports.  When [GenerateAddressesBatch]
    returns an error, it is the error of the failing issuance of lowest
    index, whichever goroutine failed first in time: every coordinate
    before that index was issued an address.  A batch of no coordinates
    returns the empty list and touches nothing, whatever [bits] is. *)
Theorem GenerateAddressesBatch_reports_lowest_index sched coords bits w :
  sched ≡ₚ seq 0 (length coords) →
  (∀ err,
     (account.GenerateAddressesBatch sched coords bits w).1 = Return (Err err) →
     ∃ i,
       (∃ k lat lon,
          sched !! k = Some i ∧ coords !! i = Some (lat, lon)
          ∧ (account.GenerateAddress lat lon bits
               (membersRun coords bits (take k sched) w).2).1 = Return (Err err))
       ∧ ∀ j, j < i →
           ∃ k lat lon ai,
             sched !! k = Some j ∧ coords !! j = Some (lat, lon)
             ∧ (account.GenerateAddress lat lon bits
                  (membersRun coords bits (take k sched) w).2).1 = Return (Ok ai))
  ∧ account.GenerateAddressesBatch [] [] bits w = (Return (Ok []), w).
Proof.
  intros Hperm. split; [|done].
  destruct (sched_facts _ _ Hperm) as (Hnodup & Hbound & Hall).
  pose proof (membersRun_inv coords bits w sched Hnodup Hbound) as Hinv.
  rewrite GenerateAddressesBatch_eq.
  destruct (membersRun coords bits sched w) as [[[A E]|] w1] eqn:Hrun; [|done].
  destruct (Hinv A E w1 eq_refl) as (HlenA & HlenE & _ & Hdone).
  intros err Hout.
  destruct (account.firstError E) as [err'|] eqn:Hfirst; [|done].
  injection Hout as ->.
  destruct (firstError_Some E err Hfirst) as (i & Hi & Hbefore).
  assert (∀ j x, E !! j = Some x →
            ∃ k lat lon r,
              sched !! k = Some j ∧ coords !! j = Some (lat, lon)
              ∧ (account.GenerateAddress lat lon bits
                   (membersRun coords bits (take k sched) w).2).1 = Return r
              ∧ x = (slotOf r).2) as Hslot.
  { intros j x Hj.
    assert (j < length coords) as Hlt by (rewrite <- HlenE; by eapply lookup_lt_Some).
    destruct (Hall j Hlt) as [k Hk].
    destruct (lookup_lt_is_Some_2 coords j Hlt) as [[lat lon] Hc].
    destruct (Hdone k j lat lon Hk Hc) as (A0 & E0 & w0 & r & Hpre & Hr & _ & HE).
    exists k, lat, lon, r. rewrite Hpre. repeat split; try done. congruence. }
  exists i. split.
  - destruct (Hslot i _ Hi) as (k & lat & lon & r & Hk & Hc & Hr & Hx).
    exists k, lat, lon. split; [done|]. split; [done|].
    destruct r as [ai|err0]; [done|]. cbn in Hx. congruence.
  - intros j Hj.
    destruct (Hslot j _ (Hbefore j Hj)) as (k & lat & lon & r & Hk & Hc & Hr & Hx).
    destruct r as [ai|err0]; [|done]. by exists k, lat, lon, ai.
Qed.

End BatchExtras.

(** X24: the second and the third coordinate are invalid and the third
    goroutine runs first; the error is the second coordinate's. *)
Lemma GenerateAddressesBatch_reports_lowest_index_witness :
  (account.GenerateAddressesBatch [2; 0; 1]
     [(40.7128, -74.0060); (51.5074, -181); (95, 139.6503)]%float 256
     (Demo.emptyWorld true)).1 = Return (Err (InvalidLongitude (-181)))
  ∧ account.GenerateAddressesBatch [] [] 0 (Demo.emptyWorld true)
    = (Return (Ok []), Demo.emptyWorld true).
Proof.
  destruct (GenerateAddressesBatch_reports_lowest_index (Ext := bool) [2; 0; 1]
              [(40.7128, -74.0060); (51.5074, -181); (95, 139.6503)]%float 256
              (Demo.emptyWorld true)) as [_ Hempty].
  { apply (Permutation_cons_append [0; 1] 2). }
  split; [vm_compute; reflexivity|exact Hempty].
Defined.

(** ** Properties of [Decapsulate] *)

Section DecapsulateExtras.
Context {Ext : Type} `{!Oqs Ext, !OqsDecaps Ext}.
Implicit Types (e : Ext).

(** X25.  [Decapsulate] checks the size of the secret key first and the
    size of the ciphertext second, and refuses either without calling
    the library; a shared secret it returns has 32 bytes.  The wrapper
    agrees with itself on sizes: on a secret key made by
    [GenerateQuantumKeyPair] and a ciphertext made by [Encapsulate] the
    size checks never fire, so that [Decapsulate] fails only when the
    library does. *)
Theorem Decapsulate_contract e :
  (∀ secretKey ciphertext,
     length secretKey ≠ 1632 →
     decaps.Decapsulate secretKey ciphertext e = (inr decaps.InvalidSecretKeySize, e))
  ∧ (∀ secretKey ciphertext,
       length secretKey = 1632 → length ciphertext ≠ 768 →
       decaps.Decapsulate secretKey ciphertext e
         = (inr decaps.InvalidCiphertextSize, e))
  ∧ (∀ secretKey ciphertext ss e',
       decaps.Decapsulate secretKey ciphertext e = (inl ss, e') →
       length secretKey = 1632 ∧ length ciphertext = 768 ∧ length ss = 32)
  ∧ (∀ e0 e1 e2 e3 pk sk publicKey ct ss,
       common.GenerateQuantumKeyPair e0 = (Ok (pk, sk), e1) →
       common.Encapsulate publicKey e2 = (Ok (ct, ss), e3) →
       (decaps.Decapsulate sk ct e).1 = inr decaps.DecapsulationFailed
       ∨ ∃ ss', (decaps.Decapsulate sk ct e).1 = inl ss' ∧ length ss' = 32).
Proof.
  assert (Hsized : ∀ secretKey ciphertext,
            length secretKey = 1632 → length ciphertext = 768 →
            (decaps.Decapsulate secretKey ciphertext e).1 = inr decaps.DecapsulationFailed
            ∨ ∃ ss', (decaps.Decapsulate secretKey ciphertext e).1 = inl ss'
                     ∧ length ss' = 32).
  { intros secretKey ciphertext Hsk Hct. unfold decaps.Decapsulate.
    unfold common.SecretKeySize, common.CiphertextSize.
    rewrite Hsk, Hct, !Nat.eqb_refl. cbn [negb].
    destruct (C_decapsulate secretKey ciphertext e) as [[result ss] e1].
    destruct (result =? 0)%Z; [by left|]. right. eexists. split; [done|].
    apply fill_length. }
  split; [|split; [|split]].
  - intros secretKey ciphertext Hsk. unfold decaps.Decapsulate.
    apply Nat.eqb_neq in Hsk. unfold common.SecretKeySize. by rewrite Hsk.
  - intros secretKey ciphertext Hsk Hct. unfold decaps.Decapsulate.
    apply Nat.eqb_neq in Hct. unfold common.SecretKeySize, common.CiphertextSize.
    by rewrite Hsk, Nat.eqb_refl, Hct.
  - intros secretKey ciphertext ss e'. unfold decaps.Decapsulate.
    destruct (length secretKey =? common.SecretKeySize)%nat eqn:Hsk; [|done].
    destruct (length ciphertext =? common.CiphertextSize)%nat eqn:Hct; [|done].
    cbn [negb]. apply Nat.eqb_eq in Hsk, Hct.
    destruct (C_decapsulate secretKey ciphertext e) as [[result out] e1].
    destruct (result =? 0)%Z; [done|]. intros [= <- <-].
    by rewrite fill_length.
  - intros e0 e1 e2 e3 pk sk publicKey ct ss Hgen Henc.
    apply GenerateQuantumKeyPair_inv in Hgen as [?|(? & ? & [= <- <-] & _ & Hsk)];
      [done|].
    apply Encapsulate_inv in Henc
      as [(? & _)|[_ [?|(? & ? & [= <- <-] & Hct & _)]]]; [done..|].
    by apply Hsized.
Qed.

End DecapsulateExtras.

(** X25 on the demo library: a key pair, an encapsulation, and the
    decapsulation of its ciphertext; and a key that is too short. *)
Lemma Decapsulate_contract_witness :
  (∃ pk sk ct ss ss',
     common.GenerateQuantumKeyPair true = (Ok (pk, sk), true)
     ∧ common.Encapsulate pk true = (Ok (ct, ss), true)
     ∧ (decaps.Decapsulate sk ct true).1 = inl ss' ∧ length ss' = 32)
  ∧ decaps.Decapsulate [x02] [x03] true = (inr decaps.InvalidSecretKeySize, true).
Proof.
  destruct (Decapsulate_contract (Ext := bool) true)
    as (Hshort & _ & _ & Hround).
  split.
  - destruct (common.GenerateQuantumKeyPair true) as [[[pk sk]|err] e1] eqn:Hgen;
      [|vm_compute in Hgen; discriminate].
    assert (e1 = true) as -> by (vm_compute in Hgen; congruence).
    destruct (common.Encapsulate pk true) as [[[ct ss]|err] e2] eqn:Henc.
    2: { exfalso. revert Henc. injection Hgen as <- _.
         vm_compute. discriminate. }
    assert (e2 = true) as ->.
    { revert Henc. injection Hgen as <- _. vm_compute. congruence. }
    destruct (Hround true true true true pk sk pk ct ss Hgen Henc)
      as [Hfail|(ss' & Hok & Hlen)].
    + exfalso. revert Hfail. injection Hgen as _ <-.
      revert Henc. unfold common.Encapsulate.
      destruct (negb _); [discriminate|].
      destruct (C_encapsulate _ true) as [[[result ct0] ss0] e3].
      destruct (result =? 0)%Z; [discriminate|]. intros [= <- _ _].
      unfold decaps.Decapsulate. rewrite !fill_length. cbn. discriminate.
    + exists pk, sk, ct, ss, ss'. by repeat split.
  - apply Hshort. cbn. lia.
Defined.
